(** * A shallow embedding of the Go Lisp interpreter (main.go)

    The development follows the source file top to bottom: the value
    representation ([interface{}] holding [nil], [string], [int] or
    [[]interface{}]), the printer [toLispString], the evaluator
    ([myEval], [myApply], [myApplyAtom] and their helpers), and the
    reader ([tokenize], [parseSExpression], [readSExpression]).

    Conventions.
    - Go's [int] is taken to be 64 bits wide; arithmetic wraps ([wrap64]).
    - A Go [string] is a sequence of bytes: [String.string].
    - [globalAlist] is a package-level map that is mutated in place and is
      passed around by reference; the environment argument of the evaluator
      therefore records whether it *is* the global map ([Global]) or a
      separate map built by [let], [let*] or a function call ([Local]).
    - A [panic] is an explicit outcome that carries the message of the
      source and the error kind it falls under; the world (global map and
      standard output) at the moment of the panic is kept.
    - [myEval] is not structurally recursive, so it takes fuel: one unit
      per nested call of [myEval]. *)

From Stdlib Require Import ZArith List String Ascii Bool Lia.
From Stdlib Require Import Decimal DecimalString DecimalPos.
From stdpp Require Import base option list gmap strings.

Set Warnings "-register-all".

Local Open Scope string_scope.
Local Open Scope Z_scope.

(** ** Go library functions used by the program *)

(** The parts of Go's standard library that the program calls and that are
    defined by Unicode tables or floating point.  Each is only reached from
    the byte-level code below on input that leaves the ASCII fast path of
    the corresponding library function. *)
Class GoLib := {
  (** [strings.Map(unicode.ToUpper, s)], the slow path of [strings.ToUpper]. *)
  unicodeToUpper : string -> string;
  (** [strings.TrimFunc(s, unicode.IsSpace)], the fallback of
      [strings.TrimSpace] when the left scan meets a non-ASCII byte. *)
  unicodeTrimSpace : string -> string;
  (** [strings.TrimRightFunc(s, unicode.IsSpace)], the fallback of
      [strings.TrimSpace] when the right scan meets a non-ASCII byte. *)
  unicodeTrimRightSpace : string -> string;
  (** [strconv.ParseFloat(s, 64)] followed by [int(math.Floor(f))];
      [None] when [ParseFloat] reports an error. *)
  floorOfFloatString : string -> option Z
}.

Module GoString.

Definition byte (c : ascii) : N := N_of_ascii c.

(** [c >= utf8.RuneSelf] *)
Definition nonASCII (c : ascii) : bool := (128 <=? byte c)%N.

Fixpoint isASCII (s : string) : bool :=
  match s with
  | EmptyString => true
  | String c r => negb (nonASCII c) && isASCII r
  end.

Definition upperByte (c : ascii) : ascii :=
  if ((97 <=? byte c) && (byte c <=? 122))%N
  then ascii_of_N (byte c - 32)
  else c.

Fixpoint asciiUpper (s : string) : string :=
  match s with
  | EmptyString => EmptyString
  | String c r => String (upperByte c) (asciiUpper r)
  end.

(** [strings.ToUpper]: byte-wise on ASCII-only strings, otherwise the
    Unicode mapping. *)
Definition ToUpper `{GoLib} (s : string) : string :=
  if isASCII s then asciiUpper s else unicodeToUpper s.

(** The table [asciiSpace] of package [strings]:
    tab, newline, vertical tab, form feed, carriage return, space. *)
Definition asciiSpace (c : ascii) : bool :=
  let n := byte c in
  ((n =? 9) || (n =? 10) || (n =? 11) || (n =? 12) || (n =? 13) || (n =? 32))%N.

(** The right scan of [strings.TrimSpace]: drop trailing ASCII space. *)
Fixpoint dropTrailingSpace (s : string) : string :=
  match s with
  | EmptyString => EmptyString
  | String c r =>
      match dropTrailingSpace r with
      | EmptyString => if asciiSpace c then EmptyString else String c EmptyString
      | r' => String c r'
      end
  end.

Fixpoint lastByte (s : string) : option ascii :=
  match s with
  | EmptyString => None
  | String c EmptyString => Some c
  | String _ r => lastByte r
  end.

Definition trimRight `{GoLib} (s : string) : string :=
  let t := dropTrailingSpace s in
  match lastByte t with
  | Some c => if nonASCII c then unicodeTrimRightSpace t else t
  | None => t
  end.

(** [strings.TrimSpace]. *)
Fixpoint TrimSpace `{GoLib} (s : string) : string :=
  match s with
  | EmptyString => EmptyString
  | String c r =>
      if nonASCII c then unicodeTrimSpace s
      else if asciiSpace c then TrimSpace r
      else trimRight s
  end.

(** [strings.Join]. *)
Fixpoint Join (parts : list string) (sep : string) : string :=
  match parts with
  | [] => EmptyString
  | [p] => p
  | p :: ps => p +:+ sep +:+ Join ps sep
  end.

End GoString.
Export GoString.

Module GoInt.

Definition minInt : Z := - 2 ^ 63.
Definition maxInt : Z := 2 ^ 63 - 1.

(** Two's-complement wrap-around of a 64-bit [int]. *)
Definition wrap64 (z : Z) : Z := (z + 2 ^ 63) mod 2 ^ 64 - 2 ^ 63.

Definition inRange (z : Z) : bool := (minInt <=? z) && (z <=? maxInt).

Definition digitOf (c : ascii) : option Z :=
  let n := byte c in
  if ((48 <=? n) && (n <=? 57))%N then Some (Z.of_N n - 48) else None.

(** The digit loop of [strconv.Atoi]: [n = n*10 + int(ch)]. *)
Fixpoint digits (n : Z) (s : string) : option Z :=
  match s with
  | EmptyString => Some n
  | String ch r =>
      match digitOf ch with
      | Some d => digits (n * 10 + d) r
      | None => None
      end
  end.

(** [strconv.Atoi], base 10: an optional sign, at least one digit, and a
    value that fits [int]; [None] stands for a non-nil [err]. *)
Definition Atoi (s : string) : option Z :=
  match s with
  | EmptyString => None
  | String c r =>
      let neg := Ascii.eqb c "-" in
      let body := if neg || Ascii.eqb c "+" then r else s in
      match body with
      | EmptyString => None
      | _ =>
          match digits 0 body with
          | Some n =>
              let z := if neg then - n else n in
              if inRange z then Some z else None
          | None => None
          end
      end
  end.

(** [fmt.Sprintf("%d", v)]. *)
Definition formatInt (v : Z) : string := NilEmpty.string_of_int (Z.to_int v).

End GoInt.
Export GoInt.

(** ** Values *)

(** The dynamic type of an [interface{}] as the program uses it. *)
Inductive value : Type :=
| VNil                       (* the nil interface *)
| VSym (s : string)          (* string *)
| VInt (n : Z)               (* int *)
| VList (l : list value).    (* []interface{} *)

Section ValueInd.
Variable P : value -> Prop.
Hypothesis HNil : P VNil.
Hypothesis HSym : forall s, P (VSym s).
Hypothesis HInt : forall n, P (VInt n).
Hypothesis HList : forall l, Forall P l -> P (VList l).

Fixpoint value_ind_nested (v : value) : P v :=
  match v with
  | VNil => HNil
  | VSym s => HSym s
  | VInt n => HInt n
  | VList l =>
      HList l ((fix go (l : list value) : Forall P l :=
                  match l with
                  | [] => @List.Forall_nil _ P
                  | x :: xs => @List.Forall_cons _ P x xs (value_ind_nested x) (go xs)
                  end) l)
  end.
End ValueInd.

(** An [Alist] maps symbols (strings) to values. *)
Abbreviation Alist := (gmap string value).

Section Printer.
Context `{GoLib}.

(** [isSymbol]: [x] is a string equal to [s] ignoring case. *)
Definition isSymbol (x : value) (s : string) : bool :=
  match x with
  | VSym str => String.eqb (ToUpper str) (ToUpper s)
  | _ => false
  end.

(** [isNil]: the nil interface, or the symbol NIL. *)
Definition isNil (x : value) : bool :=
  match x with
  | VNil => true
  | _ => isSymbol x "NIL"
  end.

Fixpoint toLispString (obj : value) : string :=
  match obj with
  | VNil => "NIL"
  | VSym v =>
      if isSymbol (VSym v) "T" then "T"
      else if isSymbol (VSym v) "NIL" then "NIL"
      else v
  | VInt v => formatInt v
  | VList v => "(" +:+ Join (map toLispString v) " " +:+ ")"
  end.

End Printer.

(** ** Errors, the world, and the evaluation monad *)

(** The kinds of evaluation failure.  The source signals every one of them
    with [panic(message)]; the kind is the category the message belongs to. *)
Inductive EvalError : Type :=
| ArityError
| MalformedForm
| TypeError
| DivisionByZero
| UnknownFunction
| NotCallable
| InvalidOperator.

Inductive outcome (A : Type) : Type :=
| Val (a : A)
| Panic (kind : EvalError) (msg : string)
| OutOfFuel.
Arguments Val {A} a.
Arguments Panic {A} kind msg.
Arguments OutOfFuel {A}.

(** The mutable state of the process: the package variable [globalAlist]
    and what [fmt.Println] has written so far (one entry per line). *)
Record World : Type := mkWorld {
  globalAlist : Alist;
  stdout : list string
}.

(** The [alist] argument of the evaluator.  A Go map is a reference:
    [Global] is the case where the caller passed [globalAlist] itself, so
    that later writes to the global map are visible through it. *)
Inductive env : Type :=
| Global
| Local (m : Alist).

Definition M (A : Type) : Type := World -> outcome A * World.

Definition ret {A} (a : A) : M A := fun w => (Val a, w).

Definition panic {A} (kind : EvalError) (msg : string) : M A :=
  fun w => (Panic kind msg, w).

Definition bind {A B} (m : M A) (f : A -> M B) : M B :=
  fun w =>
    match m w with
    | (Val a, w') => f a w'
    | (Panic k msg, w') => (Panic k msg, w')
    | (OutOfFuel, w') => (OutOfFuel, w')
    end.

Notation "'let!' x := m 'in' f" := (bind m (fun x => f))
  (at level 10, x name, m at level 100, f at level 200).

Definition lift {A} (o : outcome A) : M A := fun w => (o, w).

(** The current contents of the map an [env] refers to. *)
Definition contents (alist : env) (w : World) : Alist :=
  match alist with
  | Global => globalAlist w
  | Local m => m
  end.

Definition getContents (alist : env) : M Alist :=
  fun w => (Val (contents alist w), w).

(** The world after [globalAlist[k] = v]. *)
Definition store (k : string) (v : value) (w : World) : World :=
  mkWorld (<[k := v]> (globalAlist w)) (stdout w).

(** [globalAlist[k] = v] *)
Definition setGlobal (k : string) (v : value) : M unit :=
  fun w => (Val tt, store k v w).

(** [fmt.Println(line)] *)
Definition println (line : string) : M unit :=
  fun w => (Val tt, mkWorld (globalAlist w) (stdout w ++ [line])).

(** ** Dispatch tables *)

(** The case labels of the [switch up] in [myApply]. *)
Inductive form : Type :=
| FQuote | FCond | FDefun | FSetq | FEval | FApply
| FAnd | FOr | FNot | FLetStar | FIf | FLet.

Definition formTable : list (string * form) :=
  [ ("QUOTE", FQuote); ("COND", FCond); ("DEFUN", FDefun); ("SETQ", FSetq);
    ("EVAL", FEval); ("APPLY", FApply); ("AND", FAnd); ("OR", FOr);
    ("NOT", FNot); ("LET*", FLetStar); ("IF", FIf); ("LET", FLet) ].

(** The case labels of the [switch up] in [myApplyAtom]. *)
Inductive prim : Type :=
| PCar | PCdr | PCons | PEq | PEqual | PAtom | PNull | PListp
| PSymbolp | PStringp | PNumberp | PPrint
| PAdd | PSub | PMul | PDiv | PLt | PGt | PInc | PDec | PMod | PFloor
| PNumEq | PList | PZerop | PElem | PLambda | PIf.

Definition primTable : list (string * prim) :=
  [ ("CAR", PCar); ("CDR", PCdr); ("CONS", PCons); ("EQ", PEq);
    ("EQUAL", PEqual); ("ATOM", PAtom); ("NULL", PNull); ("LISTP", PListp);
    ("SYMBOLP", PSymbolp); ("STRINGP", PStringp); ("NUMBERP", PNumberp);
    ("PRINT", PPrint); ("+", PAdd); ("-", PSub); ("*", PMul); ("/", PDiv);
    ("<", PLt); (">", PGt); ("1+", PInc); ("1-", PDec); ("MOD", PMod);
    ("FLOOR", PFloor); ("=", PNumEq); ("LIST", PList); ("ZEROP", PZerop);
    ("ELEM", PElem); ("LAMBDA", PLambda); ("IF", PIf) ].

(** Selecting the case of a [switch] on a string. *)
Fixpoint switch {A} (table : list (string * A)) (up : string) : option A :=
  match table with
  | [] => None
  | (label, a) :: rest => if String.eqb up label then Some a else switch rest up
  end.

Definition formOf (up : string) : option form := switch formTable up.
Definition primOf (up : string) : option prim := switch primTable up.

(** ** The evaluator *)

Section Evaluator.
Context `{GoLib}.

Definition boolToT (b : bool) : value :=
  if b then VSym "T" else VNil.

(** [equalp]: structural equality, symbols compared ignoring case. *)
Fixpoint equalp (x y : value) {struct x} : bool :=
  match x with
  | VNil => match y with VNil => true | _ => false end
  | VSym xv =>
      match y with
      | VSym yv => String.eqb (ToUpper xv) (ToUpper yv)
      | _ => false
      end
  | VInt xv =>
      match y with
      | VInt yv => xv =? yv
      | _ => false
      end
  | VList xv =>
      match y with
      | VList yv =>
          if negb (length xv =? length yv)%nat then false
          else
            (fix each (xs ys : list value) {struct xs} : bool :=
               match xs, ys with
               | a :: xs', b :: ys' => if equalp a b then each xs' ys' else false
               | _, _ => true
               end) xv yv
      | _ => false
      end
  end.

(** [toList]: nil becomes the empty slice, a slice is itself, anything
    else is wrapped in a one-element slice. *)
Definition toList (x : value) : list value :=
  match x with
  | VNil => []
  | VList l => l
  | _ => [x]
  end.

(** [myEvalAtom] *)
Definition myEvalAtom (atom : value) (alist : env) : M value :=
  fun w =>
    match atom with
    | VInt v => (Val (VInt v), w)
    | VSym v =>
        let up := ToUpper v in
        if String.eqb up "T" then (Val (VSym "T"), w)
        else if String.eqb up "NIL" then (Val VNil, w)
        else
          match contents alist w !! v with
          | Some val => (Val val, w)
          | None =>
              match globalAlist w !! v with
              | Some val => (Val val, w)
              | None => (Val (VSym v), w)
              end
          end
    | _ => (Val atom, w)
    end.

(** The first loop of [bindFormals]: [newAlist[sym] = actuals[i]]. *)
Fixpoint bindLoop (formals actuals : list value) (newAlist : Alist)
  : outcome Alist :=
  match formals, actuals with
  | f :: fs, a :: acts =>
      match f with
      | VSym sym => bindLoop fs acts (<[sym := a]> newAlist)
      | _ => Panic MalformedForm "Formal parameters must be symbols"
      end
  | _, _ => Val newAlist
  end.

(** [bindFormals]: a new map with the formals bound to the actuals, and
    every binding of [alist] that the formals do not override. *)
Definition bindFormals (formals actuals : list value) (alist : Alist)
  : outcome Alist :=
  if negb (length formals =? length actuals)%nat
  then Panic ArityError "Lambda argument count mismatch"
  else
    match bindLoop formals actuals ∅ with
    | Val newAlist => Val (newAlist ∪ alist)
    | bad => bad
    end.

(** [myEvalDefun] *)
Definition myEvalDefun (args : list value) : M value :=
  match args with
  | a0 :: a1 :: body =>
      match body with
      | [] => panic ArityError "defun: must have (defun fname (args...) body...)"
      | _ =>
          match a0 with
          | VSym fname =>
              match a1 with
              | VList formals =>
                  let fnDef := VList (VList formals :: body) in
                  let! _ := setGlobal fname fnDef in
                  ret (VSym fname)
              | _ => panic MalformedForm
                       "defun: second argument must be a list of formals"
              end
          | _ => panic MalformedForm "defun: first argument must be a symbol"
          end
      end
  | _ => panic ArityError "defun: must have (defun fname (args...) body...)"
  end.

(** The functions below call [myEval]; [ev] stands for that call. *)
Variable ev : value -> env -> M value.

(** [myEvalList]: evaluate in sequence, return the last result
    ([nil] for no expression at all). *)
Fixpoint myEvalListF (exprs : list value) (alist : env) : M value :=
  match exprs with
  | [] => ret VNil
  | [expr] => ev expr alist
  | expr :: rest => let! _ := ev expr alist in myEvalListF rest alist
  end.

(** [myApplyLambda] *)
Definition myApplyLambdaF (fnBody args : list value) (alist : env) : M value :=
  match fnBody with
  | f :: ((_ :: _) as body) =>
      match f with
      | VList formals =>
          let! base := getContents alist in
          let! newAlist := lift (bindFormals formals args base) in
          myEvalListF body (Local newAlist)
      | _ => panic UnknownFunction "Invalid lambda formals"
      end
  | _ => panic UnknownFunction "Invalid lambda function definition"
  end.

(** [myEvalSetq]: the value is evaluated with [globalAlist] as its
    environment, then stored. *)
Definition myEvalSetqF (varName : string) (val : value) : M value :=
  let! evaluated := ev val Global in
  let! _ := setGlobal varName evaluated in
  ret evaluated.

(** [myEvalCond] *)
Fixpoint myEvalCondF (clauses : list value) (alist : env) : M value :=
  match clauses with
  | [] => ret VNil
  | c :: rest =>
      match c with
      | VList (c0 :: body) =>
          let! condition := ev c0 alist in
          if negb (isNil condition) then myEvalListF body alist
          else myEvalCondF rest alist
      | _ => panic MalformedForm "cond: each clause must be a non-empty list"
      end
  end.

(** The [if] form, as written twice in the source
    (in [myApply] and in [myApplyAtom]). *)
Definition evalIfF (args : list value) (alist : env) : M value :=
  match args with
  | [c; th] =>
      let! condition := ev c alist in
      if negb (isNil condition) then ev th alist else ret VNil
  | [c; th; el] =>
      let! condition := ev c alist in
      if negb (isNil condition) then ev th alist else ev el alist
  | _ => panic ArityError "if expects (if condition then [else])"
  end.

(** *** Built-in functions: the cases of [myApplyAtom] that neither print
    nor evaluate *)

Definition primCar (args : list value) : outcome value :=
  match args with
  | [a] =>
      match a with
      | VList (x :: _) => Val x
      | _ => Val VNil
      end
  | _ => Panic ArityError "car expects 1 argument"
  end.

Definition primCdr (args : list value) : outcome value :=
  match args with
  | [a] =>
      match a with
      | VList (_ :: ((_ :: _) as rest)) => Val (VList rest)
      | _ => Val VNil
      end
  | _ => Panic ArityError "cdr expects 1 argument"
  end.

Definition primCons (args : list value) : outcome value :=
  match args with
  | [a; b] =>
      match b with
      | VNil => Val (VList [a])
      | VList lst => Val (VList (a :: lst))
      | _ => Val (VList [a; b])
      end
  | _ => Panic ArityError "cons expects 2 arguments"
  end.

Definition primEq (args : list value) : outcome value :=
  match args with
  | [x; y] =>
      if isNil x && isNil y then Val (VSym "T")
      else
        match x with
        | VSym xv =>
            match y with
            | VSym yv =>
                if String.eqb (ToUpper xv) (ToUpper yv)
                then Val (VSym "T") else Val VNil
            | _ => Val VNil
            end
        | VInt xv =>
            match y with
            | VInt yv => if xv =? yv then Val (VSym "T") else Val VNil
            | _ => Val VNil
            end
        | _ => Val VNil
        end
  | _ => Panic ArityError "eq expects 2 arguments"
  end.

Definition primEqual (args : list value) : outcome value :=
  match args with
  | [x; y] => if equalp x y then Val (VSym "T") else Val VNil
  | _ => Panic ArityError "equal expects 2 arguments"
  end.

(** A one-argument type test: [atom], [null], [listp], [symbolp],
    [stringp], [numberp]. *)
Definition typeTest (arity : string) (test : value -> bool)
  (args : list value) : outcome value :=
  match args with
  | [a] => Val (boolToT (test a))
  | _ => Panic ArityError arity
  end.

Definition isSlice (x : value) : bool :=
  match x with VList _ => true | _ => false end.
Definition isString (x : value) : bool :=
  match x with VSym _ => true | _ => false end.
Definition isInt (x : value) : bool :=
  match x with VInt _ => true | _ => false end.

(** The loops of [+], [*], [-] and [/] over the remaining arguments. *)
Fixpoint foldInts (typ : string) (op : Z -> Z -> Z)
  (args : list value) (acc : Z) : outcome value :=
  match args with
  | [] => Val (VInt acc)
  | a :: rest =>
      match a with
      | VInt num => foldInts typ op rest (wrap64 (op acc num))
      | _ => Panic TypeError typ
      end
  end.

Fixpoint divLoop (args : list value) (result : Z) : outcome value :=
  match args with
  | [] => Val (VInt result)
  | a :: rest =>
      match a with
      | VInt num =>
          if num =? 0 then Panic DivisionByZero "division by zero"
          else divLoop rest (wrap64 (Z.quot result num))
      | _ => Panic TypeError "/ expects integers"
      end
  end.

Definition primSub (args : list value) : outcome value :=
  match args with
  | [] => Panic ArityError "- expects at least one argument"
  | a0 :: rest =>
      match a0 with
      | VInt first =>
          match rest with
          | [] => Val (VInt (wrap64 (- first)))
          | _ => foldInts "- expects integers" Z.sub rest first
          end
      | _ => Panic TypeError "- expects integers"
      end
  end.

Definition primDiv (args : list value) : outcome value :=
  match args with
  | a0 :: ((_ :: _) as rest) =>
      match a0 with
      | VInt first => divLoop rest first
      | _ => Panic TypeError "/ expects integers"
      end
  | _ => Panic ArityError "/ expects at least two arguments"
  end.

(** Exactly two [int] arguments: [<], [>], [=], [mod], two-argument [floor]. *)
Definition twoInts (arity typ : string) (k : Z -> Z -> outcome value)
  (args : list value) : outcome value :=
  match args with
  | [a; b] =>
      match a, b with
      | VInt x, VInt y => k x y
      | _, _ => Panic TypeError typ
      end
  | _ => Panic ArityError arity
  end.

(** Exactly one [int] argument: [1+], [1-], [zerop]. *)
Definition oneInt (arity typ : string) (k : Z -> value)
  (args : list value) : outcome value :=
  match args with
  | [a] =>
      match a with
      | VInt n => Val (k n)
      | _ => Panic TypeError typ
      end
  | _ => Panic ArityError arity
  end.

Definition primMod (args : list value) : outcome value :=
  twoInts "mod expects exactly 2 arguments" "mod expects integers"
    (fun x y =>
       if y =? 0 then Panic DivisionByZero "mod by zero"
       else Val (VInt (Z.rem x y)))
    args.

Definition primFloor (args : list value) : outcome value :=
  match args with
  | [a] =>
      match a with
      | VInt vv => Val (VInt vv)
      | VSym vv =>
          match floorOfFloatString vv with
          | Some n => Val (VInt n)
          | None => Panic TypeError "floor expects a number"
          end
      | _ => Panic TypeError "floor expects a number"
      end
  | [_; _] =>
      twoInts "floor expects one or two arguments"
        "floor expects integers when given two arguments"
        (fun x y =>
           if y =? 0 then Panic DivisionByZero "division by zero"
           else Val (VInt (wrap64 (Z.quot x y))))
        args
  | _ => Panic ArityError "floor expects one or two arguments"
  end.

Definition primElem (args : list value) : outcome value :=
  match args with
  | [item; l] =>
      match l with
      | VList lst =>
          if existsb (fun v => equalp v item) lst
          then Val (VSym "T") else Val VNil
      | _ => Val VNil
      end
  | _ => Panic ArityError "elem expects 2 arguments"
  end.

(** The cases of [myApplyAtom] that only compute on their arguments. *)
Definition applyPure (p : prim) (args : list value) : outcome value :=
  match p with
  | PCar => primCar args
  | PCdr => primCdr args
  | PCons => primCons args
  | PEq => primEq args
  | PEqual => primEqual args
  | PAtom => typeTest "atom expects 1 argument" (fun a => negb (isSlice a)) args
  | PNull => typeTest "null expects 1 argument" isNil args
  | PListp => typeTest "listp expects 1 argument" isSlice args
  | PSymbolp => typeTest "symbolp expects 1 argument" isString args
  | PStringp => typeTest "stringp expects 1 argument" isString args
  | PNumberp => typeTest "numberp expects 1 argument" isInt args
  | PAdd => foldInts "+ expects integers" Z.add args 0
  | PSub => primSub args
  | PMul => foldInts "* expects integers" Z.mul args 1
  | PDiv => primDiv args
  | PLt => twoInts "< expects exactly two arguments" "< expects integers"
             (fun x y => Val (boolToT (x <? y))) args
  | PGt => twoInts "> expects exactly two arguments" "> expects integers"
             (fun x y => Val (boolToT (x >? y))) args
  | PInc => oneInt "1+ expects one argument" "1+ expects an integer"
              (fun n => VInt (wrap64 (n + 1))) args
  | PDec => oneInt "1- expects one argument" "1- expects an integer"
              (fun n => VInt (wrap64 (n - 1))) args
  | PMod => primMod args
  | PFloor => primFloor args
  | PNumEq => twoInts "= expects exactly 2 arguments" "= expects integers"
                (fun x y => Val (boolToT (x =? y))) args
  | PList => Val (VList args)
  | PZerop => oneInt "zerop expects 1 argument" "zerop expects an integer"
                (fun n => boolToT (n =? 0)) args
  | PElem => primElem args
  | PLambda => Val (VList args)
  | PPrint | PIf => Val VNil (* handled in [myApplyAtom] itself *)
  end.

(** [myApplyAtom]: built-in functions, then user-defined functions looked
    up in [globalAlist] under the spelling [fnSym]. *)
Definition myApplyAtomF (fnSym : string) (args : list value) (alist : env)
  (fullyEvaluated : bool) : M value :=
  let up := ToUpper fnSym in
  match primOf up with
  | Some PPrint =>
      match args with
      | [a] => let! _ := println (toLispString a) in ret a
      | _ => panic ArityError "print expects 1 argument"
      end
  | Some PIf => evalIfF args alist
  | Some p => lift (applyPure p args)
  | None =>
      fun w =>
        match globalAlist w !! fnSym with
        | None => (Panic UnknownFunction ("Unknown function: " +:+ fnSym), w)
        | Some fnDef =>
            match fnDef with
            | VList lambdaBody => myApplyLambdaF lambdaBody args Global w
            | _ => (Panic UnknownFunction
                      ("Invalid function definition for: " +:+ fnSym), w)
            end
        end
  end.

(** *** Special forms: [myApply] *)

(** The default case evaluates every argument, left to right. *)
Fixpoint evalArgsF (args : list value) (alist : env) : M (list value) :=
  match args with
  | [] => ret []
  | a :: rest =>
      let! v := ev a alist in
      let! vs := evalArgsF rest alist in
      ret (v :: vs)
  end.

Fixpoint andLoopF (args : list value) (alist : env) : M value :=
  match args with
  | [] => ret (VSym "T")
  | a :: rest =>
      let! val := ev a alist in
      if isNil val then ret VNil else andLoopF rest alist
  end.

Fixpoint orLoopF (args : list value) (alist : env) : M value :=
  match args with
  | [] => ret VNil
  | a :: rest =>
      let! val := ev a alist in
      if negb (isNil val) then ret (VSym "T") else orLoopF rest alist
  end.

(** The binding loop of [let*]: each value is evaluated in the map built
    so far, then added to it. *)
Fixpoint letStarLoopF (bindings : list value) (localAlist : Alist) : M Alist :=
  match bindings with
  | [] => ret localAlist
  | b :: rest =>
      match b with
      | VList [p0; p1] =>
          match p0 with
          | VSym varName =>
              let! val := ev p1 (Local localAlist) in
              letStarLoopF rest (<[varName := val]> localAlist)
          | _ => panic MalformedForm "let*: variable name must be a symbol"
          end
      | _ => panic MalformedForm "let*: each binding must be a pair (var val)"
      end
  end.

(** The binding loop of [let]: each value is evaluated in the caller's
    [alist]; names and values are collected in order. *)
Fixpoint letLoopF (bindings : list value) (alist : env)
  : M (list (string * value)) :=
  match bindings with
  | [] => ret []
  | b :: rest =>
      match b with
      | VList [p0; p1] =>
          match p0 with
          | VSym varName =>
              let! val := ev p1 alist in
              let! more := letLoopF rest alist in
              ret ((varName, val) :: more)
          | _ => panic MalformedForm "let: variable name must be a symbol"
          end
      | _ => panic MalformedForm "let: each binding must be (var val)"
      end
  end.

(** [localAlist[varName] = varVals[i]], in order. *)
Definition bindAll (pairs : list (string * value)) (localAlist : Alist) : Alist :=
  fold_left (fun m kv => <[kv.1 := kv.2]> m) pairs localAlist.

Definition myApplyF (fnSym : string) (args : list value) (alist : env)
  : M value :=
  let up := ToUpper fnSym in
  match formOf up with
  | Some FQuote =>
      match args with
      | [a] => ret a
      | _ => panic ArityError "quote expects exactly one argument"
      end
  | Some FCond => myEvalCondF args alist
  | Some FDefun => myEvalDefun args
  | Some FSetq =>
      match args with
      | [a0; a1] =>
          match a0 with
          | VSym varName => myEvalSetqF varName a1
          | _ => panic MalformedForm "setq: first argument must be a symbol"
          end
      | _ => panic ArityError "setq expects 2 arguments"
      end
  | Some FEval =>
      match args with
      | [a] => let! val := ev a alist in ev val alist
      | _ => panic ArityError "eval expects 1 argument"
      end
  | Some FApply =>
      match args with
      | [a0; a1] =>
          let! fnVal := ev a0 alist in
          match fnVal with
          | VSym fnName =>
              let! argVal := ev a1 alist in
              myApplyAtomF fnName (toList argVal) alist false
          | _ => panic NotCallable "apply expects a function symbol as first arg"
          end
      | _ => panic ArityError "apply expects exactly 2 arguments"
      end
  | Some FAnd => andLoopF args alist
  | Some FOr => orLoopF args alist
  | Some FNot =>
      match args with
      | [a] => let! val := ev a alist in ret (boolToT (isNil val))
      | _ => panic ArityError "not expects 1 argument"
      end
  | Some FLetStar =>
      match args with
      | a0 :: ((_ :: _) as body) =>
          match a0 with
          | VList bindings =>
              let! inherited := getContents alist in
              let! localAlist := letStarLoopF bindings inherited in
              myEvalListF body (Local localAlist)
          | _ => panic MalformedForm
                   "let*: first argument must be a list of bindings"
          end
      | _ => panic ArityError "let* expects at least ((var val)...) and a body"
      end
  | Some FIf => evalIfF args alist
  | Some FLet =>
      match args with
      | a0 :: ((_ :: _) as body) =>
          match a0 with
          | VList bindings =>
              let! inherited := getContents alist in
              let! pairs := letLoopF bindings alist in
              myEvalListF body (Local (bindAll pairs inherited))
          | _ => panic MalformedForm
                   "let: first argument must be a list of bindings"
          end
      | _ => panic ArityError "let expects ((var val)...) and a body"
      end
  | None =>
      let! evaledArgs := evalArgsF args alist in
      myApplyAtomF fnSym evaledArgs alist true
  end.

(** One layer of [myEval]. *)
Definition myEvalF (expr : value) (alist : env) : M value :=
  match expr with
  | VSym _ | VInt _ => myEvalAtom expr alist
  | VList [] => ret VNil
  | VList (VSym fnSym :: rest) => myApplyF fnSym rest alist
  | VList (_ :: _) => panic InvalidOperator "Invalid function: must be a symbol"
  | VNil => ret VNil
  end.

End Evaluator.

Section Fuel.
Context `{GoLib}.

(** [myEval], with one unit of fuel for each nested call. *)
Fixpoint myEval (fuel : nat) (expr : value) (alist : env) : M value :=
  match fuel with
  | O => lift OutOfFuel
  | S n => myEvalF (myEval n) expr alist
  end.

Definition myEvalList (fuel : nat) := myEvalListF (myEval fuel).
Definition myApplyLambda (fuel : nat) := myApplyLambdaF (myEval fuel).
Definition myEvalSetq (fuel : nat) := myEvalSetqF (myEval fuel).
Definition myEvalCond (fuel : nat) := myEvalCondF (myEval fuel).
Definition myApplyAtom (fuel : nat) := myApplyAtomF (myEval fuel).
Definition myApply (fuel : nat) := myApplyF (myEval fuel).
Definition evalArgs (fuel : nat) := evalArgsF (myEval fuel).

End Fuel.

(** ** The reader *)

Inductive ReadError : Type :=
| UnmatchedParenthesis
| UnexpectedCloseParen
| TrailingTokens.

Section Reader.
Context `{GoLib}.

(** [appendToken]: append the current token if it is not empty. *)
Definition appendToken (tokens : list string) (token : string) : list string :=
  match token with
  | EmptyString => tokens
  | _ => tokens ++ [token]
  end.

(** The loop of [tokenize] over the bytes of the trimmed input;
    [token] is the [strings.Builder]. *)
Fixpoint tokenizeLoop (input : string) (tokens : list string) (token : string)
  : list string :=
  match input with
  | EmptyString => appendToken tokens token
  | String ch rest =>
      if Ascii.eqb ch "(" then
        tokenizeLoop rest (appendToken tokens token ++ ["("]) EmptyString
      else if Ascii.eqb ch ")" then
        tokenizeLoop rest (appendToken tokens token ++ [")"]) EmptyString
      else if Ascii.eqb ch "'" then
        tokenizeLoop rest (appendToken tokens token ++ ["'"]) EmptyString
      else if Ascii.eqb ch " " then
        if (0 <? String.length token)%nat
        then tokenizeLoop rest (appendToken tokens token) EmptyString
        else tokenizeLoop rest tokens token
      else tokenizeLoop rest tokens (token +:+ String ch EmptyString)
  end.

Definition tokenize (input : string) : list string :=
  tokenizeLoop (TrimSpace input) [] EmptyString.

End Reader.

(** The result of parsing: a value and the tokens that remain
    (the parser's [pos]), a [panic], or no fuel left. *)
Inductive parsed : Type :=
| Parsed (v : value) (rest : list string)
| ParseFail (e : ReadError) (msg : string)
| ParseFuel.

(** [parseSExpression], with the loop of the list case as [parseList]:
    [lst] holds the elements appended so far. *)
Fixpoint parseSExpression (fuel : nat) (tokens : list string) : parsed :=
  match fuel with
  | O => ParseFuel
  | S n =>
      match tokens with
      | [] => Parsed VNil []
      | t :: rest =>
          if String.eqb t "'" then
            match parseSExpression n rest with
            | Parsed expr rest' => Parsed (VList [VSym "quote"; expr]) rest'
            | bad => bad
            end
          else if String.eqb t "(" then parseList n rest []
          else if String.eqb t ")" then
            ParseFail UnexpectedCloseParen "unexpected )"
          else
            match Atoi t with
            | Some num => Parsed (VInt num) rest
            | None => Parsed (VSym t) rest
            end
      end
  end
with parseList (fuel : nat) (tokens : list string) (lst : list value) : parsed :=
  match fuel with
  | O => ParseFuel
  | S n =>
      match tokens with
      | [] => ParseFail UnmatchedParenthesis "unmatched parenthesis"
      | t :: rest =>
          if String.eqb t ")" then Parsed (VList lst) rest
          else
            match parseSExpression n tokens with
            | Parsed v rest' => parseList n rest' (lst ++ [v])
            | bad => bad
            end
      end
  end.

Section Read.
Context `{GoLib}.

(** Enough fuel for any token list: every call consumes a token or
    returns at once. *)
Definition parseFuel (tokens : list string) : nat := 2 * length tokens + 1.

(** [readSExpression] *)
Definition readSExpression (input : string) : parsed :=
  let tokens := tokenize input in
  match tokens with
  | [] => Parsed VNil []
  | _ =>
      match parseSExpression (parseFuel tokens) tokens with
      | Parsed expr [] => Parsed expr []
      | Parsed _ (_ :: _) => ParseFail TrailingTokens "extra tokens after parse"
      | bad => bad
      end
  end.

End Read.

(** ** Vocabulary of the statements *)

(** Runs on ASCII input never reach the library fallbacks; this instance
    fixes them for the closed examples. *)
Definition asciiLib : GoLib :=
  {| unicodeToUpper := fun s => s;
     unicodeTrimSpace := fun s => s;
     unicodeTrimRightSpace := fun s => s;
     floorOfFloatString := fun _ => None |}.

(** The world at process start: [globalAlist = make(Alist)], nothing
    printed. *)
Definition emptyWorld : World := mkWorld ∅ [].

(** The run ended in a panic of the given kind. *)
Definition failsWith {A} (kind : EvalError) (r : outcome A * World) : Prop :=
  exists msg, r.1 = Panic kind msg.

Definition isVal {A} (o : outcome A) : bool :=
  match o with Val _ => true | _ => false end.

(** [m'] gives the result of [m] whenever [m] does not run out of fuel. *)
Definition refines {A} (m m' : M A) : Prop :=
  forall w r w', m w = (r, w') -> r <> OutOfFuel -> m' w = (r, w').

(** The argument count that the source checks with [len(args) != n],
    for the built-in functions that have such a check. *)
Definition fixedArity (p : prim) : option nat :=
  match p with
  | PCar | PCdr | PAtom | PNull | PListp | PSymbolp | PStringp | PNumberp
  | PPrint | PInc | PDec | PZerop => Some 1%nat
  | PCons | PEq | PEqual | PLt | PGt | PMod | PNumEq | PElem => Some 2%nat
  | PAdd | PSub | PMul | PDiv | PFloor | PList | PLambda | PIf => None
  end.

(** The built-in functions with a fixed argument count whose every
    argument is asserted to be an [int]. *)
Definition intOnly (p : prim) : bool :=
  match p with
  | PLt | PGt | PNumEq | PMod | PInc | PDec | PZerop => true
  | _ => false
  end.

(** The argument counts a built-in function accepts, after its length
    check: [len(args) != n] for those of [fixedArity], [len(args) < 1] for
    [-], [len(args) < 2] for [/], one or two for [floor], two or three for
    [if]; [+], [*], [list] and [lambda] have no length check. *)
Definition arityOk (p : prim) (k : nat) : bool :=
  match p with
  | PAdd | PMul | PList | PLambda => true
  | PSub => (1 <=? k)%nat
  | PDiv => (2 <=? k)%nat
  | PFloor => (k =? 1)%nat || (k =? 2)%nat
  | PIf => (k =? 2)%nat || (k =? 3)%nat
  | _ => match fixedArity p with Some n => (k =? n)%nat | None => true end
  end.

(** The built-in functions that assert every one of their [k] arguments
    to be an [int]: the arithmetic ones at any count, those of [intOnly],
    and [floor] with two arguments. *)
Definition wantsInts (p : prim) (k : nat) : bool :=
  match p with
  | PAdd | PSub | PMul | PDiv => true
  | PFloor => (k =? 2)%nat
  | _ => intOnly p
  end.

(** The built-in functions with no type assertion on their arguments. *)
Definition anyKind (p : prim) : bool :=
  match p with
  | PCar | PCdr | PCons | PEq | PEqual | PAtom | PNull | PListp | PSymbolp
  | PStringp | PNumberp | PPrint | PList | PLambda | PElem => true
  | _ => false
  end.

(** An integer zero among the values. *)
Definition hasZero (args : list value) : bool :=
  existsb (fun a => match a with VInt 0 => true | _ => false end) args.

(** The names that [myEvalAtom] answers itself, in any casing. *)
Definition reserved `{GoLib} (s : string) : bool :=
  String.eqb (ToUpper s) "T" || String.eqb (ToUpper s) "NIL".

(** The scoping scenario: the world after [(setq x 1)] and
    [(defun f () x)]. *)
Definition scopingWorld : World :=
  store "f" (VList [VList []; VSym "x"]) (store "x" (VInt 1) emptyWorld).

(** The source text of a quoted empty list, ['()]. *)
Definition quotedEmpty : value := VList [VSym "quote"; VList []].

(** *** Vocabulary of the reader statements *)

(** The bytes that end a token in [tokenizeLoop]. *)
Definition delimiter (c : ascii) : bool :=
  Ascii.eqb c "(" || Ascii.eqb c ")" || Ascii.eqb c "'" || Ascii.eqb c " ".

Fixpoint allBytes (P : ascii -> bool) (s : string) : bool :=
  match s with
  | EmptyString => true
  | String c r => P c && allBytes P r
  end.

(** A non-empty run of bytes none of which is a delimiter. *)
Definition atomRun (s : string) : bool :=
  negb (String.eqb s EmptyString) && allBytes (fun c => negb (delimiter c)) s.

(** The input is at its end or continues with a delimiter. *)
Definition delimited (rest : string) : bool :=
  match rest with
  | EmptyString => true
  | String c _ => delimiter c
  end.

(** An ASCII byte that is not white space: [strings.TrimSpace] stops at it. *)
Definition plainByte (c : ascii) : bool :=
  negb (nonASCII c) && negb (asciiSpace c).

Definition firstByte (s : string) : option ascii :=
  match s with
  | EmptyString => None
  | String c _ => Some c
  end.

Definition plainStart (s : string) : bool :=
  match firstByte s with Some c => plainByte c | None => false end.

Definition plainEnd (s : string) : bool :=
  match lastByte s with Some c => plainByte c | None => false end.

Fixpoint spaces (n : nat) : string :=
  match n with
  | O => EmptyString
  | S k => String " " (spaces k)
  end.

(** What a token can be. *)
Definition tokenShape (t : string) : Prop :=
  t = "(" \/ t = ")" \/ t = "'" \/ atomRun t = true.

(** The bytes of a decimal integer: digits and the minus sign. *)
Definition isDigit (c : ascii) : bool :=
  match digitOf c with Some _ => true | None => false end.

Definition isIntByte (c : ascii) : bool :=
  isDigit c || Ascii.eqb c "-".

(** The text of a symbol in canonical input: an atom run that begins and
    ends with a plain byte and that [Atoi] rejects. *)
Definition symbolText (s : string) : bool :=
  atomRun s && plainStart s && plainEnd s
  && match Atoi s with Some _ => false | None => true end.

(** Values every symbol of which, nested ones included, has such a text;
    integers in range, and lists of such. *)
Fixpoint literal (v : value) : bool :=
  match v with
  | VNil => false
  | VSym s => symbolText s
  | VInt n => inRange n
  | VList l => forallb literal l
  end.

(** The canonical text of a value: atoms as written, integers in decimal,
    list elements separated by one space. *)
Fixpoint unparse (v : value) : string :=
  match v with
  | VNil => "NIL"
  | VSym s => s
  | VInt n => formatInt n
  | VList l => "(" +:+ Join (map unparse l) " " +:+ ")"
  end.

(** The text of an atom that reads as a symbol: an atom run that [Atoi]
    rejects.  Its bytes are any but the four delimiters. *)
Definition atomText (s : string) : bool :=
  atomRun s && match Atoi s with Some _ => false | None => true end.

(** The values that a text denotes: symbols whose name is the text of an
    atom, integers in range, and lists of such. *)
Fixpoint denotable (v : value) : bool :=
  match v with
  | VNil => false
  | VSym s => atomText s
  | VInt n => inRange n
  | VList l => forallb denotable l
  end.

(** Canonical text is [unparse v] for a denotable [v], beginning and
    ending with a plain byte: [strings.TrimSpace] in [tokenize] looks at
    the two ends of the whole input only.  The text of a list or of an
    integer always begins and ends so. *)
Definition canonical (v : value) : bool :=
  denotable v && plainStart (unparse v) && plainEnd (unparse v).

(** T and NIL in any casing replaced by their upper-case spelling. *)
Fixpoint canon `{GoLib} (v : value) : value :=
  match v with
  | VSym s =>
      if isSymbol (VSym s) "T" then VSym "T"
      else if isSymbol (VSym s) "NIL" then VSym "NIL"
      else VSym s
  | VList l => VList (map canon l)
  | _ => v
  end.

(** The tokens of the canonical text of a value. *)
Fixpoint tokensOf (v : value) : list string :=
  match v with
  | VNil => ["NIL"]
  | VSym s => [s]
  | VInt n => [formatInt n]
  | VList l => "(" :: concat (map tokensOf l) ++ [")"]
  end.

(** ** The rest of the code *)

(** [appendHelp]: the recursive append of two slices (defined in the
    source, called nowhere). *)
Fixpoint appendHelp (x y : list value) : list value :=
  match x with
  | [] => y
  | x0 :: rest => x0 :: appendHelp rest y
  end.

(** The outcome of one test body of [TestLispFunctions]: the printed
    result, a [panic] (of the reader or of the evaluator), or no fuel. *)
Inductive testResult : Type :=
| Printed (s : string)
| Panicked (msg : string)
| Starved.

(** [toLispString(myEval(readSExpression(input), globalAlist))], the body
    of a test case. *)
Definition evalToString `{GoLib} (fuel : nat) (input : string) (w : World)
  : testResult * World :=
  match readSExpression input with
  | Parsed expr _ =>
      match myEval fuel expr Global w with
      | (Val val, w') => (Printed (toLispString val), w')
      | (Panic _ msg, w') => (Panicked msg, w')
      | (OutOfFuel, w') => (Starved, w')
      end
  | ParseFail _ msg => (Panicked msg, w)
  | ParseFuel => (Starved, w)
  end.

(** [evalAndIgnoreError]: evaluate a definition; a [panic] is recovered
    and reported with [fmt.Printf].  [None] when the fuel runs out. *)
Definition evalAndIgnoreError `{GoLib} (fuel : nat) (expr : string) (w : World)
  : option World :=
  match evalToString fuel expr w with
  | (Printed _, w') => Some w'
  | (Panicked msg, w') =>
      Some (mkWorld (globalAlist w')
              (stdout w' ++ ["Error defining function with " +:+ expr
                             +:+ ": " +:+ msg]))
  | (Starved, _) => None
  end.

(** The definitions that [TestLispFunctions] evaluates first. *)
Definition testDefinitions : list string :=
  [ "(defun rev (L R) (cond ((null L) R) (t (rev (cdr L) (cons (car L) R)))))";
    "(defun my-append (L1 L2) (cond ((null L1) L2) (t (cons (car L1) (my-append (cdr L1) L2)))))";
    "(defun my-attach (X Y) (my-append Y (cons X nil)))";
    "(defun my-length (l) (cond ((null l) 0) (t (1+ (my-length (cdr l))))))";
    "(defun my-memq (a l) (cond ((null l) nil) ((eq a (car l)) l) (t (my-memq a (cdr l)))))";
    "(defun my-mapcar (f l) (cond ((null l) nil) (t (cons (apply f (list (car l))) (my-mapcar f (cdr l))))))";
    "(defun my-copy (l) (cond ((null l) nil) ((atom l) l) (t (cons (my-copy (car l)) (my-copy (cdr l))))))";
    "(defun my-nth (l n) (cond ((or (null l) (< n 0)) nil) ((= n 0) l)(t (my-nth (cdr l) (1- n)))))";
    "(defun my-remove (x l) (cond ((null l) nil) ((equal x (car l)) (my-remove x (cdr l))) (t (cons (car l) (my-remove x (cdr l))))))";
    "(defun my-subset (fn l) (cond ((null l) nil) ((apply fn (list (car l))) (cons (car l) (my-subset fn (cdr l)))) (t (my-subset fn (cdr l)))))";
    "(defun my-add (n1 n2) (cond ((and (null n1) (null n2)) nil) ((null n1) n2) ((null n2) n1) (t (let* ((sum (+ (car n1) (car n2))) (digit (mod sum 10)) (carry (floor sum 10))) (if (or (cdr n1) (cdr n2) (not (zerop carry))) (cons digit (my-add (my-add (cdr n1) (cdr n2)) (list carry))) (cons digit nil))))))";
    "(defun my-merge (l1 l2) (cond ((null l1) l2) ((null l2) l1) ((< (car l1) (car l2)) (cons (car l1) (my-merge (cdr l1) l2))) (t (cons (car l2) (my-merge l1 (cdr l2))))))";
    "(defun starts-with (l1 l2) (cond ((null l1) t) ((null l2) nil) ((equal (car l1) (car l2)) (starts-with (cdr l1) (cdr l2))) (t nil)))";
    "(defun my-sublist (l1 l2) (cond ((null l2) nil) ((starts-with l1 l2) t) (t (my-sublist l1 (cdr l2)))))";
    "(defun my-assoc (a alist) (cond ((null alist) nil) ((eq a (car (car alist))) (car alist)) (t (my-assoc a (cdr alist)))))" ].

(** The table [tests] of [TestLispFunctions]: input and expected output
    (the descriptions are left out). *)
Definition testCases : list (string * string) :=
  [ ("T", "T"); ("NIL", "NIL"); ("Hello", "Hello"); ("10", "10");
    ("'(A B C)", "(A B C)");
    ("(eq t t)", "T"); ("(eq nil nil)", "T"); ("(eq t nil)", "NIL");
    ("(null nil)", "T"); ("(eq 'a 'a)", "T");
    ("(eq '(a b) '(a b))", "NIL"); ("(car '(a b c))", "a");
    ("(cdr '(a b c))", "(b c)"); ("(cons 'd '(a b c))", "(d a b c)");
    ("(setq a '(a b c))", "(a b c)");
    ("(rev '(A B C D E) nil)", "(E D C B A)"); ("(rev a nil)", "(c b a)");
    ("(my-append '((a) (b) (c)) '((d) (e) (f)))", "((a) (b) (c) (d) (e) (f))");
    ("(my-append nil '(d e f))", "(d e f)");
    ("(my-attach 'd '(a b c))", "(a b c d)");
    ("(my-attach '(a) '(b c))", "(b c (a))");
    ("(cond (nil 1)(t 2)(t 3))", "2"); ("(cond (nil 1)(t 2)(t 3))", "2");
    (EmptyString, "(A B C A B C A B C A B C)");
    ("(my-length nil)", "0"); ("(my-length '(a b c))", "3");
    ("(my-length '(B (A B C)))", "2"); ("(my-length '(A (((B))) C))", "3");
    ("(my-memq 'A nil)", "NIL"); ("(my-memq 'B '(A B C))", "(B C)");
    ("(my-memq 'D '(A B C D E F G))", "(D E F G)");
    ("(my-memq 'D '(A B C D))", "(D)"); ("(my-memq 'D '(A B C))", "NIL");
    ("(my-mapcar 'car '((A B C) (X Y Z) (1 2 3)))", "(A X 1)");
    ("(my-mapcar 'cdr '((A B C) (X Y Z) (1 2 3)))", "((B C) (Y Z) (2 3))");
    ("(my-mapcar '1+ '(1 3 5 7))", "(2 4 6 8)");
    ("(my-mapcar 'atom '(A (B) C (D) E))", "(T NIL T NIL T)");
    ("(my-copy '(A B ((C 1)) 2 3))", "(A B ((C 1)) 2 3)");
    ("(my-copy '(1 2 3))", "(1 2 3)");
    ("(my-copy '(A B . C))", "(A B . C)");
    ("(eq (setq l '(A (B) C)) (my-copy l))", "NIL");
    ("(my-nth '(A B C D E) 1)", "(B C D E)");
    ("(my-nth '(A B C D E) 3)", "(D E)");
    ("(my-nth '(A B C D E) 30)", "NIL");
    ("(my-nth '(A B C D E) 0)", "(A B C D E)");
    ("(my-remove '(A B) '(A B (A B) A A B (A B)))", "(A B A A B)");
    ("(my-remove 'A '(A B (A B) A B))", "(B (A B) B)");
    ("(my-subset 'atom '(A (B) (C D) E F G))", "(A E F G)");
    ("(my-subset 'listp '(A (B) (C D) E F G))", "((B) (C D))");
    ("(my-add '(0) '(0))", "(0)"); ("(my-add '(1) '(1))", "(2)");
    ("(my-add '(9) '(9))", "(8 1)");
    ("(my-add '(1 1 1 1 1 1 1 1 1 1) '(9 9 9 9 9 9 9 9 9 9))",
     "(0 1 1 1 1 1 1 1 1 1 1)");
    ("(my-add '(1) '(9 9 9 9 9 9 9 9 9 9))", "(0 0 0 0 0 0 0 0 0 0 1)");
    ("(my-merge '(1 3 5 7 9) '(2 4 6 8 10))", "(1 2 3 4 5 6 7 8 9 10)");
    ("(my-merge '(1 2 3 7 8 9) '(4 5 6 10))", "(1 2 3 4 5 6 7 8 9 10)");
    ("(my-merge '(1 2 3) '(4 5 6 7 8 9 10))", "(1 2 3 4 5 6 7 8 9 10)");
    ("(my-merge '(1 3 5 6 7 8 9 10) '(2 4))", "(1 2 3 4 5 6 7 8 9 10)");
    ("(my-merge NIL '(1 2 3 4 5 6 7 8 9 10))", "(1 2 3 4 5 6 7 8 9 10)");
    ("(my-sublist '(1 2 3) '(1 2 3 4 5))", "T");
    ("(my-sublist '(3 4 5) '(1 2 3 4 5))", "T");
    ("(my-sublist '(C D) '(A B C D E))", "T");
    ("(my-sublist '(3 4) '(1 2 3 5 6))", "NIL");
    ("(my-sublist '(1 2 3 4 5) '(3 4 5))", "NIL");
    ("(my-sublist '(2 4) '(1 2 3 4 5))", "NIL");
    ("(my-sublist '(1 3 5) '(1 2 3 4 5))", "NIL");
    ("(my-assoc 'a nil)", "NIL");
    ("(my-assoc 'a '((a . b) (c e f) (b)))", "(a . b)");
    ("(my-assoc 'c '((a . b) (c e f) (b)))", "(c e f)");
    ("(my-assoc 'b '((a . b) (c e f) (b)))", "(b)");
    ("(my-assoc 'f '((a . b) (c e f) (b)))", "NIL") ].

(** The list printed by the test case whose input is empty. *)
Definition hiddenFunctionList : value :=
  VList (map VSym ["A"; "B"; "C"; "A"; "B"; "C"; "A"; "B"; "C"; "A"; "B"; "C"]).

Section TestRun.
Context `{GoLib}.

(** The definitions, in order; a failing one is reported and skipped. *)
Fixpoint runDefinitions (fuel : nat) (defs : list string) (w : World)
  : option World :=
  match defs with
  | [] => Some w
  | d :: rest =>
      match evalAndIgnoreError fuel d w with
      | Some w' => runDefinitions fuel rest w'
      | None => None
      end
  end.

(** One test case: [result != tc.expected] reports an error. *)
Definition runCase (fuel : nat) (tc : string * string) (w : World)
  : option (bool * World) :=
  match tc.1 with
  | EmptyString => Some (String.eqb (toLispString hiddenFunctionList) tc.2, w)
  | input =>
      match evalToString fuel input w with
      | (Printed result, w') => Some (String.eqb result tc.2, w')
      | (Panicked _, w') => Some (false, w')
      | (Starved, _) => None
      end
  end.

Fixpoint runCases (fuel : nat) (tcs : list (string * string)) (w : World)
  : option (list bool) :=
  match tcs with
  | [] => Some []
  | tc :: rest =>
      match runCase fuel tc w with
      | Some (ok, w') =>
          match runCases fuel rest w' with
          | Some oks => Some (ok :: oks)
          | None => None
          end
      | None => None
      end
  end.

(** [TestLispFunctions]: reset the global map, evaluate the definitions,
    run the cases; one flag per case. *)
Definition TestLispFunctions (fuel : nat) (w : World) : option (list bool) :=
  match runDefinitions fuel testDefinitions (mkWorld ∅ (stdout w)) with
  | Some w' => runCases fuel testCases w'
  | None => None
  end.

End TestRun.

(** *** Vocabulary of the further statements *)

(** Element-wise [equalp] of two slices, as the loop of [equalp] does it. *)
Fixpoint eachEqual `{GoLib} (xs ys : list value) : bool :=
  match xs, ys with
  | a :: xs', b :: ys' => if equalp a b then eachEqual xs' ys' else false
  | _, _ => true
  end.

Definition sumZ (zs : list Z) : Z := fold_right Z.add 0 zs.
Definition prodZ (zs : list Z) : Z := fold_right Z.mul 1 zs.

(** The world only grows: no global binding disappears and nothing
    printed is taken back. *)
Definition grows (w w' : World) : Prop :=
  dom (globalAlist w) ⊆ dom (globalAlist w')
  /\ stdout w `prefix_of` stdout w'.

(** An [M] computation under which the world only grows. *)
Definition growing {A} (m : M A) : Prop :=
  forall w r w', m w = (r, w') -> grows w w'.

(** The built-in functions that answer T or NIL. *)
Definition isPredicate (p : prim) : bool :=
  match p with
  | PEq | PEqual | PAtom | PNull | PListp | PSymbolp | PStringp | PNumberp
  | PLt | PGt | PNumEq | PZerop | PElem => true
  | _ => false
  end.

(** A value the reader cuts short: the nil that [parseSExpression]
    returns when no token is left, by itself or under the two-element
    [quote] lists the reader builds for the quotes before it. *)
Fixpoint cutShort (v : value) : bool :=
  match v with
  | VNil => true
  | VList [VSym q; e] => String.eqb q "quote" && cutShort e
  | _ => false
  end.

(** No token at all, or a quote as the last token. *)
Definition openEnded (tokens : list string) : bool :=
  match last tokens with
  | None => true
  | Some t => String.eqb t "'"
  end.

(** What the reader can produce: a denotable value (integers that fit
    [int], symbols that are atom tokens [Atoi] rejects, the [quote] it
    inserts being one, lists of such, and no nil anywhere), or a value cut
    short. *)
Definition wellRead (v : value) : bool := denotable v || cutShort v.

(** The input without its space bytes, and the tokens laid end to end. *)
Fixpoint dropSpaces (s : string) : string :=
  match s with
  | EmptyString => EmptyString
  | String c r => if Ascii.eqb c " " then dropSpaces r else String c (dropSpaces r)
  end.

Definition glue (tokens : list string) : string :=
  fold_right String.append EmptyString tokens.

(** The body of [my-length], the fourth definition of the test file:
    [(cond ((null l) 0) (t (1+ (my-length (cdr l)))))]. *)
Definition myLengthBody : value :=
  VList [VSym "cond";
         VList [VList [VSym "null"; VSym "l"]; VInt 0];
         VList [VSym "t";
                VList [VSym "1+";
                       VList [VSym "my-length";
                              VList [VSym "cdr"; VSym "l"]]]]].

(** What [(defun my-length (l) ...)] stores under [my-length]. *)
Definition myLengthDef : value :=
  VList [VList [VSym "l"]; myLengthBody].

(** A list as [cdr] hands it on: nil when no element is left. *)
Definition listOrNil (vs : list value) : value :=
  match vs with
  | [] => VNil
  | _ => VList vs
  end.

(** * Properties *)

(** ** Fuel: more fuel never changes a result *)

Section FuelMonotone.
Context `{GoLib}.

Lemma refines_refl {A} (m : M A) : refines m m.
Proof. intros w r w' Hm _. exact Hm. Qed.

Lemma refines_bind {A B} (m m' : M A) (f f' : A -> M B) :
  refines m m' -> (forall a, refines (f a) (f' a)) ->
  refines (bind m f) (bind m' f').
Proof.
  intros Hm Hf w r w' Hrun Hr. unfold bind in *.
  destruct (m w) as [[a|k msg|] w1] eqn:Em.
  - rewrite (Hm w (Val a) w1 Em) by discriminate. now apply Hf.
  - rewrite (Hm w (Panic k msg) w1 Em) by discriminate. exact Hrun.
  - injection Hrun as <- <-. congruence.
Qed.

Section OneLayer.
Variables ev ev' : value -> env -> M value.
Hypothesis Hev : forall e alist, refines (ev e alist) (ev' e alist).

Local Ltac step :=
  first [ apply refines_refl
        | apply Hev
        | apply refines_bind; [|intros ?] ].

Lemma myEvalListF_mono (exprs : list value) (alist : env) :
  refines (myEvalListF ev exprs alist) (myEvalListF ev' exprs alist).
Proof.
  induction exprs as [|e rest IH]; [apply refines_refl|].
  destruct rest as [|e' rest]; [apply Hev|].
  change (refines (bind (ev e alist) (fun _ => myEvalListF ev (e' :: rest) alist))
            (bind (ev' e alist) (fun _ => myEvalListF ev' (e' :: rest) alist))).
  apply refines_bind; [apply Hev | intros _; exact IH].
Qed.

Lemma myApplyLambdaF_mono (fnBody args : list value) (alist : env) :
  refines (myApplyLambdaF ev fnBody args alist)
    (myApplyLambdaF ev' fnBody args alist).
Proof.
  destruct fnBody as [|f [|b body]]; try apply refines_refl.
  destruct f; try apply refines_refl. unfold myApplyLambdaF.
  repeat step. apply myEvalListF_mono.
Qed.

Lemma myEvalCondF_mono (clauses : list value) (alist : env) :
  refines (myEvalCondF ev clauses alist) (myEvalCondF ev' clauses alist).
Proof.
  induction clauses as [|c rest IH]; [apply refines_refl|].
  destruct c as [| | |[|c0 body]]; try apply refines_refl. simpl.
  apply refines_bind; [apply Hev|]. intros condition.
  destruct (negb (isNil condition)); [apply myEvalListF_mono | exact IH].
Qed.

Lemma evalIfF_mono (args : list value) (alist : env) :
  refines (evalIfF ev args alist) (evalIfF ev' args alist).
Proof.
  destruct args as [|c [|th [|el [|x rest]]]]; try apply refines_refl; simpl;
    (apply refines_bind; [apply Hev|]); intros condition;
    destruct (negb (isNil condition)); repeat step.
Qed.

Lemma evalArgsF_mono (args : list value) (alist : env) :
  refines (evalArgsF ev args alist) (evalArgsF ev' args alist).
Proof.
  induction args as [|a rest IH]; [apply refines_refl|]. simpl.
  apply refines_bind; [apply Hev|]. intros v.
  apply refines_bind; [exact IH|]. intros vs. apply refines_refl.
Qed.

Lemma andLoopF_mono (args : list value) (alist : env) :
  refines (andLoopF ev args alist) (andLoopF ev' args alist).
Proof.
  induction args as [|a rest IH]; [apply refines_refl|]. simpl.
  apply refines_bind; [apply Hev|]. intros val.
  destruct (isNil val); [apply refines_refl | exact IH].
Qed.

Lemma orLoopF_mono (args : list value) (alist : env) :
  refines (orLoopF ev args alist) (orLoopF ev' args alist).
Proof.
  induction args as [|a rest IH]; [apply refines_refl|]. simpl.
  apply refines_bind; [apply Hev|]. intros val.
  destruct (negb (isNil val)); [apply refines_refl | exact IH].
Qed.

Lemma letStarLoopF_mono (bindings : list value) (localAlist : Alist) :
  refines (letStarLoopF ev bindings localAlist)
    (letStarLoopF ev' bindings localAlist).
Proof.
  revert localAlist.
  induction bindings as [|b rest IH]; intros localAlist; [apply refines_refl|].
  destruct b as [| | |[|p0 [|p1 [|x more]]]]; try apply refines_refl.
  destruct p0; try apply refines_refl. simpl.
  apply refines_bind; [apply Hev|]. intros val. apply IH.
Qed.

Lemma letLoopF_mono (bindings : list value) (alist : env) :
  refines (letLoopF ev bindings alist) (letLoopF ev' bindings alist).
Proof.
  induction bindings as [|b rest IH]; [apply refines_refl|].
  destruct b as [| | |[|p0 [|p1 [|x more]]]]; try apply refines_refl.
  destruct p0; try apply refines_refl. simpl.
  apply refines_bind; [apply Hev|]. intros val.
  apply refines_bind; [exact IH|]. intros more. apply refines_refl.
Qed.

Lemma myApplyAtomF_mono (fnSym : string) (args : list value) (alist : env)
  (fe : bool) :
  refines (myApplyAtomF ev fnSym args alist fe)
    (myApplyAtomF ev' fnSym args alist fe).
Proof.
  unfold myApplyAtomF. destruct (primOf (ToUpper fnSym)) as [p|].
  - destruct p; try apply refines_refl. apply evalIfF_mono.
  - intros w r w' Hrun Hr.
    destruct (globalAlist w !! fnSym) as [[| | |lambdaBody]|]; try exact Hrun.
    now apply (myApplyLambdaF_mono lambdaBody args Global).
Qed.

Lemma myApplyF_mono (fnSym : string) (args : list value) (alist : env) :
  refines (myApplyF ev fnSym args alist) (myApplyF ev' fnSym args alist).
Proof.
  unfold myApplyF. destruct (formOf (ToUpper fnSym)) as [f|].
  - destruct f.
    + apply refines_refl.
    + apply myEvalCondF_mono.
    + apply refines_refl.
    + destruct args as [|a0 [|a1 [|x rest]]]; try apply refines_refl.
      destruct a0; try apply refines_refl. unfold myEvalSetqF. repeat step.
    + destruct args as [|a [|x rest]]; try apply refines_refl. repeat step.
    + destruct args as [|a0 [|a1 [|x rest]]]; try apply refines_refl.
      apply refines_bind; [apply Hev|]. intros fnVal.
      destruct fnVal; try apply refines_refl.
      apply refines_bind; [apply Hev|]. intros argVal.
      apply myApplyAtomF_mono.
    + apply andLoopF_mono.
    + apply orLoopF_mono.
    + destruct args as [|a [|x rest]]; try apply refines_refl. repeat step.
    + destruct args as [|a0 [|b body]]; try apply refines_refl.
      destruct a0; try apply refines_refl.
      apply refines_bind; [apply refines_refl|]. intros inherited.
      apply refines_bind; [apply letStarLoopF_mono|]. intros localAlist.
      apply myEvalListF_mono.
    + apply evalIfF_mono.
    + destruct args as [|a0 [|b body]]; try apply refines_refl.
      destruct a0; try apply refines_refl.
      apply refines_bind; [apply refines_refl|]. intros inherited.
      apply refines_bind; [apply letLoopF_mono|]. intros pairs.
      apply myEvalListF_mono.
  - apply refines_bind; [apply evalArgsF_mono|]. intros evaledArgs.
    apply myApplyAtomF_mono.
Qed.

Lemma myEvalF_mono (expr : value) (alist : env) :
  refines (myEvalF ev expr alist) (myEvalF ev' expr alist).
Proof.
  destruct expr as [| | |[|h t]]; try apply refines_refl.
  destruct h; try apply refines_refl. apply myApplyF_mono.
Qed.

End OneLayer.

Lemma myEval_fuel_succ (n : nat) (expr : value) (alist : env) :
  refines (myEval n expr alist) (myEval (S n) expr alist).
Proof.
  revert expr alist. induction n as [|n IH]; intros expr alist.
  - intros w r w' Hrun Hr. injection Hrun as <- <-. congruence.
  - apply myEvalF_mono. exact IH.
Qed.

(** A result obtained with some fuel is the result with any larger fuel. *)
Lemma myEval_fuel_mono (n m : nat) (expr : value) (alist : env)
  (w w' : World) (r : outcome value) :
  (n <= m)%nat -> myEval n expr alist w = (r, w') -> r <> OutOfFuel ->
  myEval m expr alist w = (r, w').
Proof.
  intros Hle Hrun Hr. induction Hle as [|m Hle IH]; [exact Hrun|].
  now apply myEval_fuel_succ.
Qed.

End FuelMonotone.

(** ** Evaluation of lists: operator position *)

Section OperatorPosition.
Context `{GoLib}.

Lemma myEval_unfold (n : nat) (expr : value) (alist : env) :
  myEval (S n) expr alist = myEvalF (myEval n) expr alist.
Proof. reflexivity. Qed.

(** C4 (as the code has it): evaluating a non-empty list whose head is not
    a symbol (an integer, nil, or a list, the empty list included) panics
    with InvalidOperator and leaves the world untouched, whereas
    evaluating the empty list itself does not fail: it yields Nil. *)
Theorem C4_invalid_operator (n : nat) (h : value) (t : list value)
  (alist : env) (w : World) :
  isString h = false ->
  myEval (S n) (VList (h :: t)) alist w
    = (Panic InvalidOperator "Invalid function: must be a symbol", w)
  /\ myEval (S n) (VList []) alist w = (Val VNil, w).
Proof.
  intros Hh. split; [|reflexivity].
  rewrite myEval_unfold. destruct h; simpl in Hh; try discriminate; reflexivity.
Qed.

End OperatorPosition.

(** [(() 1)]: the empty list in operator position is not a symbol. *)
Lemma C4_invalid_operator_witness :
  isString (VList []) = false
  /\ myEval (H := asciiLib) 1 (VList [VList []; VInt 1]) Global emptyWorld
     = (Panic InvalidOperator "Invalid function: must be a symbol", emptyWorld).
Proof.
  split; [reflexivity|].
  apply (C4_invalid_operator (H := asciiLib) 0 (VList []) [VInt 1] Global emptyWorld).
  reflexivity.
Defined.

(** C4, refuted as stated: the empty list in the position of a form to
    evaluate is not an InvalidOperator failure. *)
Lemma C4_counterexample :
  ~ failsWith InvalidOperator
      (myEval (H := asciiLib) 1 (VList []) Global emptyWorld).
Proof. intros [msg Hmsg]. discriminate Hmsg. Qed.

(** ** [lambda] *)

(** C3 (the code at the failing inputs): [lambda] is a case of
    [myApplyAtom], reached through the default case of [myApply], which
    evaluates every operand first.  So [(lambda (x) x)] evaluates [(x)] as a
    call of the undefined function [x] and panics, and [(lambda () (+ 1 2))]
    returns the evaluated operands [(NIL 3)], not [(() (+ 1 2))].
    [myApplyAtom] itself returns the arguments it is handed as they are. *)
Theorem C3_lambda_operands_are_evaluated :
  myEval (H := asciiLib) 3
    (VList [VSym "lambda"; VList [VSym "x"]; VSym "x"]) Global emptyWorld
    = (Panic UnknownFunction "Unknown function: x", emptyWorld)
  /\ myEval (H := asciiLib) 3
       (VList [VSym "lambda"; VList []; VList [VSym "+"; VInt 1; VInt 2]])
       Global emptyWorld
     = (Val (VList [VNil; VInt 3]), emptyWorld)
  /\ forall (n : nat) (args : list value) (alist : env) (fe : bool) (w : World),
       myApplyAtom (H := asciiLib) n "lambda" args alist fe w
       = (Val (VList args), w).
Proof. repeat split. Qed.

(** ** The empty list read from [()] *)

Section EmptyList.
Context `{GoLib}.

Lemma isNil_empty_list : isNil (VList []) = false.
Proof. reflexivity. Qed.

Lemma myEval_quotedEmpty (n : nat) (alist : env) (w : World) :
  myEval (S n) quotedEmpty alist w = (Val (VList []), w).
Proof. reflexivity. Qed.

(** C9: reading [()] gives the empty slice, which is not the nil
    interface; [isNil] is false on it, so [null] answers NIL, [if] and
    [cond] take the branch of a true condition, [and] and [or] answer T;
    and it prints as [()] while nil prints as [NIL]. *)
Theorem C9_empty_list_is_not_nil :
  readSExpression "()" = Parsed (VList []) []
  /\ VList [] <> VNil
  /\ isNil (VList []) = false
  /\ (forall n alist fe w,
        myApplyAtom n "null" [VList []] alist fe w = (Val VNil, w))
  /\ (forall n alist w,
        myEval (S (S n)) (VList [VSym "null"; quotedEmpty]) alist w
        = (Val VNil, w))
  /\ (forall n a b alist w,
        myEval (S (S n)) (VList [VSym "if"; quotedEmpty; a; b]) alist w
        = myEval (S n) a alist w)
  /\ (forall n body alist w,
        myEval (S (S n)) (VList [VSym "cond"; VList (quotedEmpty :: body)])
          alist w
        = myEvalList (S n) body alist w)
  /\ (forall n alist w,
        myEval (S (S n)) (VList [VSym "and"; quotedEmpty]) alist w
        = (Val (VSym "T"), w))
  /\ (forall n alist w,
        myEval (S (S n)) (VList [VSym "or"; quotedEmpty]) alist w
        = (Val (VSym "T"), w))
  /\ toLispString (VList []) = "()"
  /\ toLispString VNil = "NIL".
Proof.
  repeat split; try reflexivity; discriminate.
Qed.

End EmptyList.
(** ** The [apply] form *)

Section ApplyForm.
Context `{GoLib}.

Lemma myApply_apply (n : nat) (fnSym : string) (f a : value) (alist : env)
  (w w1 w2 : World) (fnName : string) (v : value) :
  formOf (ToUpper fnSym) = Some FApply ->
  myEval n f alist w = (Val (VSym fnName), w1) ->
  myEval n a alist w1 = (Val v, w2) ->
  myApply n fnSym [f; a] alist w
  = myApplyAtom n fnName (toList v) alist false w2.
Proof.
  intros Hform Hf Ha. unfold myApply, myApplyF. rewrite Hform.
  unfold bind. rewrite Hf, Ha. reflexivity.
Qed.

(** C10: in [(apply f a)], once [f] has evaluated to a symbol and [a] to a
    value [v], the function is applied to [[v]] when [v] is neither nil nor
    a list, and to no argument at all when [v] is nil; no type error is
    raised for the shape of [v]. *)
Theorem C10_apply_wraps_its_operand (n : nat) (fnSym : string) (f a : value)
  (alist : env) (w w1 w2 : World) (fnName : string) (v : value) :
  formOf (ToUpper fnSym) = Some FApply ->
  myEval n f alist w = (Val (VSym fnName), w1) ->
  myEval n a alist w1 = (Val v, w2) ->
  (v <> VNil -> isSlice v = false ->
   myApply n fnSym [f; a] alist w = myApplyAtom n fnName [v] alist false w2)
  /\ (v = VNil ->
      myApply n fnSym [f; a] alist w = myApplyAtom n fnName [] alist false w2).
Proof.
  intros Hform Hf Ha. rewrite (myApply_apply _ _ _ _ _ _ _ _ _ _ Hform Hf Ha).
  split.
  - intros Hnil Hslice. destruct v; simpl in *; congruence.
  - intros ->. reflexivity.
Qed.

End ApplyForm.

(** [(apply '+ 5)] is 5, and [(apply 'list nil)] is the empty list. *)
Lemma C10_apply_wraps_its_operand_witness :
  myApply (H := asciiLib) 1 "apply"
    [VList [VSym "quote"; VSym "+"]; VInt 5] Global emptyWorld
  = (Val (VInt 5), emptyWorld)
  /\ myApply (H := asciiLib) 1 "apply"
       [VList [VSym "quote"; VSym "list"]; VSym "nil"] Global emptyWorld
     = (Val (VList []), emptyWorld).
Proof.
  split.
  - pose proof (C10_apply_wraps_its_operand (H := asciiLib) 1 "apply"
      (VList [VSym "quote"; VSym "+"]) (VInt 5) Global
      emptyWorld emptyWorld emptyWorld "+" (VInt 5)
      eq_refl eq_refl eq_refl) as [Hwrap _].
    rewrite Hwrap; [reflexivity | discriminate | reflexivity].
  - pose proof (C10_apply_wraps_its_operand (H := asciiLib) 1 "apply"
      (VList [VSym "quote"; VSym "list"]) (VSym "nil") Global
      emptyWorld emptyWorld emptyWorld "list" VNil
      eq_refl eq_refl eq_refl) as [_ Hnil].
    rewrite Hnil; reflexivity.
Defined.

(** ** Argument checks of the built-in functions *)

Section Primitives.
Context `{GoLib}.

Lemma myApplyAtom_pure (n : nat) (fnSym : string) (p : prim)
  (args : list value) (alist : env) (fe : bool) (w : World) :
  primOf (ToUpper fnSym) = Some p -> p <> PPrint -> p <> PIf ->
  myApplyAtom n fnSym args alist fe w = (applyPure p args, w).
Proof.
  intros Hp Hprint Hif. unfold myApplyAtom, myApplyAtomF. rewrite Hp.
  destruct p; try reflexivity; congruence.
Qed.

Lemma prim_eq_print (p : prim) : p = PPrint \/ p <> PPrint.
Proof. destruct p; (now left) || (right; discriminate). Qed.

Lemma prim_eq_if (p : prim) : p = PIf \/ p <> PIf.
Proof. destruct p; (now left) || (right; discriminate). Qed.

Lemma foldInts_type_error (typ : string) (op : Z -> Z -> Z)
  (args : list value) (acc : Z) :
  existsb (fun a => negb (isInt a)) args = true ->
  foldInts typ op args acc = Panic TypeError typ.
Proof.
  revert acc. induction args as [|a rest IH]; intros acc Hex; [discriminate|].
  simpl in Hex. destruct a; simpl in *; try reflexivity. now apply IH.
Qed.

Lemma divLoop_type_error (args : list value) (result : Z) :
  existsb (fun a => negb (isInt a)) args = true ->
  hasZero args = false ->
  divLoop args result = Panic TypeError "/ expects integers".
Proof.
  revert result. induction args as [|a rest IH]; intros result Hex Hz;
    [discriminate|].
  destruct a as [|s|z|l]; try reflexivity.
  simpl in Hex, Hz. simpl. destruct z; try discriminate; now apply IH.
Qed.

Lemma divLoop_fails (args : list value) (result : Z) :
  existsb (fun a => negb (isInt a)) args = true ->
  divLoop args result = Panic TypeError "/ expects integers"
  \/ divLoop args result = Panic DivisionByZero "division by zero".
Proof.
  revert result. induction args as [|a rest IH]; intros result Hex;
    [discriminate|].
  destruct a as [|s|z|l]; try (now left).
  simpl in Hex. simpl. destruct (z =? 0); [now right | now apply IH].
Qed.

Local Ltac by_cases_on_args args :=
  destruct args as [|[] [|[] [|[] ?]]]; simpl in *;
  try discriminate; try congruence; try (eexists; reflexivity).

(** C5 (as the code has it).  Argument counts: every built-in function
    fails with ArityError on a count it does not accept, which is any count
    but one for [car cdr atom null listp symbolp stringp numberp print 1+ 1-
    zerop], any but two for [cons eq equal < > = mod elem], none for [-],
    fewer than two for [/], any but one or two for [floor], any but two or
    three for [if]; [+ * list lambda] accept every count.  Operand kinds:
    the functions that want Integers ([+ - * /] at any accepted count, [< >
    = mod 1+ 1- zerop] and two-operand [floor] at theirs) fail with
    TypeError when an operand is not an Integer, [/] doing so when no
    divisor is the Integer 0 and failing with TypeError or DivisionByZero
    otherwise; one-operand [floor] fails with TypeError on Nil, on a list
    and on a Symbol that is not a float literal.  The other functions do
    not check the kind of their operands and never fail with TypeError:
    [car] and [cdr] return Nil for anything that is not a list, and [elem]
    returns Nil when its second operand is not a list. *)
Theorem C5_primitive_argument_checks (n : nat) (fnSym : string) (p : prim)
  (args : list value) (alist : env) (fe : bool) (w : World) :
  primOf (ToUpper fnSym) = Some p ->
  (forall v, p = PCar \/ p = PCdr -> isSlice v = false ->
     myApplyAtom n fnSym [v] alist fe w = (Val VNil, w))
  /\ (forall k, fixedArity p = Some k -> length args <> k ->
        failsWith ArityError (myApplyAtom n fnSym args alist fe w))
  /\ (intOnly p = true -> fixedArity p = Some (length args) ->
      existsb (fun a => negb (isInt a)) args = true ->
        failsWith TypeError (myApplyAtom n fnSym args alist fe w))
  /\ (p = PAdd \/ p = PMul ->
      existsb (fun a => negb (isInt a)) args = true ->
        failsWith TypeError (myApplyAtom n fnSym args alist fe w))
  /\ (arityOk p (length args) = false ->
        failsWith ArityError (myApplyAtom n fnSym args alist fe w))
  /\ (wantsInts p (length args) = true -> arityOk p (length args) = true ->
      existsb (fun a => negb (isInt a)) args = true ->
      (p = PDiv -> hasZero (tl args) = false) ->
        failsWith TypeError (myApplyAtom n fnSym args alist fe w))
  /\ (p = PDiv -> arityOk p (length args) = true ->
      existsb (fun a => negb (isInt a)) args = true ->
        failsWith TypeError (myApplyAtom n fnSym args alist fe w)
        \/ failsWith DivisionByZero (myApplyAtom n fnSym args alist fe w))
  /\ (forall v, p = PFloor ->
        match v with
        | VInt _ => False
        | VSym s => floorOfFloatString s = None
        | _ => True
        end ->
        failsWith TypeError (myApplyAtom n fnSym [v] alist fe w))
  /\ (forall item l, p = PElem -> isSlice l = false ->
        myApplyAtom n fnSym [item; l] alist fe w = (Val VNil, w))
  /\ (anyKind p = true ->
        ~ failsWith TypeError (myApplyAtom n fnSym args alist fe w)).
Proof.
  intros Hp.
  assert (Hprint : forall xs, p = PPrint ->
            myApplyAtom n fnSym xs alist fe w
            = match xs with
              | [a] => (Val a, mkWorld (globalAlist w)
                                 (stdout w ++ [toLispString a]))
              | _ => (Panic ArityError "print expects 1 argument", w)
              end).
  { intros xs ->. unfold myApplyAtom, myApplyAtomF. rewrite Hp.
    destruct xs as [|a [|b xs]]; reflexivity. }
  assert (Hpure : p <> PPrint -> p <> PIf ->
            myApplyAtom n fnSym args alist fe w = (applyPure p args, w))
    by apply (myApplyAtom_pure _ _ _ _ _ _ _ Hp).
  split; [|split; [|split; [|split; [|split; [|split; [|split;
    [|split; [|split]]]]]]]].
  - intros v [-> | ->] Hv;
      (rewrite (myApplyAtom_pure _ _ _ _ _ _ _ Hp) by discriminate);
      destruct v; simpl in *; try discriminate; reflexivity.
  - intros k Hk Hlen. unfold failsWith.
    destruct (prim_eq_print p) as [-> | Hnp].
    + rewrite Hprint by reflexivity.
      injection Hk as <-. by_cases_on_args args.
    + assert (Hif : p <> PIf) by (intros ->; discriminate).
      rewrite (Hpure Hnp Hif).
      destruct p; simpl in Hk; try discriminate; injection Hk as <-;
        cbn -[String.eqb]; by_cases_on_args args.
  - intros Hint Hk Hex. unfold failsWith.
    rewrite Hpure by (intros ->; discriminate).
    destruct p; simpl in Hint, Hk; try discriminate;
      cbn -[String.eqb]; by_cases_on_args args.
  - intros Hor Hex. unfold failsWith.
    rewrite Hpure by (destruct Hor as [-> | ->]; discriminate).
    destruct Hor as [-> | ->]; simpl;
      rewrite foldInts_type_error by assumption; eexists; reflexivity.
  - intros Hbad. unfold failsWith.
    destruct (prim_eq_print p) as [-> | Hnp].
    { rewrite Hprint by reflexivity. by_cases_on_args args. }
    destruct (prim_eq_if p) as [-> | Hif].
    { unfold myApplyAtom, myApplyAtomF. rewrite Hp.
      destruct args as [|c [|th [|el [|x rest]]]]; try discriminate;
        eexists; reflexivity. }
    rewrite (Hpure Hnp Hif).
    destruct p; simpl in Hbad; try discriminate;
      cbn -[String.eqb]; by_cases_on_args args.
  - intros Hints Hok Hex Hzero. unfold failsWith.
    rewrite Hpure by (intros ->; discriminate).
    destruct p; simpl in Hints, Hok; try discriminate.
    + simpl. rewrite foldInts_type_error by assumption. eexists; reflexivity.
    + destruct args as [|a0 rest]; [discriminate|].
      destruct a0 as [|s|z|l]; try (eexists; reflexivity).
      simpl in Hex. destruct rest as [|r0 rest]; [discriminate|].
      simpl primSub. cbv beta iota.
      change (applyPure PSub (VInt z :: r0 :: rest))
        with (foldInts "- expects integers" Z.sub (r0 :: rest) z).
      rewrite foldInts_type_error by assumption. eexists; reflexivity.
    + simpl. rewrite foldInts_type_error by assumption. eexists; reflexivity.
    + destruct args as [|a0 [|r0 rest]]; try discriminate.
      destruct a0 as [|s|z|l]; try (eexists; reflexivity).
      change (applyPure PDiv (VInt z :: r0 :: rest))
        with (divLoop (r0 :: rest) z).
      rewrite divLoop_type_error;
        [eexists; reflexivity | exact Hex | now apply Hzero].
    + cbn -[String.eqb]. by_cases_on_args args.
    + cbn -[String.eqb]. by_cases_on_args args.
    + cbn -[String.eqb]. by_cases_on_args args.
    + cbn -[String.eqb]. by_cases_on_args args.
    + cbn -[String.eqb]. by_cases_on_args args.
    + cbn -[String.eqb]. by_cases_on_args args.
    + cbn -[String.eqb]. by_cases_on_args args.
    + cbn -[String.eqb]. by_cases_on_args args.
  - intros -> Hok Hex. unfold failsWith.
    rewrite Hpure by discriminate.
    destruct args as [|a0 [|r0 rest]]; try discriminate.
    destruct a0 as [|s|z|l]; try (left; eexists; reflexivity).
    change (applyPure PDiv (VInt z :: r0 :: rest))
      with (divLoop (r0 :: rest) z).
    destruct (divLoop_fails (r0 :: rest) z Hex) as [-> | ->];
      [left | right]; eexists; reflexivity.
  - intros v -> Hv. unfold failsWith.
    rewrite (myApplyAtom_pure _ _ _ _ _ _ _ Hp) by discriminate.
    destruct v as [|s|z|l]; simpl; try (eexists; reflexivity).
    + rewrite Hv. eexists; reflexivity.
    + destruct Hv.
  - intros item l -> Hl.
    rewrite (myApplyAtom_pure _ _ _ _ _ _ _ Hp) by discriminate.
    destruct l; simpl in *; try discriminate; reflexivity.
  - intros Hany [msg Hmsg].
    destruct (prim_eq_print p) as [-> | Hnp].
    { rewrite Hprint in Hmsg by reflexivity.
      destruct args as [|a [|b rest]]; discriminate. }
    rewrite Hpure in Hmsg by (assumption || (intros ->; discriminate)).
    simpl in Hmsg.
    destruct p; try discriminate Hany; try discriminate Hmsg;
      destruct args as [|a [|b [|c rest]]]; simpl in Hmsg;
      try discriminate Hmsg;
      unfold typeTest, primCar, primCdr, primCons, primEq, primEqual,
        primElem in Hmsg;
      repeat match type of Hmsg with
             | context [match ?x with _ => _ end] => destruct x
             end;
      discriminate Hmsg.
Qed.

End Primitives.

(** [car] of 5 is Nil, [car] of nothing is an ArityError, and [<] of 1 and
    a symbol is a TypeError; [-] of nothing and [/] of one operand are
    ArityErrors; [(- 1 a)] and [(/ 6 a)] are TypeErrors, while [(/ 6 0 a)]
    is a DivisionByZero; and [(elem 1 2)] is Nil. *)
Lemma C5_primitive_argument_checks_witness :
  myApplyAtom (H := asciiLib) 0 "car" [VInt 5] Global true emptyWorld
  = (Val VNil, emptyWorld)
  /\ failsWith ArityError
       (myApplyAtom (H := asciiLib) 0 "car" [] Global true emptyWorld)
  /\ failsWith TypeError
       (myApplyAtom (H := asciiLib) 0 "<" [VInt 1; VSym "a"] Global true
          emptyWorld)
  /\ failsWith ArityError
       (myApplyAtom (H := asciiLib) 0 "-" [] Global true emptyWorld)
  /\ failsWith ArityError
       (myApplyAtom (H := asciiLib) 0 "/" [VInt 6] Global true emptyWorld)
  /\ failsWith TypeError
       (myApplyAtom (H := asciiLib) 0 "-" [VInt 1; VSym "a"] Global true
          emptyWorld)
  /\ failsWith TypeError
       (myApplyAtom (H := asciiLib) 0 "/" [VInt 6; VSym "a"] Global true
          emptyWorld)
  /\ myApplyAtom (H := asciiLib) 0 "/" [VInt 6; VInt 0; VSym "a"] Global true
       emptyWorld
     = (Panic DivisionByZero "division by zero", emptyWorld)
  /\ failsWith TypeError
       (myApplyAtom (H := asciiLib) 0 "floor" [VList []] Global true
          emptyWorld)
  /\ myApplyAtom (H := asciiLib) 0 "elem" [VInt 1; VInt 2] Global true
       emptyWorld
     = (Val VNil, emptyWorld)
  /\ ~ failsWith TypeError
         (myApplyAtom (H := asciiLib) 0 "cons" [VInt 1; VInt 2] Global true
            emptyWorld).
Proof.
  destruct (C5_primitive_argument_checks (H := asciiLib) 0 "car" PCar []
              Global true emptyWorld eq_refl) as (Hcar & Harity & _).
  destruct (C5_primitive_argument_checks (H := asciiLib) 0 "<" PLt
              [VInt 1; VSym "a"] Global true emptyWorld eq_refl)
    as (_ & _ & Htype & _).
  destruct (C5_primitive_argument_checks (H := asciiLib) 0 "-" PSub []
              Global true emptyWorld eq_refl) as (_ & _ & _ & _ & Hsub0 & _).
  destruct (C5_primitive_argument_checks (H := asciiLib) 0 "/" PDiv [VInt 6]
              Global true emptyWorld eq_refl) as (_ & _ & _ & _ & Hdiv1 & _).
  destruct (C5_primitive_argument_checks (H := asciiLib) 0 "-" PSub
              [VInt 1; VSym "a"] Global true emptyWorld eq_refl)
    as (_ & _ & _ & _ & _ & Hsub & _).
  destruct (C5_primitive_argument_checks (H := asciiLib) 0 "/" PDiv
              [VInt 6; VSym "a"] Global true emptyWorld eq_refl)
    as (_ & _ & _ & _ & _ & Hdiv & _).
  destruct (C5_primitive_argument_checks (H := asciiLib) 0 "floor" PFloor []
              Global true emptyWorld eq_refl)
    as (_ & _ & _ & _ & _ & _ & _ & Hfloor & _).
  destruct (C5_primitive_argument_checks (H := asciiLib) 0 "elem" PElem []
              Global true emptyWorld eq_refl)
    as (_ & _ & _ & _ & _ & _ & _ & _ & Helem & _).
  destruct (C5_primitive_argument_checks (H := asciiLib) 0 "cons" PCons
              [VInt 1; VInt 2] Global true emptyWorld eq_refl)
    as (_ & _ & _ & _ & _ & _ & _ & _ & _ & Hcons).
  split; [|split; [|split; [|split; [|split; [|split; [|split; [|split;
    [|split; [|split]]]]]]]]].
  - apply Hcar; [now left | reflexivity].
  - apply (Harity 1%nat); [reflexivity | discriminate].
  - apply Htype; reflexivity.
  - apply Hsub0; reflexivity.
  - apply Hdiv1; reflexivity.
  - apply Hsub; (reflexivity || discriminate).
  - apply Hdiv; reflexivity.
  - reflexivity.
  - apply (Hfloor (VList [])); [reflexivity | exact I].
  - apply Helem; reflexivity.
  - apply Hcons; reflexivity.
Defined.

(** C5, refuted as stated: [(car 5)] returns a value, not a TypeError. *)
Lemma C5_counterexample :
  myEval (H := asciiLib) 2 (VList [VSym "car"; VInt 5]) Global emptyWorld
  = (Val VNil, emptyWorld)
  /\ ~ failsWith TypeError
         (myEval (H := asciiLib) 2 (VList [VSym "car"; VInt 5]) Global
            emptyWorld).
Proof.
  split; [reflexivity|]. intros [msg Hmsg]. discriminate Hmsg.
Qed.

(** ** Names: case-insensitive dispatch, exact-spelling lookup *)

Section Spelling.
Context `{GoLib}.

Lemma myEval_symbol (n : nat) (name : string) (alist : env) (w : World) :
  reserved name = false ->
  myEval (S n) (VSym name) alist w
  = (Val (match contents alist w !! name with
          | Some val => val
          | None => match globalAlist w !! name with
                    | Some val => val
                    | None => VSym name
                    end
          end), w).
Proof.
  unfold reserved. intros Hres. apply orb_false_iff in Hres as [HT HNIL].
  cbn -[String.eqb]. rewrite HT, HNIL.
  destruct (contents alist w !! name); [reflexivity|].
  destruct (globalAlist w !! name); reflexivity.
Qed.

Lemma myEval_symbol_reserved (n : nat) (name : string) (alist : env)
  (w w' : World) :
  reserved name = true ->
  (myEval (S n) (VSym name) alist w).1 = (myEval (S n) (VSym name) alist w').1.
Proof.
  unfold reserved. intros Hres. cbn -[String.eqb].
  destruct (String.eqb (ToUpper name) "T"); [reflexivity|].
  simpl in Hres. rewrite Hres. reflexivity.
Qed.

Lemma contents_store_ne (alist : env) (name name' : string) (v : value)
  (w : World) :
  name' <> name ->
  contents alist (store name v w) !! name' = contents alist w !! name'.
Proof.
  intros Hne. destruct alist; simpl; [|reflexivity].
  now rewrite lookup_insert_ne by congruence.
Qed.

Lemma myApply_builtin_case_insensitive (n : nat) (s1 s2 : string)
  (args : list value) (alist : env) (w : World) :
  ToUpper s1 = ToUpper s2 ->
  formOf (ToUpper s1) <> None \/ primOf (ToUpper s1) <> None ->
  myApply n s1 args alist w = myApply n s2 args alist w.
Proof.
  intros Heq Hbuiltin. unfold myApply, myApplyF. rewrite <- Heq.
  destruct (formOf (ToUpper s1)) as [f|]; [reflexivity|].
  destruct Hbuiltin as [Hform | Hprim]; [congruence|].
  unfold bind. destruct (evalArgsF (myEval n) args alist w) as [[vs|k m|] w'];
    try reflexivity.
  unfold myApplyAtomF. rewrite <- Heq.
  destruct (primOf (ToUpper s1)) as [p|]; [reflexivity | congruence].
Qed.

Lemma myEval_call (n : nat) (name : string) (args vs : list value)
  (alist : env) (w w1 : World) :
  formOf (ToUpper name) = None ->
  evalArgs n args alist w = (Val vs, w1) ->
  myEval (S n) (VList (VSym name :: args)) alist w
  = myApplyAtom n name vs alist true w1.
Proof.
  intros Hform Hargs. rewrite myEval_unfold. unfold myEvalF, myApplyF.
  rewrite Hform. unfold bind. unfold evalArgs in Hargs. now rewrite Hargs.
Qed.

(** C1 (as the code has it): only the dispatch to special forms and
    built-in functions ignores case, and it comes before any lookup: a name
    that is, in upper case, that of a special form or of a built-in function
    runs that form or function whatever the name is bound to.  [setq] and
    [defun] store under the spelling written.  A symbol evaluated as a
    value finds that binding under the same spelling (unless it is T or NIL
    in some casing, or a local binding shadows it), and so does a symbol in
    operator position whose upper-case spelling is neither a special form
    nor a built-in function: the list bound to it is applied to the
    evaluated operands, and a bound value that is not a list fails with
    UnknownFunction.  Any other spelling (another casing included) is
    another key: its value is what it was before the binding was made, and
    evaluating a call of it, when it is neither bound itself nor the name of
    a special form or built-in function, fails with UnknownFunction once the
    operands are evaluated. *)
Theorem C1_names_resolve_by_exact_spelling :
  (forall n s1 s2 args alist w,
     ToUpper s1 = ToUpper s2 ->
     formOf (ToUpper s1) <> None \/ primOf (ToUpper s1) <> None ->
     myApply n s1 args alist w = myApply n s2 args alist w)
  /\ (forall n name e v w w1,
        myEval n e Global w = (Val v, w1) ->
        myEvalSetq n name e w = (Val v, store name v w1))
  /\ (forall name formals b body w,
        myEvalDefun (VSym name :: VList formals :: b :: body) w
        = (Val (VSym name), store name (VList (VList formals :: b :: body)) w))
  /\ (forall n name v w,
        reserved name = false ->
        myEval (S n) (VSym name) Global (store name v w)
        = (Val v, store name v w))
  /\ (forall n name name' v alist w,
        name' <> name ->
        (myEval (S n) (VSym name') alist (store name v w)).1
        = (myEval (S n) (VSym name') alist w).1)
  /\ (forall n name fnBody args alist fe w,
        primOf (ToUpper name) = None ->
        myApplyAtom n name args alist fe (store name (VList fnBody) w)
        = myApplyLambda n fnBody args Global (store name (VList fnBody) w))
  /\ (forall n name name' v args alist fe w,
        name' <> name ->
        primOf (ToUpper name') = None ->
        globalAlist w !! name' = None ->
        myApplyAtom n name' args alist fe (store name v w)
        = (Panic UnknownFunction ("Unknown function: " +:+ name'),
           store name v w))
  /\ (forall n name v m w,
        reserved name = false -> m !! name = None ->
        myEval (S n) (VSym name) (Local m) (store name v w)
        = (Val v, store name v w))
  /\ (forall name name' v w,
        globalAlist (store name v w) !! name = Some v
        /\ (name' <> name ->
            globalAlist (store name v w) !! name' = globalAlist w !! name'))
  /\ (forall n name fnBody args vs alist w w1,
        formOf (ToUpper name) = None -> primOf (ToUpper name) = None ->
        evalArgs n args alist w = (Val vs, w1) ->
        globalAlist w1 !! name = Some (VList fnBody) ->
        myEval (S n) (VList (VSym name :: args)) alist w
        = myApplyLambda n fnBody vs Global w1)
  /\ (forall n name' args vs alist w w1,
        formOf (ToUpper name') = None -> primOf (ToUpper name') = None ->
        evalArgs n args alist w = (Val vs, w1) ->
        globalAlist w1 !! name' = None ->
        myEval (S n) (VList (VSym name' :: args)) alist w
        = (Panic UnknownFunction ("Unknown function: " +:+ name'), w1))
  /\ (forall n s1 s2 f args alist w,
        formOf (ToUpper s1) = Some f -> formOf (ToUpper s2) = Some f ->
        myApply n s1 args alist w = myApply n s2 args alist w)
  /\ (forall n s1 s2 p args alist fe w,
        primOf (ToUpper s1) = Some p -> primOf (ToUpper s2) = Some p ->
        myApplyAtom n s1 args alist fe w = myApplyAtom n s2 args alist fe w)
  /\ (forall n name p v args vs alist w w1,
        formOf (ToUpper name) = None -> primOf (ToUpper name) = Some p ->
        p <> PPrint -> p <> PIf ->
        evalArgs n args alist (store name v w) = (Val vs, w1) ->
        myEval (S n) (VList (VSym name :: args)) alist (store name v w)
        = (applyPure p vs, w1))
  /\ (forall n name v args vs alist w w1,
        formOf (ToUpper name) = None -> primOf (ToUpper name) = None ->
        evalArgs n args alist w = (Val vs, w1) ->
        globalAlist w1 !! name = Some v -> isSlice v = false ->
        myEval (S n) (VList (VSym name :: args)) alist w
        = (Panic UnknownFunction
             ("Invalid function definition for: " +:+ name), w1)).
Proof.
  split; [exact myApply_builtin_case_insensitive|].
  split.
  { intros n name e v w w1 He. unfold myEvalSetq, myEvalSetqF, bind.
    rewrite He. reflexivity. }
  split; [reflexivity|].
  split.
  { intros n name v w Hres. rewrite myEval_symbol by assumption.
    simpl. now rewrite lookup_insert_eq. }
  split.
  { intros n name name' v alist w Hne.
    destruct (reserved name') eqn:Hres.
    - now apply myEval_symbol_reserved.
    - rewrite !myEval_symbol by assumption. simpl.
      rewrite contents_store_ne by assumption.
      now rewrite lookup_insert_ne by congruence. }
  split.
  { intros n name fnBody args alist fe w Hprim.
    unfold myApplyAtom, myApplyAtomF. rewrite Hprim. simpl.
    now rewrite lookup_insert_eq. }
  split.
  { intros n name name' v args alist fe w Hne Hprim Hunbound.
    unfold myApplyAtom, myApplyAtomF. rewrite Hprim. simpl.
    rewrite lookup_insert_ne by congruence. now rewrite Hunbound. }
  split.
  { intros n name v m w Hres Hm. rewrite myEval_symbol by assumption.
    simpl. rewrite Hm. now rewrite lookup_insert_eq. }
  split.
  { intros name name' v w. simpl. split.
    - apply lookup_insert_eq.
    - intros Hne. now rewrite lookup_insert_ne by congruence. }
  split.
  { intros n name fnBody args vs alist w w1 Hform Hprim Hargs Hbound.
    rewrite (myEval_call n name args vs alist w w1 Hform Hargs).
    unfold myApplyAtom, myApplyAtomF. rewrite Hprim, Hbound. reflexivity. }
  split.
  { intros n name' args vs alist w w1 Hform Hprim Hargs Hunbound.
    rewrite (myEval_call n name' args vs alist w w1 Hform Hargs).
    unfold myApplyAtom, myApplyAtomF. rewrite Hprim, Hunbound. reflexivity. }
  split.
  { intros n s1 s2 f args alist w H1 H2. unfold myApply, myApplyF.
    rewrite H1, H2. reflexivity. }
  split.
  { intros n s1 s2 p args alist fe w H1 H2. unfold myApplyAtom, myApplyAtomF.
    rewrite H1, H2. reflexivity. }
  split.
  { intros n name p v args vs alist w w1 Hform Hprim Hprint Hif Hargs.
    rewrite (myEval_call n name args vs alist _ w1 Hform Hargs).
    unfold myApplyAtom, myApplyAtomF. rewrite Hprim.
    destruct p; try reflexivity; congruence. }
  intros n name v args vs alist w w1 Hform Hprim Hargs Hbound Hv.
  rewrite (myEval_call n name args vs alist w w1 Hform Hargs).
  unfold myApplyAtom, myApplyAtomF. rewrite Hprim, Hbound.
  destruct v; try reflexivity. discriminate.
Qed.

End Spelling.

(** [CaR] is [car]; with [a] bound to 1, [a] is 1 and [A] is what it was;
    with [f] bound to the identity function, [(f 1)] applies it and [(F 1)]
    is an unknown function; with [car] bound to a function that returns 42,
    [(car '(7))] is still 7. *)
Lemma C1_names_resolve_by_exact_spelling_witness :
  let id := [VList [VSym "x"]; VSym "x"] in
  let k42 := VList [VList [VSym "x"]; VInt 42] in
  myApply (H := asciiLib) 1 "CaR" [VList [VSym "quote"; VList [VInt 7]]]
    Global emptyWorld
  = myApply (H := asciiLib) 1 "car" [VList [VSym "quote"; VList [VInt 7]]]
      Global emptyWorld
  /\ myEval (H := asciiLib) 1 (VSym "a") Global (store "a" (VInt 1) emptyWorld)
     = (Val (VInt 1), store "a" (VInt 1) emptyWorld)
  /\ (myEval (H := asciiLib) 1 (VSym "A") Global
        (store "a" (VInt 1) emptyWorld)).1
     = (myEval (H := asciiLib) 1 (VSym "A") Global emptyWorld).1
  /\ myEval (H := asciiLib) 2 (VList [VSym "f"; VInt 1]) Global
       (store "f" (VList id) emptyWorld)
     = myApplyLambda (H := asciiLib) 1 id [VInt 1] Global
         (store "f" (VList id) emptyWorld)
  /\ myEval (H := asciiLib) 2 (VList [VSym "F"; VInt 1]) Global
       (store "f" (VList id) emptyWorld)
     = (Panic UnknownFunction "Unknown function: F",
        store "f" (VList id) emptyWorld)
  /\ myEval (H := asciiLib) 2
       (VList [VSym "car"; VList [VSym "quote"; VList [VInt 7]]]) Global
       (store "car" k42 emptyWorld)
     = (Val (VInt 7), store "car" k42 emptyWorld).
Proof.
  intros id k42.
  destruct (C1_names_resolve_by_exact_spelling (H := asciiLib))
    as (Hbuiltin & _ & _ & Hsame & Hother & _ & _ & _ & _ & Hcall & Hunknown
        & _ & _ & Hshadow & _).
  split; [|split; [|split; [|split; [|split]]]].
  - apply Hbuiltin; [reflexivity | right; discriminate].
  - apply Hsame. reflexivity.
  - apply Hother. discriminate.
  - apply (Hcall 1%nat "f" id [VInt 1] [VInt 1]); reflexivity.
  - apply (Hunknown 1%nat "F" [VInt 1] [VInt 1]); reflexivity.
  - apply (Hshadow 1%nat "car" PCar k42
             [VList [VSym "quote"; VList [VInt 7]]] [VList [VInt 7]]);
      (reflexivity || discriminate).
Defined.

(** C1, refuted as stated: after [(setq a 1)] the symbol [a] evaluates to
    1 but [A] evaluates to itself, and after [(defun f (x) x)] the call
    [(f 1)] returns 1 but [(F 1)] fails. *)
Lemma C1_counterexample :
  let w1 := (myEval (H := asciiLib) 2
               (VList [VSym "setq"; VSym "a"; VInt 1]) Global emptyWorld).2 in
  let w2 := (myEval (H := asciiLib) 2
               (VList [VSym "defun"; VSym "f"; VList [VSym "x"]; VSym "x"])
               Global w1).2 in
  (myEval (H := asciiLib) 2 (VSym "a") Global w2).1 = Val (VInt 1)
  /\ (myEval (H := asciiLib) 2 (VSym "A") Global w2).1 = Val (VSym "A")
  /\ (myEval (H := asciiLib) 3 (VList [VSym "f"; VInt 1]) Global w2).1
     = Val (VInt 1)
  /\ (myEval (H := asciiLib) 3 (VList [VSym "F"; VInt 1]) Global w2).1
     = Panic UnknownFunction "Unknown function: F".
Proof. vm_compute. repeat split. Qed.

(** ** The environment of a function call *)

Section Scoping.
Context `{GoLib}.

Lemma bindLoop_symbols (names : list string) (args : list value) (m : Alist) :
  bindLoop (map VSym names) args m = Val (bindAll (zip names args) m).
Proof.
  revert args m. induction names as [|x names IH]; intros args m.
  - reflexivity.
  - destruct args as [|a args]; [reflexivity|]. simpl. apply IH.
Qed.

Lemma bindFormals_symbols (names : list string) (args : list value) (g : Alist) :
  length names = length args ->
  bindFormals (map VSym names) args g = Val (bindAll (zip names args) ∅ ∪ g).
Proof.
  intros Hlen. unfold bindFormals.
  rewrite length_map, Hlen, Nat.eqb_refl. simpl.
  now rewrite bindLoop_symbols.
Qed.

Lemma myApplyAtom_user_any_caller (n : nat) (fnSym : string)
  (args : list value) (alist alist' : env) (fe fe' : bool) (w : World) :
  primOf (ToUpper fnSym) = None ->
  myApplyAtom n fnSym args alist' fe' w = myApplyAtom n fnSym args alist fe w.
Proof.
  intros Hprim. unfold myApplyAtom, myApplyAtomF. now rewrite Hprim.
Qed.

(** C2: a call of a user-defined function (a name that is not a built-in,
    bound in the global map to [[formals, body...]]) evaluates the body in
    the map made of the formal-to-argument bindings laid over the contents
    of the global map at the time of the call.  The caller's [alist] does
    not occur in it: the call gives the same result from any caller
    environment, and a free identifier of the body is looked up in the
    parameters, then in the global bindings. *)
Theorem C2_call_environment_is_global_plus_formals (n : nat) (fnSym : string)
  (names : list string) (body args : list value) (alist : env) (fe : bool)
  (w : World) :
  primOf (ToUpper fnSym) = None ->
  globalAlist w !! fnSym = Some (VList (VList (map VSym names) :: body)) ->
  body <> [] ->
  length names = length args ->
  let callEnv := bindAll (zip names args) ∅ ∪ globalAlist w in
  myApplyAtom n fnSym args alist fe w = myEvalList n body (Local callEnv) w
  /\ (forall alist' fe',
        myApplyAtom n fnSym args alist' fe' w
        = myApplyAtom n fnSym args alist fe w)
  /\ (forall k x w',
        reserved x = false ->
        myEval (S k) (VSym x) (Local callEnv) w'
        = (Val (match bindAll (zip names args) ∅ !! x with
                | Some v => v
                | None =>
                    match globalAlist w !! x with
                    | Some v => v
                    | None =>
                        match globalAlist w' !! x with
                        | Some v => v
                        | None => VSym x
                        end
                    end
                end), w')).
Proof.
  intros Hprim Hdef Hbody Hlen callEnv. split; [|split].
  - unfold myApplyAtom, myApplyAtomF. rewrite Hprim, Hdef.
    unfold myApplyLambdaF. destruct body as [|b body]; [congruence|].
    unfold bind, getContents, lift. simpl contents.
    rewrite bindFormals_symbols by assumption. reflexivity.
  - intros alist' fe'. now apply myApplyAtom_user_any_caller.
  - intros k x w' Hres. rewrite myEval_symbol by assumption.
    simpl contents. subst callEnv. rewrite lookup_union.
    destruct (bindAll (zip names args) ∅ !! x) as [v|] eqn:Hx.
    + now destruct (globalAlist w !! x).
    + destruct (globalAlist w !! x); reflexivity.
Qed.

End Scoping.

(** With [scopingWorld], [(f)] called where [let] has bound [x] to 2
    sees the global 1. *)
Lemma C2_call_environment_witness :
  myApplyAtom (H := asciiLib) 1 "f" [] (Local {[ "x" := VInt 2 ]}) true
    scopingWorld
  = (Val (VInt 1), scopingWorld)
  /\ myEval (H := asciiLib) 4
       (VList [VSym "let"; VList [VList [VSym "x"; VInt 2]];
               VList [VSym "list"; VSym "x"; VList [VSym "f"]]])
       Global scopingWorld
     = (Val (VList [VInt 2; VInt 1]), scopingWorld).
Proof.
  split; [|vm_compute; reflexivity].
  destruct (C2_call_environment_is_global_plus_formals (H := asciiLib)
              1 "f" [] [VSym "x"] [] (Local {[ "x" := VInt 2 ]}) true
              scopingWorld eq_refl eq_refl ltac:(discriminate) eq_refl)
    as [Hcall _].
  rewrite Hcall. vm_compute. reflexivity.
Defined.

(** ** Failures and the global map *)

Section Failures.
Context `{GoLib}.

Lemma myEvalDefun_failure (args : list value) (w w' : World)
  (r : outcome value) :
  myEvalDefun args w = (r, w') -> isVal r = false -> w' = w.
Proof.
  unfold myEvalDefun. intros Hrun Hfail.
  destruct args as [|a0 [|a1 [|b body]]];
    try (injection Hrun as <- <-; reflexivity).
  destruct a0; try (injection Hrun as <- <-; reflexivity).
  destruct a1; try (injection Hrun as <- <-; reflexivity).
  injection Hrun as <- <-. discriminate Hfail.
Qed.

Lemma myEvalSetq_failure (n : nat) (name : string) (e : value)
  (w w1 : World) (r : outcome value) :
  myEval n e Global w = (r, w1) -> isVal r = false ->
  exists r', myEvalSetq n name e w = (r', w1) /\ isVal r' = false.
Proof.
  intros He Hfail. unfold myEvalSetq, myEvalSetqF, bind. rewrite He.
  destruct r as [v|k m|]; [discriminate | eexists; split; reflexivity ..].
Qed.

(** C6 (as the code has it): there is no rollback, but [setq] and [defun]
    are each all-or-nothing.  A [defun] that fails (too few operands, a name
    that is not a symbol, formals that are not a list) leaves the world as
    it was; a [setq] with malformed operands leaves it as it was; and a
    [setq] whose value expression fails makes no store of its own: the
    world is the one the failed value expression left. *)
Theorem C6_failed_setq_and_defun_store_nothing :
  (forall args w w' r,
     myEvalDefun args w = (r, w') -> isVal r = false -> w' = w)
  /\ (forall n fnSym args alist w w' r,
        formOf (ToUpper fnSym) = Some FDefun ->
        myApply n fnSym args alist w = (r, w') -> isVal r = false -> w' = w)
  /\ (forall n name e w w1 r,
        myEval n e Global w = (r, w1) -> isVal r = false ->
        exists r', myEvalSetq n name e w = (r', w1) /\ isVal r' = false)
  /\ (forall n fnSym name e alist w w1 r,
        formOf (ToUpper fnSym) = Some FSetq ->
        myEval n e Global w = (r, w1) -> isVal r = false ->
        exists r',
          myApply n fnSym [VSym name; e] alist w = (r', w1)
          /\ isVal r' = false)
  /\ (forall n fnSym args alist w,
        formOf (ToUpper fnSym) = Some FSetq ->
        (forall name e, args <> [VSym name; e]) ->
        exists r, myApply n fnSym args alist w = (r, w) /\ isVal r = false).
Proof.
  split; [exact myEvalDefun_failure|].
  split.
  { intros n fnSym args alist w w' r Hform. unfold myApply, myApplyF.
    rewrite Hform. apply myEvalDefun_failure. }
  split; [exact myEvalSetq_failure|].
  split.
  { intros n fnSym name e alist w w1 r Hform He Hfail.
    unfold myApply, myApplyF. rewrite Hform.
    now apply (myEvalSetq_failure n name e w w1 r). }
  intros n fnSym args alist w Hform Hshape.
  unfold myApply, myApplyF. rewrite Hform.
  destruct args as [|a0 [|a1 [|a2 rest]]];
    try (eexists; split; reflexivity).
  destruct a0; try (eexists; split; reflexivity).
  now destruct (Hshape s a1).
Qed.

End Failures.

(** A [defun] named by an integer and a [setq] of [(car)] both fail and
    leave [scopingWorld] as it was. *)
Lemma C6_failed_setq_and_defun_store_nothing_witness :
  (myEvalDefun [VInt 1; VList []; VSym "x"] scopingWorld).2 = scopingWorld
  /\ exists r',
       myEvalSetq (H := asciiLib) 2 "a" (VList [VSym "car"]) scopingWorld
       = (r', scopingWorld) /\ isVal r' = false.
Proof.
  destruct (C6_failed_setq_and_defun_store_nothing (H := asciiLib))
    as (Hdefun & _ & Hsetq & _).
  split.
  - apply (Hdefun [VInt 1; VList []; VSym "x"] scopingWorld _
             (Panic MalformedForm "defun: first argument must be a symbol"));
      reflexivity.
  - apply (Hsetq 2%nat "a" (VList [VSym "car"]) scopingWorld scopingWorld
             (Panic ArityError "car expects 1 argument")); reflexivity.
Defined.

(** C6, refuted as stated: [(list (setq a 1) (car))] fails with an
    ArityError after [setq] has stored [a]; the global map is not what it
    was before. *)
Lemma C6_counterexample :
  let r := myEval (H := asciiLib) 3
             (VList [VSym "list";
                     VList [VSym "setq"; VSym "a"; VInt 1];
                     VList [VSym "car"]])
             Global emptyWorld in
  r.1 = Panic ArityError "car expects 1 argument"
  /\ globalAlist r.2 !! "a" = Some (VInt 1)
  /\ globalAlist r.2 <> globalAlist emptyWorld.
Proof.
  vm_compute. repeat split. discriminate.
Qed.

(** ** The tokenizer *)

Section Tokenizer.
Context `{GoLib}.

Lemma append_cons (c : ascii) (a b : string) :
  String c a +:+ b = String c (a +:+ b).
Proof. reflexivity. Qed.

Lemma append_nil (b : string) : EmptyString +:+ b = b.
Proof. reflexivity. Qed.

Lemma append_snoc (tok : string) (c : ascii) (a : string) :
  (tok +:+ String c EmptyString) +:+ a = tok +:+ String c a.
Proof.
  induction tok as [|x tok IH]; [reflexivity|].
  rewrite !append_cons. now rewrite IH.
Qed.

Lemma append_empty_r (s : string) : s +:+ EmptyString = s.
Proof.
  induction s as [|x s IH]; [reflexivity|]. rewrite append_cons. now rewrite IH.
Qed.

Lemma append_assoc (a b c : string) : (a +:+ b) +:+ c = a +:+ (b +:+ c).
Proof.
  induction a as [|x a IH]; [reflexivity|]. rewrite !append_cons. now rewrite IH.
Qed.

Lemma delimiter_false (c : ascii) :
  delimiter c = false ->
  Ascii.eqb c "(" = false /\ Ascii.eqb c ")" = false
  /\ Ascii.eqb c "'" = false /\ Ascii.eqb c " " = false.
Proof.
  unfold delimiter. intros Hd.
  repeat (apply orb_false_iff in Hd as [Hd ?]). auto.
Qed.

(** Bytes that are not delimiters are appended to the token being built. *)
Lemma tokenizeLoop_run (a rest : string) (toks : list string) (tok : string) :
  allBytes (fun c => negb (delimiter c)) a = true ->
  tokenizeLoop (a +:+ rest) toks tok = tokenizeLoop rest toks (tok +:+ a).
Proof.
  revert tok. induction a as [|c a IH]; intros tok Hall.
  - now rewrite append_nil, append_empty_r.
  - rewrite append_cons. simpl. simpl in Hall. apply andb_true_iff in Hall as [Hc Hall].
    apply negb_true_iff, delimiter_false in Hc as (-> & -> & -> & ->).
    rewrite IH by assumption. now rewrite append_snoc.
Qed.

Lemma appendToken_empty (toks : list string) : appendToken toks EmptyString = toks.
Proof. reflexivity. Qed.

Lemma appendToken_nonempty (toks : list string) (tok : string) :
  String.eqb tok EmptyString = false -> appendToken toks tok = (toks ++ [tok])%list.
Proof. destruct tok; [discriminate | reflexivity]. Qed.

(** At a delimiter or at the end the token being built is closed. *)
Lemma tokenizeLoop_flush (rest : string) (toks : list string) (tok : string) :
  delimited rest = true ->
  tokenizeLoop rest toks tok = tokenizeLoop rest (appendToken toks tok) EmptyString.
Proof.
  destruct rest as [|c rest]; intros Hd; simpl.
  - reflexivity.
  - simpl in Hd. unfold delimiter in Hd.
    destruct (Ascii.eqb c "("); [reflexivity|].
    destruct (Ascii.eqb c ")"); [reflexivity|].
    destruct (Ascii.eqb c "'"); [reflexivity|].
    destruct (Ascii.eqb c " "); [|discriminate].
    destruct tok; reflexivity.
Qed.

Lemma atomRun_parts (a : string) :
  atomRun a = true ->
  String.eqb a EmptyString = false /\ allBytes (fun c => negb (delimiter c)) a = true.
Proof.
  unfold atomRun. intros Ha. apply andb_true_iff in Ha as [Hne Hall].
  now apply negb_true_iff in Hne.
Qed.

(** Maximal munch: an atom run followed by a delimiter or the end of the
    input becomes one token. *)
Lemma tokenizeLoop_atom (a rest : string) (toks : list string) :
  atomRun a = true -> delimited rest = true ->
  tokenizeLoop (a +:+ rest) toks EmptyString = tokenizeLoop rest (toks ++ [a])%list EmptyString.
Proof.
  intros Ha Hrest. apply atomRun_parts in Ha as [Hne Hall].
  rewrite tokenizeLoop_run by assumption. rewrite append_nil.
  rewrite tokenizeLoop_flush by assumption.
  now rewrite appendToken_nonempty.
Qed.

Lemma tokenizeLoop_spaces (n : nat) (rest : string) (toks : list string) :
  tokenizeLoop (spaces n +:+ rest) toks EmptyString = tokenizeLoop rest toks EmptyString.
Proof.
  induction n as [|n IH]; simpl spaces.
  - now rewrite append_nil.
  - rewrite append_cons. exact IH.
Qed.

(** [strings.TrimSpace] on a string that begins and ends with a plain byte. *)
Lemma dropTrailingSpace_plainEnd (s : string) :
  plainEnd s = true -> dropTrailingSpace s = s.
Proof.
  unfold plainEnd. induction s as [|c s IH]; [reflexivity|].
  destruct s as [|c' s'].
  - simpl. unfold plainByte. intros Hc.
    apply andb_true_iff in Hc as [_ Hc]. apply negb_true_iff in Hc.
    now rewrite Hc.
  - intros Hlast. change (lastByte (String c (String c' s')))
      with (lastByte (String c' s')) in Hlast.
    specialize (IH Hlast).
    change (dropTrailingSpace (String c (String c' s')))
      with (match dropTrailingSpace (String c' s') with
            | EmptyString =>
                if asciiSpace c then EmptyString else String c EmptyString
            | r' => String c r'
            end).
    rewrite IH. reflexivity.
Qed.

Lemma TrimSpace_plain (s : string) :
  plainStart s = true -> plainEnd s = true -> TrimSpace s = s.
Proof.
  intros Hstart Hend. destruct s as [|c s]; [reflexivity|].
  unfold plainStart, plainByte in Hstart. simpl in Hstart.
  apply andb_true_iff in Hstart as [Hascii Hspace].
  apply negb_true_iff in Hascii, Hspace.
  change (TrimSpace (String c s))
    with (if nonASCII c then unicodeTrimSpace (String c s)
          else if asciiSpace c then TrimSpace s
          else trimRight (String c s)).
  rewrite Hascii, Hspace. unfold trimRight.
  rewrite dropTrailingSpace_plainEnd by assumption.
  unfold plainEnd in Hend. destruct (lastByte (String c s)) as [l|]; [|reflexivity].
  unfold plainByte in Hend. apply andb_true_iff in Hend as [Hl _].
  apply negb_true_iff in Hl. now rewrite Hl.
Qed.

Lemma lastByte_append (a b : string) :
  String.eqb b EmptyString = false -> lastByte (a +:+ b) = lastByte b.
Proof.
  intros Hb. induction a as [|c a IH]; [reflexivity|].
  rewrite append_cons. destruct (a +:+ b) as [|x r] eqn:Hab.
  - destruct a; [rewrite append_nil in Hab; subst b | rewrite append_cons in Hab];
      discriminate.
  - exact IH.
Qed.

Lemma plainEnd_append (a b : string) :
  String.eqb b EmptyString = false -> plainEnd (a +:+ b) = plainEnd b.
Proof. intros Hb. unfold plainEnd. now rewrite lastByte_append. Qed.

Lemma plainStart_append (a b : string) :
  String.eqb a EmptyString = false -> plainStart (a +:+ b) = plainStart a.
Proof. destruct a; [discriminate | reflexivity]. Qed.

(** Every token is a parenthesis, a quote, or an atom run. *)
Lemma tokenizeLoop_shape (input : string) (toks : list string) (tok : string) :
  Forall tokenShape toks ->
  allBytes (fun c => negb (delimiter c)) tok = true ->
  Forall tokenShape (tokenizeLoop input toks tok).
Proof.
  assert (Hflush : forall toks tok,
    Forall tokenShape toks ->
    allBytes (fun c => negb (delimiter c)) tok = true ->
    Forall tokenShape (appendToken toks tok)).
  { intros ts t Hts Ht. destruct t as [|c t]; [exact Hts|].
    apply Forall_app. split; [exact Hts|].
    constructor; [|constructor]. right; right; right.
    unfold atomRun. now rewrite Ht. }
  assert (Hpunct : forall toks tok t,
    Forall tokenShape toks ->
    allBytes (fun c => negb (delimiter c)) tok = true ->
    t = "(" \/ t = ")" \/ t = "'" ->
    Forall tokenShape (appendToken toks tok ++ [t])%list).
  { intros ts t p Hts Ht Hp. apply Forall_app. split; [now apply Hflush|].
    constructor; [|constructor]. unfold tokenShape. tauto. }
  revert toks tok. induction input as [|c input IH]; intros toks tok Htoks Htok.
  - now apply Hflush.
  - simpl.
    destruct (Ascii.eqb c "(") eqn:E1; [apply IH; [apply Hpunct|]; auto|].
    destruct (Ascii.eqb c ")") eqn:E2; [apply IH; [apply Hpunct|]; auto|].
    destruct (Ascii.eqb c "'") eqn:E3; [apply IH; [apply Hpunct|]; auto|].
    destruct (Ascii.eqb c " ") eqn:E4.
    + destruct (0 <? String.length tok)%nat; apply IH; auto.
    + apply IH; [assumption|].
      clear - Htok E1 E2 E3 E4. induction tok as [|x tok IHt]; simpl.
      * unfold delimiter. now rewrite E1, E2, E3, E4.
      * simpl in Htok. apply andb_true_iff in Htok as [-> Htok]. now apply IHt.
Qed.

(** C8 (as the code has it): the space character, and only it, separates
    atoms inside the input: two atom runs separated by one or more spaces
    are tokenized to those two tokens (the atoms may contain tabs and other
    white space, which [tokenize] removes only at the two ends of the
    input); an atom run followed by a delimiter or the end of the input
    becomes one token, so an atom token is a maximal run of bytes other
    than space, parentheses and quote; and every token is a parenthesis, a
    quote or such a run. *)
Theorem C8_space_separates_atoms :
  (forall a b n,
     atomRun a = true -> atomRun b = true ->
     plainStart a = true -> plainEnd b = true ->
     tokenize (a +:+ spaces (S n) +:+ b) = [a; b])
  /\ (forall a rest toks,
        atomRun a = true -> delimited rest = true ->
        tokenizeLoop (a +:+ rest) toks EmptyString = tokenizeLoop rest (toks ++ [a])%list EmptyString)
  /\ (forall input, Forall tokenShape (tokenize input)).
Proof.
  split; [|split].
  - intros a b n Ha Hb Hstart Hend. unfold tokenize.
    destruct (atomRun_parts a Ha) as [Hane _].
    destruct (atomRun_parts b Hb) as [Hbne _].
    rewrite TrimSpace_plain.
    + rewrite tokenizeLoop_atom by (assumption || reflexivity).
      rewrite tokenizeLoop_spaces.
      rewrite <- (append_empty_r b) at 1.
      now rewrite tokenizeLoop_atom.
    + now rewrite plainStart_append.
    + rewrite plainEnd_append; [|destruct b; [discriminate | reflexivity]].
      rewrite plainEnd_append; assumption.
  - exact tokenizeLoop_atom.
  - intros input. unfold tokenize. apply tokenizeLoop_shape; [constructor | reflexivity].
Qed.

End Tokenizer.

(** Two atoms three spaces apart. *)
Lemma C8_space_separates_atoms_witness :
  atomRun "ab" = true /\ atomRun "cd" = true
  /\ tokenize (H := asciiLib) "ab   cd" = ["ab"; "cd"].
Proof.
  split; [reflexivity | split; [reflexivity|]].
  exact (proj1 (C8_space_separates_atoms (H := asciiLib)) "ab" "cd" 2%nat
           eq_refl eq_refl eq_refl eq_refl).
Defined.

(** C8, refuted as stated: a tab between two atoms does not separate
    them; the tab stays inside a single token. *)
Lemma C8_counterexample :
  tokenize (H := asciiLib) ("a" +:+ String (ascii_of_nat 9) "b")
  = ["a" +:+ String (ascii_of_nat 9) "b"]
  /\ tokenize (H := asciiLib) "a b" = ["a"; "b"]
  /\ tokenize (H := asciiLib) ("a" +:+ String (ascii_of_nat 9) "b")
     <> tokenize (H := asciiLib) "a b".
Proof. repeat split. discriminate. Qed.

(** ** Decimal integers: [formatInt] and [Atoi] *)

Section Decimal.

Import DecimalPos.Unsigned.

Lemma digits_cons (acc k : Z) (c : ascii) (s : string) :
  digitOf c = Some k -> digits acc (String c s) = digits (acc * 10 + k) s.
Proof. intros Hc. simpl. now rewrite Hc. Qed.

Local Ltac digit_case k IH :=
  rewrite (digits_cons _ (Z.of_N k)) by reflexivity; rewrite IH; f_equal;
  match goal with
  | |- context [Decimal.rev (?D ?d)] =>
      change (Decimal.rev (D d)) with (Decimal.revapp d (D Decimal.Nil));
      rewrite (of_lu_revapp d (D Decimal.Nil));
      change (of_lu (D Decimal.Nil)) with k;
      change (usize (D d)) with (N.succ (usize d))
  end;
  rewrite N.pow_succ_r', !N2Z.inj_add, !N2Z.inj_mul; simpl Z.of_N; ring.

Lemma digits_string_of_uint (d : Decimal.uint) (acc : Z) :
  digits acc (NilEmpty.string_of_uint d)
  = Some (Z.of_N (of_lu (Decimal.rev d)) + acc * Z.of_N (10 ^ usize d)).
Proof.
  revert acc.
  induction d as [|d IH|d IH|d IH|d IH|d IH|d IH|d IH|d IH|d IH|d IH];
    intros acc; simpl NilEmpty.string_of_uint.
  - simpl. f_equal. lia.
  - digit_case 0%N IH.
  - digit_case 1%N IH.
  - digit_case 2%N IH.
  - digit_case 3%N IH.
  - digit_case 4%N IH.
  - digit_case 5%N IH.
  - digit_case 6%N IH.
  - digit_case 7%N IH.
  - digit_case 8%N IH.
  - digit_case 9%N IH.
Qed.

Lemma digits_to_uint (p : positive) :
  digits 0 (NilEmpty.string_of_uint (Pos.to_uint p)) = Some (Z.pos p).
Proof.
  rewrite digits_string_of_uint. rewrite <- of_uint_alt, of_to.
  f_equal.
Qed.

Lemma string_of_uint_digits (d : Decimal.uint) :
  allBytes isDigit (NilEmpty.string_of_uint d) = true.
Proof. induction d; simpl; auto. Qed.

Lemma string_of_uint_nonempty (p : positive) :
  String.eqb (NilEmpty.string_of_uint (Pos.to_uint p)) EmptyString = false.
Proof.
  pose proof (to_uint_nonnil p) as Hnil.
  destruct (Pos.to_uint p); [congruence | reflexivity ..].
Qed.

Lemma isDigit_not_sign (c : ascii) :
  isDigit c = true -> Ascii.eqb c "-" = false /\ Ascii.eqb c "+" = false.
Proof.
  destruct c as [[] [] [] [] [] [] [] []]; vm_compute; intros; try discriminate;
    split; reflexivity.
Qed.

Lemma Atoi_digits (s : string) (n : Z) :
  String.eqb s EmptyString = false ->
  allBytes isDigit s = true ->
  digits 0 s = Some n ->
  (inRange n = true -> Atoi s = Some n)
  /\ (inRange (- n) = true -> Atoi (String "-" s) = Some (- n)).
Proof.
  intros Hne Hall Hdig. destruct s as [|c r]; [discriminate|]. split.
  - intros Hrange. unfold Atoi.
    simpl in Hall. apply andb_true_iff in Hall as [Hc _].
    apply isDigit_not_sign in Hc as [-> ->]. simpl orb. cbv iota.
    now rewrite Hdig, Hrange.
  - intros Hrange. unfold Atoi.
    change (Ascii.eqb "-" "-") with true. simpl orb. cbv iota.
    now rewrite Hdig, Hrange.
Qed.

(** [Atoi] reads back what [formatInt] writes, for every [int]. *)
Lemma Atoi_formatInt (n : Z) : inRange n = true -> Atoi (formatInt n) = Some n.
Proof.
  intros Hrange. unfold formatInt. destruct n as [|p|p]; simpl.
  - reflexivity.
  - apply (Atoi_digits _ (Z.pos p)); auto using string_of_uint_nonempty,
      string_of_uint_digits, digits_to_uint.
  - change (Z.neg p) with (- Z.pos p).
    apply (Atoi_digits _ (Z.pos p)); auto using string_of_uint_nonempty,
      string_of_uint_digits, digits_to_uint.
Qed.

Lemma formatInt_bytes (n : Z) :
  String.eqb (formatInt n) EmptyString = false
  /\ allBytes isIntByte (formatInt n) = true.
Proof.
  assert (Hweak : forall s, allBytes isDigit s = true ->
                            allBytes isIntByte s = true).
  { induction s as [|c s IH]; [reflexivity|]. simpl. intros Hs.
    apply andb_true_iff in Hs as [Hc Hs]. rewrite IH by assumption.
    unfold isIntByte. now rewrite Hc. }
  unfold formatInt. destruct n as [|p|p]; simpl.
  - split; reflexivity.
  - split; [apply string_of_uint_nonempty|].
    apply Hweak, string_of_uint_digits.
  - split; [reflexivity|]. apply Hweak, string_of_uint_digits.
Qed.

End Decimal.

(** ** Reading back canonical text *)

Section RoundTrip.
Context `{GoLib}.

Lemma isIntByte_plain (c : ascii) :
  isIntByte c = true -> delimiter c = false /\ plainByte c = true.
Proof.
  destruct c as [[] [] [] [] [] [] [] []]; vm_compute; intros; try discriminate;
    split; reflexivity.
Qed.

Lemma allBytes_impl (P Q : ascii -> bool) (s : string) :
  (forall c, P c = true -> Q c = true) ->
  allBytes P s = true -> allBytes Q s = true.
Proof.
  intros HPQ. induction s as [|c s IH]; [reflexivity|]. simpl. intros Hs.
  apply andb_true_iff in Hs as [Hc Hs]. now rewrite (HPQ c Hc), IH.
Qed.

Lemma allBytes_lastByte (P : ascii -> bool) (s : string) (c : ascii) :
  allBytes P s = true -> lastByte s = Some c -> P c = true.
Proof.
  induction s as [|x s IH]; [discriminate|]. intros Hall Hlast.
  simpl in Hall. apply andb_true_iff in Hall as [Hx Hs].
  destruct s as [|y s]; [injection Hlast as <-; exact Hx|].
  apply IH; assumption.
Qed.

Lemma plain_ends (s : string) :
  String.eqb s EmptyString = false ->
  allBytes plainByte s = true ->
  plainStart s = true /\ plainEnd s = true.
Proof.
  intros Hne Hall. split.
  - destruct s as [|c s]; [discriminate|]. unfold plainStart. simpl.
    simpl in Hall. now apply andb_true_iff in Hall as [-> _].
  - unfold plainEnd. destruct (lastByte s) as [c|] eqn:Hlast.
    + exact (allBytes_lastByte _ _ _ Hall Hlast).
    + destruct s as [|x [|y s]]; try discriminate.
      clear - Hlast. exfalso. revert x y Hlast.
      induction s as [|z s IH]; intros x y Hlast; [discriminate|].
      exact (IH y z Hlast).
Qed.

Lemma formatInt_atom (n : Z) :
  atomRun (formatInt n) = true
  /\ plainStart (formatInt n) = true /\ plainEnd (formatInt n) = true.
Proof.
  destruct (formatInt_bytes n) as [Hne Hall]. split.
  - unfold atomRun. rewrite Hne. simpl.
    apply (allBytes_impl isIntByte); [|assumption].
    intros c Hc. apply isIntByte_plain in Hc as [-> _]. reflexivity.
  - apply plain_ends; [assumption|].
    apply (allBytes_impl isIntByte); [|assumption].
    intros c Hc. now apply isIntByte_plain in Hc as [_ ->].
Qed.

(** An atom run is none of the three punctuation tokens. *)
Lemma atomRun_not_punct (t : string) :
  atomRun t = true ->
  String.eqb t "'" = false /\ String.eqb t "(" = false
  /\ String.eqb t ")" = false.
Proof.
  intros Ht. apply atomRun_parts in Ht as [Hne Hall].
  destruct t as [|c t]; [discriminate|]. simpl in Hall.
  apply andb_true_iff in Hall as [Hc _].
  apply negb_true_iff, delimiter_false in Hc as (H1 & H2 & H3 & _).
  simpl. now rewrite H1, H2, H3.
Qed.

Lemma symbolText_parts (s : string) :
  symbolText s = true ->
  atomRun s = true /\ plainStart s = true /\ plainEnd s = true
  /\ Atoi s = None.
Proof.
  unfold symbolText. intros Hs.
  apply andb_true_iff in Hs as [Hs Hatoi].
  apply andb_true_iff in Hs as [Hs Hend].
  apply andb_true_iff in Hs as [Hrun Hstart].
  destruct (Atoi s); [discriminate | auto].
Qed.

Lemma literal_list (l : list value) :
  literal (VList l) = true -> Forall (fun v => literal v = true) l.
Proof.
  simpl. intros Hl. apply Forall_forall. intros v Hv.
  rewrite forallb_forall in Hl. apply Hl. now apply list_elem_of_In.
Qed.

Lemma atomText_parts (s : string) :
  atomText s = true -> atomRun s = true /\ Atoi s = None.
Proof.
  unfold atomText. intros Hs. apply andb_true_iff in Hs as [Hrun Hatoi].
  destruct (Atoi s); [discriminate | auto].
Qed.

Lemma denotable_list (l : list value) :
  denotable (VList l) = true -> Forall (fun v => denotable v = true) l.
Proof.
  simpl. intros Hl. apply Forall_forall. intros v Hv.
  rewrite forallb_forall in Hl. apply Hl. now apply list_elem_of_In.
Qed.

(** A literal value is denotable: its symbols are atom texts. *)
Lemma literal_denotable (v : value) :
  literal v = true -> denotable v = true.
Proof.
  induction v as [|s|n|l IH] using value_ind_nested; intros Hlit.
  - discriminate.
  - apply symbolText_parts in Hlit as (Hrun & _ & _ & Hatoi).
    simpl. unfold atomText. now rewrite Hrun, Hatoi.
  - exact Hlit.
  - apply literal_list in Hlit. simpl. apply forallb_forall. intros v Hv.
    apply list_elem_of_In in Hv.
    rewrite Forall_forall in IH. rewrite Forall_forall in Hlit. auto.
Qed.

(** *** The tokens of canonical text *)

Lemma tokenizeLoop_open (input : string) (toks : list string) :
  tokenizeLoop (String "(" input) toks EmptyString
  = tokenizeLoop input (toks ++ ["("])%list EmptyString.
Proof. reflexivity. Qed.

Lemma tokenizeLoop_close (input : string) (toks : list string) :
  tokenizeLoop (String ")" input) toks EmptyString
  = tokenizeLoop input (toks ++ [")"])%list EmptyString.
Proof. reflexivity. Qed.

Lemma tokenizeLoop_space (input : string) (toks : list string) :
  tokenizeLoop (String " " input) toks EmptyString
  = tokenizeLoop input toks EmptyString.
Proof. reflexivity. Qed.

Lemma tokenizeLoop_elements (l : list value) (rest : string)
  (toks : list string) :
  Forall (fun v => forall rest toks,
            delimited rest = true ->
            tokenizeLoop (unparse v +:+ rest) toks EmptyString
            = tokenizeLoop rest (toks ++ tokensOf v)%list EmptyString) l ->
  tokenizeLoop (Join (map unparse l) " " +:+ String ")" rest) toks EmptyString
  = tokenizeLoop rest (toks ++ concat (map tokensOf l) ++ [")"])%list
      EmptyString.
Proof.
  intros Hall. revert toks.
  induction Hall as [|p l Hp Hl IH]; intros toks.
  - simpl Join. rewrite append_nil. apply tokenizeLoop_close.
  - destruct l as [|q l'].
    + simpl Join. rewrite Hp by reflexivity. rewrite tokenizeLoop_close.
      simpl. now rewrite app_nil_r, <- app_assoc.
    + change (Join (map unparse (p :: q :: l')) " ")
        with (unparse p +:+ " " +:+ Join (map unparse (q :: l')) " ").
      rewrite !append_assoc. rewrite Hp by reflexivity.
      rewrite append_cons, append_nil, tokenizeLoop_space.
      rewrite IH. simpl. now rewrite <- !app_assoc.
Qed.

Lemma tokenizeLoop_unparse (v : value) :
  denotable v = true ->
  forall rest toks,
    delimited rest = true ->
    tokenizeLoop (unparse v +:+ rest) toks EmptyString
    = tokenizeLoop rest (toks ++ tokensOf v)%list EmptyString.
Proof.
  induction v as [|s|n|l IH] using value_ind_nested; intros Hlit rest toks Hrest.
  - discriminate.
  - apply atomText_parts in Hlit as (Hrun & _). now apply tokenizeLoop_atom.
  - destruct (formatInt_atom n) as (Hrun & _). now apply tokenizeLoop_atom.
  - apply denotable_list in Hlit.
    change (unparse (VList l)) with ("(" +:+ Join (map unparse l) " " +:+ ")").
    repeat (rewrite append_cons || rewrite append_nil || rewrite append_assoc).
    rewrite tokenizeLoop_open, tokenizeLoop_elements.
    + simpl. now rewrite <- !app_assoc.
    + clear - IH Hlit. induction l as [|p l IHl]; [constructor|].
      inversion IH; inversion Hlit; subst. constructor; auto.
Qed.

(** *** Parsing the tokens of canonical text *)

Lemma first_token (v : value) :
  denotable v = true ->
  exists t ts, tokensOf v = t :: ts /\ String.eqb t ")" = false.
Proof.
  destruct v as [|s|n|l]; intros Hlit.
  - discriminate.
  - apply atomText_parts in Hlit as (Hrun & _).
    exists s, []. split; [reflexivity|]. now apply atomRun_not_punct.
  - destruct (formatInt_atom n) as (Hrun & _).
    exists (formatInt n), []. split; [reflexivity|]. now apply atomRun_not_punct.
  - eexists _, _. split; reflexivity.
Qed.

Lemma parseSExpression_atom (n : nat) (t : string) (rest : list string) :
  atomRun t = true ->
  parseSExpression (S n) (t :: rest)
  = match Atoi t with
    | Some num => Parsed (VInt num) rest
    | None => Parsed (VSym t) rest
    end.
Proof.
  intros Ht. apply atomRun_not_punct in Ht as (H1 & H2 & H3).
  simpl. now rewrite H1, H2, H3.
Qed.

Lemma parseList_step (n : nat) (p : value) (more : list string)
  (lst : list value) :
  denotable p = true ->
  parseList (S n) (tokensOf p ++ more) lst
  = match parseSExpression n (tokensOf p ++ more) with
    | Parsed v rest' => parseList n rest' (lst ++ [v])
    | bad => bad
    end.
Proof.
  intros Hlit. destruct (first_token p Hlit) as (t & ts & Heq & Hneq).
  rewrite Heq. simpl. now rewrite Hneq.
Qed.

Lemma parseList_elements (l : list value) :
  Forall (fun v => denotable v = true
                   /\ forall fuel rest,
                        (2 * length (tokensOf v) + 1 <= fuel)%nat ->
                        parseSExpression fuel (tokensOf v ++ rest)
                        = Parsed v rest) l ->
  forall fuel lst rest,
    (2 * length (concat (map tokensOf l)) + 2 <= fuel)%nat ->
    parseList fuel (concat (map tokensOf l) ++ ")" :: rest) lst
    = Parsed (VList (lst ++ l)) rest.
Proof.
  induction 1 as [|p l [Hlit Hp] Hl IH]; intros fuel lst rest Hfuel.
  - destruct fuel as [|n]; [simpl in Hfuel; lia|].
    simpl. now rewrite app_nil_r.
  - destruct fuel as [|n]; [simpl in Hfuel; lia|].
    simpl concat. simpl map in Hfuel. simpl concat in Hfuel.
    rewrite length_app in Hfuel. rewrite <- app_assoc.
    destruct (first_token p Hlit) as (t & ts & Heq & _).
    assert (Hpos : (1 <= length (tokensOf p))%nat) by (rewrite Heq; simpl; lia).
    rewrite parseList_step by assumption.
    rewrite Hp by lia. rewrite IH by lia.
    now rewrite <- app_assoc.
Qed.

Lemma parseSExpression_tokensOf (v : value) :
  denotable v = true ->
  forall fuel rest,
    (2 * length (tokensOf v) + 1 <= fuel)%nat ->
    parseSExpression fuel (tokensOf v ++ rest) = Parsed v rest.
Proof.
  induction v as [|s|n|l IH] using value_ind_nested;
    intros Hlit fuel rest Hfuel.
  - discriminate.
  - destruct fuel as [|k]; [lia|].
    apply atomText_parts in Hlit as (Hrun & Hatoi).
    simpl app. rewrite parseSExpression_atom by assumption. now rewrite Hatoi.
  - destruct fuel as [|k]; [lia|].
    destruct (formatInt_atom n) as (Hrun & _).
    simpl app. rewrite parseSExpression_atom by assumption.
    now rewrite Atoi_formatInt.
  - destruct fuel as [|k]; [lia|].
    pose proof (denotable_list l Hlit) as Hall.
    simpl tokensOf in *. rewrite length_cons, length_app in Hfuel.
    simpl length in Hfuel.
    change (parseSExpression (S k)
              (("(" :: concat (map tokensOf l) ++ [")"]) ++ rest))
      with (parseList k ((concat (map tokensOf l) ++ [")"]) ++ rest) []).
    rewrite <- app_assoc. simpl app.
    rewrite parseList_elements; [reflexivity | | lia].
    clear - IH Hall. induction l as [|p l IHl]; [constructor|].
    inversion IH; inversion Hall; subst. constructor; auto.
Qed.

Lemma unparse_plain (v : value) :
  literal v = true ->
  plainStart (unparse v) = true /\ plainEnd (unparse v) = true.
Proof.
  destruct v as [|s|n|l]; intros Hlit.
  - discriminate.
  - apply symbolText_parts in Hlit as (_ & Hs & He & _). now split.
  - destruct (formatInt_atom n) as (_ & Hs & He). now split.
  - split; [reflexivity|].
    change (unparse (VList l)) with ("(" +:+ Join (map unparse l) " " +:+ ")").
    rewrite <- append_assoc. now rewrite plainEnd_append.
Qed.

Lemma canonical_parts (v : value) :
  canonical v = true ->
  denotable v = true
  /\ plainStart (unparse v) = true /\ plainEnd (unparse v) = true.
Proof.
  unfold canonical. intros Hc.
  apply andb_true_iff in Hc as [Hc He].
  apply andb_true_iff in Hc as [Hd Hs]. auto.
Qed.

(** The text of a literal value is canonical. *)
Lemma literal_canonical (v : value) :
  literal v = true -> canonical v = true.
Proof.
  intros Hlit. unfold canonical.
  destruct (unparse_plain v Hlit) as [-> ->].
  now rewrite literal_denotable.
Qed.

(** The text of a denotable list or integer is canonical, whatever the
    bytes of the symbols in it. *)
Lemma denotable_canonical (v : value) :
  denotable v = true ->
  match v with VSym _ => False | _ => True end ->
  canonical v = true.
Proof.
  intros Hd Hv. unfold canonical. rewrite Hd. destruct v as [|s|n|l].
  - discriminate.
  - destruct Hv.
  - destruct (formatInt_atom n) as (_ & Hs & He). simpl. now rewrite Hs, He.
  - change (unparse (VList l)) with ("(" +:+ Join (map unparse l) " " +:+ ")").
    rewrite <- append_assoc. now rewrite plainEnd_append.
Qed.

Lemma tokenize_unparse (v : value) :
  canonical v = true -> tokenize (unparse v) = tokensOf v.
Proof.
  intros Hc. unfold tokenize.
  destruct (canonical_parts v Hc) as (Hd & Hs & He).
  rewrite TrimSpace_plain by assumption.
  rewrite <- (append_empty_r (unparse v)).
  now rewrite tokenizeLoop_unparse.
Qed.

(** Reading canonical text gives the value back. *)
Lemma readSExpression_unparse (v : value) :
  canonical v = true -> readSExpression (unparse v) = Parsed v [].
Proof.
  intros Hc. unfold readSExpression. rewrite tokenize_unparse by assumption.
  destruct (canonical_parts v Hc) as (Hd & _).
  pose proof (parseSExpression_tokensOf v Hd (parseFuel (tokensOf v)) []) as Hp.
  rewrite app_nil_r in Hp. rewrite Hp by (unfold parseFuel; lia).
  destruct (first_token v Hd) as (t & ts & -> & _). reflexivity.
Qed.

(** Printing is the canonical text with T and NIL in upper case. *)
Lemma toLispString_canon (v : value) :
  toLispString v = unparse (canon v).
Proof.
  induction v as [|s|n|l IH] using value_ind_nested.
  - reflexivity.
  - simpl. destruct (String.eqb (ToUpper s) (ToUpper "T")); [reflexivity|].
    destruct (String.eqb (ToUpper s) (ToUpper "NIL")); reflexivity.
  - reflexivity.
  - simpl. f_equal. f_equal. f_equal. rewrite map_map.
    induction IH as [|x l Hx Hl IHl]; [reflexivity|].
    simpl. now rewrite Hx, IHl.
Qed.

(** C7 (as the code has it): for canonical text, that is the text
    [unparse v] of a denotable value [v] (every symbol written as any
    non-empty run of bytes other than space, parentheses and quote that
    [Atoi] does not accept, integers in plain decimal, list elements
    separated by one space) whose first and last byte are ASCII and not
    white space, reading gives [v] back and printing [v] gives that text
    with T and NIL in upper case.  The condition on the two ends always
    holds for the text of a list and of an integer, so inside a list the
    symbols may begin or end with any byte that is not a delimiter.  In
    particular [(A B . C)] reads as the four-element list [A], [B], [.],
    [C], the dot being an ordinary symbol, and prints as [(A B . C)]
    again. *)
Theorem C7_canonical_text_round_trip :
  (forall v,
     canonical v = true ->
     readSExpression (unparse v) = Parsed v []
     /\ toLispString v = unparse (canon v))
  /\ (forall v,
        denotable v = true ->
        match v with VSym _ => False | _ => True end ->
        canonical v = true)
  /\ (forall s,
        atomText s = true -> plainStart s = true -> plainEnd s = true ->
        canonical (VSym s) = true)
  /\ readSExpression "(A B . C)"
     = Parsed (VList [VSym "A"; VSym "B"; VSym "."; VSym "C"]) []
  /\ toLispString (VList [VSym "A"; VSym "B"; VSym "."; VSym "C"])
     = "(A B . C)".
Proof.
  split; [|split; [|split; [|split; reflexivity]]].
  - intros v Hc. split.
    + now apply readSExpression_unparse.
    + apply toLispString_canon.
  - apply denotable_canonical.
  - intros s Ha Hs He. unfold canonical. simpl. now rewrite Ha, Hs, He.
Qed.

(** *** The parser never runs out of fuel *)

Lemma parse_fuel_enough (n : nat) :
  (forall tokens,
     (2 * length tokens + 1 <= n)%nat ->
     parseSExpression n tokens <> ParseFuel
     /\ forall v rest,
          parseSExpression n tokens = Parsed v rest ->
          (length rest <= length tokens)%nat
          /\ (tokens <> [] -> (length rest < length tokens)%nat))
  /\ (forall tokens lst,
        (2 * length tokens + 2 <= n)%nat ->
        parseList n tokens lst <> ParseFuel
        /\ forall v rest,
             parseList n tokens lst = Parsed v rest ->
             (length rest < length tokens)%nat).
Proof.
  induction n as [|n [IHs IHl]].
  - split; intros; lia.
  - split.
    + intros tokens Hfuel. destruct tokens as [|t rest].
      { simpl. split; [discriminate|]. intros v r [= <- <-]. split; [simpl; lia|tauto]. }
      simpl length in Hfuel. simpl.
      destruct (String.eqb t "'").
      { destruct (IHs rest ltac:(lia)) as [Hne Hlen].
        destruct (parseSExpression n rest) as [v r| |] eqn:Hp;
          [|split; [discriminate | intros; discriminate] | congruence].
        split; [discriminate|]. intros v' r' [= <- <-].
        destruct (Hlen v r eq_refl) as [Hle _]. simpl. split; [lia | intros; lia]. }
      destruct (String.eqb t "(").
      { destruct (IHl rest [] ltac:(lia)) as [Hne Hlen].
        split; [assumption|]. intros v r Hp. specialize (Hlen v r Hp).
        simpl. split; [lia | intros; lia]. }
      destruct (String.eqb t ")").
      { split; [discriminate | intros; discriminate]. }
      destruct (Atoi t); (split; [discriminate|]);
        intros v r [= <- <-]; simpl; split; [lia | intros; lia | lia | intros; lia].
    + intros tokens lst Hfuel. destruct tokens as [|t rest].
      { simpl. split; [discriminate | intros; discriminate]. }
      simpl length in Hfuel. simpl parseList.
      destruct (String.eqb t ")").
      { split; [discriminate|]. intros v r [= <- <-]. simpl. lia. }
      destruct (IHs (t :: rest) ltac:(simpl; lia)) as [Hne Hlen].
      destruct (parseSExpression n (t :: rest)) as [v r| |] eqn:Hp;
        [|split; [discriminate | intros; discriminate] | congruence].
      destruct (Hlen v r eq_refl) as [_ Hlt].
      specialize (Hlt ltac:(discriminate)). simpl in Hlt.
      destruct (IHl r (lst ++ [v])%list ltac:(lia)) as [Hne' Hlen'].
      split; [assumption|]. intros v' r' Hp'.
      specialize (Hlen' v' r' Hp'). simpl. lia.
Qed.

(** X22: the reader terminates on every input: each call of
    [parseSExpression] consumes a token or returns at once, so the fuel
    [readSExpression] starts with is never used up, and the result is a
    value or one of the three read errors. *)
Lemma readSExpression_total (input : string) :
  readSExpression input <> ParseFuel.
Proof.
  unfold readSExpression. destruct (tokenize input) as [|t ts] eqn:Htok;
    [discriminate|].
  destruct (parse_fuel_enough (parseFuel (t :: ts))) as [Hs _].
  destruct (Hs (t :: ts) ltac:(unfold parseFuel; lia)) as [Hne _].
  destruct (parseSExpression (parseFuel (t :: ts)) (t :: ts)) as [v [|r rs]| |];
    congruence.
Qed.

End RoundTrip.

(** A canonical text with a symbol that ends with a byte above 127, a
    negative integer, an empty list and [nil]. *)
Lemma C7_canonical_text_round_trip_witness :
  let e := String (ascii_of_nat 233) EmptyString in
  let v := VList [VSym ("a" +:+ e); VInt (-12); VList []; VSym "nil"] in
  canonical v = true
  /\ readSExpression (H := asciiLib) ("(a" +:+ e +:+ " -12 () nil)")
     = Parsed v []
  /\ toLispString (H := asciiLib) v = "(a" +:+ e +:+ " -12 () NIL)".
Proof.
  intros e v.
  destruct (proj1 (C7_canonical_text_round_trip (H := asciiLib)) v eq_refl)
    as [Hread Hprint].
  split; [reflexivity | split; [exact Hread | exact Hprint]].
Defined.

(** C7, refuted as stated: the literal atom [007] reads as the integer 7
    and prints as [7]; [+5] prints as [5]; and a list written with two
    spaces prints with one. *)
Lemma C7_counterexample :
  readSExpression (H := asciiLib) "007" = Parsed (VInt 7) []
  /\ toLispString (H := asciiLib) (VInt 7) = "7"
  /\ toLispString (H := asciiLib) (VInt 7) <> "007"
  /\ readSExpression (H := asciiLib) "+5" = Parsed (VInt 5) []
  /\ toLispString (H := asciiLib) (VInt 5) <> "+5"
  /\ readSExpression (H := asciiLib) "(a  b)" = Parsed (VList [VSym "a"; VSym "b"]) []
  /\ toLispString (H := asciiLib) (VList [VSym "a"; VSym "b"]) <> "(a  b)".
Proof. repeat split; discriminate. Qed.

(** * Further properties *)

(** ** The test suite *)

(** X1: [TestLispFunctions] passes: after the fifteen definitions, each of
    the 71 cases, run in order on the shared global map, prints exactly its
    expected string. *)
Theorem X1_TestLispFunctions_passes `{GoLib} (w : World) :
  TestLispFunctions 200 w = Some (replicate 71 true).
Proof. vm_compute. reflexivity. Qed.

(** ** Equality: [equalp], [eq] *)

Section Equality.
Context `{GoLib}.

Lemma equalp_list (xs ys : list value) :
  equalp (VList xs) (VList ys)
  = (length xs =? length ys)%nat && eachEqual xs ys.
Proof.
  simpl. destruct (length xs =? length ys)%nat; [|reflexivity]. simpl.
  revert ys. induction xs as [|a xs IH]; intros [|b ys]; try reflexivity.
  simpl. destruct (equalp a b); [apply IH | reflexivity].
Qed.

Lemma eachEqual_refl (xs : list value) :
  Forall (fun x => equalp x x = true) xs -> eachEqual xs xs = true.
Proof. induction 1 as [|x xs Hx _ IH]; [reflexivity|]. simpl. now rewrite Hx. Qed.

Lemma equalp_refl (x : value) : equalp x x = true.
Proof.
  induction x as [|s|n|l IH] using value_ind_nested.
  - reflexivity.
  - simpl. apply String.eqb_refl.
  - simpl. apply Z.eqb_refl.
  - rewrite equalp_list, Nat.eqb_refl. now apply eachEqual_refl.
Qed.

Lemma eachEqual_sym (xs ys : list value) :
  Forall (fun x => forall y, equalp x y = equalp y x) xs ->
  eachEqual xs ys = eachEqual ys xs.
Proof.
  intros Hall. revert ys. induction Hall as [|x xs Hx _ IH]; intros [|y ys];
    try reflexivity.
  simpl. rewrite (Hx y). destruct (equalp y x); [apply IH | reflexivity].
Qed.

Lemma equalp_sym (x y : value) : equalp x y = equalp y x.
Proof.
  revert y. induction x as [|s|n|l IH] using value_ind_nested; intros y.
  - destruct y; reflexivity.
  - destruct y; try reflexivity. simpl. apply String.eqb_sym.
  - destruct y; try reflexivity. simpl. apply Z.eqb_sym.
  - destruct y as [| | |l']; try reflexivity.
    rewrite !equalp_list, Nat.eqb_sym. f_equal. now apply eachEqual_sym.
Qed.

Lemma eachEqual_trans (xs ys zs : list value) :
  Forall (fun x => forall y z, equalp x y = true -> equalp y z = true ->
                               equalp x z = true) xs ->
  eachEqual xs ys = true -> eachEqual ys zs = true ->
  length xs = length ys ->
  eachEqual xs zs = true.
Proof.
  intros Hall. revert ys zs.
  induction Hall as [|x xs Hx _ IH]; intros [|y ys] [|z zs] Hxy Hyz Hlen;
    try reflexivity; try discriminate.
  simpl in *. destruct (equalp x y) eqn:Exy; [|discriminate].
  destruct (equalp y z) eqn:Eyz; [|discriminate].
  rewrite (Hx y z Exy Eyz). apply (IH ys); auto.
Qed.

Lemma equalp_trans (x y z : value) :
  equalp x y = true -> equalp y z = true -> equalp x z = true.
Proof.
  revert y z. induction x as [|s|n|l IH] using value_ind_nested; intros y z.
  - destruct y; try discriminate. auto.
  - destruct y; try discriminate. destruct z; try discriminate. simpl.
    rewrite !String.eqb_eq. congruence.
  - destruct y; try discriminate. destruct z; try discriminate. simpl.
    rewrite !Z.eqb_eq. congruence.
  - destruct y as [| | |l']; try discriminate.
    destruct z as [| | |l'']; try discriminate.
    rewrite !equalp_list, !andb_true_iff, !Nat.eqb_eq.
    intros [Hlen Hxy] [Hlen' Hyz]. split; [congruence|].
    now apply (eachEqual_trans l l' l'').
Qed.

(** X2: [equalp], the equality behind [equal] and [elem], is an
    equivalence relation on all values: reflexive, symmetric and
    transitive (symbols being compared by their upper-case spelling). *)
Theorem X2_equalp_is_an_equivalence :
  (forall x, equalp x x = true)
  /\ (forall x y, equalp x y = equalp y x)
  /\ (forall x y z, equalp x y = true -> equalp y z = true ->
                    equalp x z = true).
Proof. split; [exact equalp_refl | split; [exact equalp_sym | exact equalp_trans]]. Qed.

(** X3: [eq] answers T exactly when both operands are nil (the nil value
    or the symbol NIL), or the first is an atom and the two are [equalp];
    so it is reflexive on atoms, and NIL whenever an operand is a list,
    even for a list compared with itself. *)
Theorem X3_eq_on_atoms_and_lists (n : nat) (alist : env) (fe : bool)
  (w : World) :
  (forall x y,
     myApplyAtom n "eq" [x; y] alist fe w
     = (Val (boolToT ((isNil x && isNil y)
                      || (negb (isSlice x) && equalp x y))), w))
  /\ (forall x, isSlice x = false ->
        myApplyAtom n "eq" [x; x] alist fe w = (Val (VSym "T"), w))
  /\ (forall x y, isSlice x = true \/ isSlice y = true ->
        myApplyAtom n "eq" [x; y] alist fe w = (Val VNil, w)).
Proof.
  assert (Hchar : forall x y,
    myApplyAtom n "eq" [x; y] alist fe w
    = (Val (boolToT ((isNil x && isNil y)
                     || (negb (isSlice x) && equalp x y))), w)).
  { intros x y. rewrite (myApplyAtom_pure n "eq" PEq) by (reflexivity || discriminate).
    f_equal. cbn -[equalp isNil ToUpper String.eqb].
    destruct (isNil x && isNil y) eqn:Hnil; [reflexivity|].
    destruct x as [|s|k|l]; destruct y as [|s'|k'|l']; simpl in *;
      try reflexivity; try discriminate.
    - now destruct (String.eqb (ToUpper s) (ToUpper s')).
    - now destruct (k =? k'). }
  split; [exact Hchar | split].
  - intros x Hx. rewrite Hchar, Hx, equalp_refl. simpl.
    now rewrite orb_true_r.
  - intros x y Hor. rewrite Hchar.
    destruct x, y; simpl in *; destruct Hor as [Hs | Hs];
      try discriminate; rewrite ?andb_false_r; reflexivity.
Qed.

End Equality.

(** ** Lists: [cons], [car], [cdr] *)

Section ConsCells.
Context `{GoLib}.

(** X4: [cons] of [a] and [b] is the list that starts with [a] and goes
    on with [b] as [toList] makes it a list (nothing for nil, the elements
    of a list, [b] alone otherwise); [car] gives back the first element,
    [cdr] the remaining ones, or NIL when none remains; [car] and [cdr] of
    nil and of the empty list are NIL. *)
Theorem X4_cons_car_cdr (n : nat) (alist : env) (fe : bool) (w : World) :
  (forall a b,
     myApplyAtom n "cons" [a; b] alist fe w
     = (Val (VList (a :: toList b)), w))
  /\ (forall a l,
        myApplyAtom n "car" [VList (a :: l)] alist fe w = (Val a, w))
  /\ (forall a l,
        myApplyAtom n "cdr" [VList (a :: l)] alist fe w
        = (Val (match l with [] => VNil | _ => VList l end), w))
  /\ (forall x, x = VNil \/ x = VList [] ->
        myApplyAtom n "car" [x] alist fe w = (Val VNil, w)
        /\ myApplyAtom n "cdr" [x] alist fe w = (Val VNil, w)).
Proof.
  split; [|split; [|split]].
  - intros a b. destruct b; reflexivity.
  - reflexivity.
  - intros a l. destruct l; reflexivity.
  - intros x [-> | ->]; split; reflexivity.
Qed.

End ConsCells.

(** ** Integer arithmetic *)

Section Arithmetic.
Context `{GoLib}.

Lemma wrap64_range (z : Z) : inRange (wrap64 z) = true.
Proof.
  unfold inRange, wrap64, minInt, maxInt.
  pose proof (Z.mod_pos_bound (z + 2 ^ 63) (2 ^ 64) ltac:(lia)).
  apply andb_true_iff. split; apply Z.leb_le; lia.
Qed.

Lemma wrap64_id (z : Z) : inRange z = true -> wrap64 z = z.
Proof.
  unfold inRange, wrap64, minInt, maxInt. intros Hz.
  apply andb_true_iff in Hz as [Hlo Hhi]. apply Z.leb_le in Hlo, Hhi.
  rewrite Z.mod_small by lia. lia.
Qed.

Lemma wrap64_congr (a b k : Z) : a = b + 2 ^ 64 * k -> wrap64 a = wrap64 b.
Proof.
  intros ->. unfold wrap64. f_equal.
  replace (b + 2 ^ 64 * k + 2 ^ 63) with (b + 2 ^ 63 + k * 2 ^ 64) by ring.
  now rewrite Z.mod_add by lia.
Qed.

Lemma wrap64_spec (z : Z) : exists k, wrap64 z = z + 2 ^ 64 * k.
Proof.
  exists (- ((z + 2 ^ 63) / 2 ^ 64)). unfold wrap64.
  rewrite (Z.mod_eq (z + 2 ^ 63) (2 ^ 64)) by lia. ring.
Qed.

Lemma wrap64_add_l (a b : Z) : wrap64 (wrap64 a + b) = wrap64 (a + b).
Proof.
  destruct (wrap64_spec a) as [k ->]. apply (wrap64_congr _ _ k). ring.
Qed.

Lemma wrap64_sub_l (a b : Z) : wrap64 (wrap64 a - b) = wrap64 (a - b).
Proof.
  destruct (wrap64_spec a) as [k ->]. apply (wrap64_congr _ _ k). ring.
Qed.

Lemma wrap64_mul_l (a b : Z) : wrap64 (wrap64 a * b) = wrap64 (a * b).
Proof.
  destruct (wrap64_spec a) as [k ->]. apply (wrap64_congr _ _ (k * b)). ring.
Qed.

Lemma foldInts_ints (typ : string) (op : Z -> Z -> Z) (zs : list Z) (acc : Z) :
  foldInts typ op (map VInt zs) acc
  = Val (VInt (fold_left (fun a z => wrap64 (op a z)) zs acc)).
Proof.
  revert acc. induction zs as [|z zs IH]; intros acc; [reflexivity|].
  simpl. apply IH.
Qed.

Lemma fold_add (zs : list Z) (acc : Z) :
  wrap64 (fold_left (fun a z => wrap64 (a + z)) zs acc)
  = wrap64 (acc + sumZ zs).
Proof.
  revert acc. induction zs as [|z zs IH]; intros acc; simpl.
  - f_equal. lia.
  - rewrite IH, wrap64_add_l. f_equal. lia.
Qed.

Lemma fold_sub (zs : list Z) (acc : Z) :
  wrap64 (fold_left (fun a z => wrap64 (a - z)) zs acc)
  = wrap64 (acc - sumZ zs).
Proof.
  revert acc. induction zs as [|z zs IH]; intros acc; simpl.
  - f_equal. lia.
  - rewrite IH, wrap64_sub_l. f_equal. lia.
Qed.

Lemma fold_mul (zs : list Z) (acc : Z) :
  wrap64 (fold_left (fun a z => wrap64 (a * z)) zs acc)
  = wrap64 (acc * prodZ zs).
Proof.
  revert acc. induction zs as [|z zs IH]; intros acc; simpl.
  - f_equal. lia.
  - rewrite IH, wrap64_mul_l. f_equal. ring.
Qed.

Lemma fold_in_range (op : Z -> Z -> Z) (zs : list Z) (acc : Z) :
  inRange acc = true ->
  inRange (fold_left (fun a z => wrap64 (op a z)) zs acc) = true.
Proof.
  revert acc. induction zs as [|z zs IH]; intros acc Hacc; [exact Hacc|].
  simpl. apply IH, wrap64_range.
Qed.

(** X5: on integers, [+] is the sum, [*] the product, [-] with one
    operand the negation and with more the first minus the sum of the
    others, each reduced to the 64-bit [int] by two's-complement
    wrap-around; with no operand the sum is 0 and the product 1. *)
Theorem X5_arithmetic_wraps (n : nat) (alist : env) (fe : bool) (w : World) :
  (forall zs,
     myApplyAtom n "+" (map VInt zs) alist fe w
     = (Val (VInt (wrap64 (sumZ zs))), w))
  /\ (forall zs,
        myApplyAtom n "*" (map VInt zs) alist fe w
        = (Val (VInt (wrap64 (prodZ zs))), w))
  /\ (forall z,
        myApplyAtom n "-" [VInt z] alist fe w = (Val (VInt (wrap64 (- z))), w))
  /\ (forall z y ys,
        myApplyAtom n "-" (map VInt (z :: y :: ys)) alist fe w
        = (Val (VInt (wrap64 (z - sumZ (y :: ys)))), w)).
Proof.
  split; [|split; [|split]].
  - intros zs.
    rewrite (myApplyAtom_pure n "+" PAdd) by (reflexivity || discriminate).
    simpl applyPure. rewrite foldInts_ints. do 3 f_equal.
    rewrite <- (wrap64_id _ (fold_in_range Z.add zs 0 eq_refl)).
    now rewrite fold_add.
  - intros zs.
    rewrite (myApplyAtom_pure n "*" PMul) by (reflexivity || discriminate).
    simpl applyPure. rewrite foldInts_ints. do 3 f_equal.
    rewrite <- (wrap64_id _ (fold_in_range Z.mul zs 1 eq_refl)).
    rewrite fold_mul. f_equal. lia.
  - reflexivity.
  - intros z y ys.
    rewrite (myApplyAtom_pure n "-" PSub) by (reflexivity || discriminate).
    change (applyPure PSub (map VInt (z :: y :: ys)))
      with (foldInts "- expects integers" Z.sub (map VInt (y :: ys)) z).
    rewrite foldInts_ints. do 3 f_equal.
    change (fold_left (fun a z0 => wrap64 (a - z0)) (y :: ys) z)
      with (fold_left (fun a z0 => wrap64 (a - z0)) ys (wrap64 (z - y))).
    rewrite <- (wrap64_id _ (fold_in_range Z.sub ys _ (wrap64_range (z - y)))).
    rewrite fold_sub, wrap64_sub_l. f_equal. simpl. lia.
Qed.

Lemma divLoop_zero (zs : list Z) (result : Z) :
  In 0 zs ->
  divLoop (map VInt zs) result = Panic DivisionByZero "division by zero".
Proof.
  revert result. induction zs as [|z zs IH]; intros result Hin; [destruct Hin|].
  simpl. destruct (z =? 0) eqn:Ez; [reflexivity|].
  destruct Hin as [-> | Hin]; [discriminate|]. now apply IH.
Qed.

(** The truncated quotient of two [int]s is an [int], but for the least
    [int] divided by -1. *)
Lemma quot_in_range (x y : Z) :
  inRange x = true -> inRange y = true -> y <> 0 ->
  ~ (x = minInt /\ y = -1) ->
  inRange (Z.quot x y) = true.
Proof.
  unfold inRange, minInt, maxInt. intros Hx Hy Hy0 Hov.
  apply andb_true_iff in Hx as [Hx1 Hx2]. apply Z.leb_le in Hx1, Hx2.
  apply andb_true_iff in Hy as [Hy1 Hy2]. apply Z.leb_le in Hy1, Hy2.
  assert (Habs : Z.abs (Z.quot x y) = Z.abs x / Z.abs y).
  { rewrite <- Z.quot_abs by assumption. apply Z.quot_div_nonneg; lia. }
  assert (Hle : Z.abs x / Z.abs y <= Z.abs x)
    by (apply Z.div_le_upper_bound; nia).
  apply andb_true_iff. split; apply Z.leb_le.
  - lia.
  - destruct (Z.eq_dec (Z.abs x) (2 ^ 63)) as [Hmin | Hmin]; [|lia].
    assert (Hxm : x = - 2 ^ 63) by lia. subst x.
    destruct (Z.eq_dec y 1) as [-> | Hy1']; [rewrite Z.quot_1_r; lia|].
    assert (Hy2' : 2 <= Z.abs y) by lia.
    assert (Z.abs (- 2 ^ 63) / Z.abs y <= 2 ^ 62).
    { apply Z.div_le_upper_bound; [lia|].
      change (Z.abs (- 2 ^ 63)) with (2 * 2 ^ 62). nia. }
    lia.
Qed.

(** X6: [/] and two-operand [floor] both give the quotient truncated
    toward zero and wrapped to [int], and [mod] the remainder of the
    truncated division, which is smaller in absolute value than the divisor
    and never of the sign opposite to the dividend.  For operands that are
    [int]s the quotient returned is the exact truncated quotient [q], with
    [x = y * q + r] for the remainder [r] returned, in every case but one:
    the least [int] divided by -1 overflows and returns the least [int]
    again (with remainder 0), so that the identity fails there.  A zero
    divisor, anywhere among the divisors of [/], is a DivisionByZero
    failure. *)
Theorem X6_truncating_division (n : nat) (alist : env) (fe : bool)
  (w : World) :
  (forall x y, y <> 0 ->
     myApplyAtom n "/" [VInt x; VInt y] alist fe w
     = (Val (VInt (wrap64 (Z.quot x y))), w)
     /\ myApplyAtom n "floor" [VInt x; VInt y] alist fe w
        = (Val (VInt (wrap64 (Z.quot x y))), w)
     /\ myApplyAtom n "mod" [VInt x; VInt y] alist fe w
        = (Val (VInt (Z.rem x y)), w)
     /\ Z.abs (Z.rem x y) < Z.abs y
     /\ 0 <= Z.rem x y * x)
  /\ (forall x y, y <> 0 ->
        inRange x = true -> inRange y = true -> ~ (x = minInt /\ y = -1) ->
        exists q r,
          myApplyAtom n "/" [VInt x; VInt y] alist fe w = (Val (VInt q), w)
          /\ myApplyAtom n "floor" [VInt x; VInt y] alist fe w
             = (Val (VInt q), w)
          /\ myApplyAtom n "mod" [VInt x; VInt y] alist fe w
             = (Val (VInt r), w)
          /\ q = Z.quot x y
          /\ x = y * q + r)
  /\ (myApplyAtom n "/" [VInt minInt; VInt (-1)] alist fe w
      = (Val (VInt minInt), w)
      /\ myApplyAtom n "floor" [VInt minInt; VInt (-1)] alist fe w
         = (Val (VInt minInt), w)
      /\ myApplyAtom n "mod" [VInt minInt; VInt (-1)] alist fe w
         = (Val (VInt 0), w)
      /\ minInt <> -1 * minInt + 0)
  /\ (forall z zs, In 0 zs ->
        myApplyAtom n "/" (map VInt (z :: zs)) alist fe w
        = (Panic DivisionByZero "division by zero", w))
  /\ (forall x,
        myApplyAtom n "floor" [VInt x; VInt 0] alist fe w
        = (Panic DivisionByZero "division by zero", w)
        /\ myApplyAtom n "mod" [VInt x; VInt 0] alist fe w
           = (Panic DivisionByZero "mod by zero", w)).
Proof.
  assert (Hdiv : forall x y, y <> 0 ->
    myApplyAtom n "/" [VInt x; VInt y] alist fe w
    = (Val (VInt (wrap64 (Z.quot x y))), w)
    /\ myApplyAtom n "floor" [VInt x; VInt y] alist fe w
       = (Val (VInt (wrap64 (Z.quot x y))), w)
    /\ myApplyAtom n "mod" [VInt x; VInt y] alist fe w
       = (Val (VInt (Z.rem x y)), w)).
  { intros x y Hy. apply Z.eqb_neq in Hy as Hy'. repeat split.
    - rewrite (myApplyAtom_pure n "/" PDiv) by (reflexivity || discriminate).
      simpl. now rewrite Hy'.
    - rewrite (myApplyAtom_pure n "floor" PFloor) by (reflexivity || discriminate).
      simpl. now rewrite Hy'.
    - rewrite (myApplyAtom_pure n "mod" PMod) by (reflexivity || discriminate).
      simpl. unfold primMod, twoInts. now rewrite Hy'. }
  split; [|split; [|split; [|split]]].
  - intros x y Hy. destruct (Hdiv x y Hy) as (Hq & Hf & Hm).
    repeat split; try assumption.
    + now apply Z.rem_bound_abs.
    + apply Z.rem_sign_mul. exact Hy.
  - intros x y Hy Hx Hyr Hov. destruct (Hdiv x y Hy) as (Hq & Hf & Hm).
    exists (Z.quot x y), (Z.rem x y).
    rewrite (wrap64_id _ (quot_in_range x y Hx Hyr Hy Hov)) in Hq, Hf.
    repeat split; try assumption. apply Z.quot_rem'.
  - destruct (Hdiv minInt (-1) ltac:(discriminate)) as (Hq & Hf & Hm).
    repeat split; try assumption. discriminate.
  - intros z zs Hin.
    rewrite (myApplyAtom_pure n "/" PDiv) by (reflexivity || discriminate).
    destruct zs as [|y ys]; [destruct Hin|].
    change (applyPure PDiv (map VInt (z :: y :: ys)))
      with (divLoop (map VInt (y :: ys)) z).
    now rewrite divLoop_zero.
  - intros x. split; reflexivity.
Qed.

End Arithmetic.

(** ** The reader: blank input, padding, errors, quote *)

Section ReaderEdges.
Context `{GoLib}.

Lemma asciiSpace_ascii (c : ascii) : asciiSpace c = true -> nonASCII c = false.
Proof.
  destruct c as [[] [] [] [] [] [] [] []]; vm_compute; intros;
    (reflexivity || discriminate).
Qed.

Lemma TrimSpace_pad_left (ws s : string) :
  allBytes asciiSpace ws = true -> TrimSpace (ws +:+ s) = TrimSpace s.
Proof.
  induction ws as [|c ws IH]; intros Hws; [reflexivity|].
  simpl in Hws. apply andb_true_iff in Hws as [Hc Hws].
  rewrite append_cons.
  change (TrimSpace (String c (ws +:+ s)))
    with (if nonASCII c then unicodeTrimSpace (String c (ws +:+ s))
          else if asciiSpace c then TrimSpace (ws +:+ s)
          else trimRight (String c (ws +:+ s))).
  rewrite (asciiSpace_ascii c Hc), Hc. now apply IH.
Qed.

Lemma TrimSpace_blank (ws : string) :
  allBytes asciiSpace ws = true -> TrimSpace ws = EmptyString.
Proof.
  intros Hws. rewrite <- (append_empty_r ws).
  now rewrite TrimSpace_pad_left.
Qed.

Lemma dropTrailingSpace_blank (ws : string) :
  allBytes asciiSpace ws = true -> dropTrailingSpace ws = EmptyString.
Proof.
  induction ws as [|c ws IH]; intros Hws; [reflexivity|].
  simpl in Hws. apply andb_true_iff in Hws as [Hc Hws].
  simpl. now rewrite IH, Hc.
Qed.

Lemma dropTrailingSpace_pad_right (s ws : string) :
  plainEnd s = true -> allBytes asciiSpace ws = true ->
  dropTrailingSpace (s +:+ ws) = s.
Proof.
  intros Hend Hws. induction s as [|c s IH]; [discriminate|].
  rewrite append_cons. destruct s as [|c' s'].
  - rewrite append_nil. simpl. rewrite dropTrailingSpace_blank by assumption.
    unfold plainEnd, plainByte in Hend. simpl in Hend.
    apply andb_true_iff in Hend as [_ Hc]. apply negb_true_iff in Hc.
    now rewrite Hc.
  - assert (Hend' : plainEnd (String c' s') = true) by exact Hend.
    specialize (IH Hend').
    change (dropTrailingSpace (String c (String c' s' +:+ ws)))
      with (match dropTrailingSpace (String c' s' +:+ ws) with
            | EmptyString =>
                if asciiSpace c then EmptyString else String c EmptyString
            | r' => String c r'
            end).
    now rewrite IH.
Qed.

Lemma TrimSpace_pad (ws s ws' : string) :
  allBytes asciiSpace ws = true -> allBytes asciiSpace ws' = true ->
  plainStart s = true -> plainEnd s = true ->
  TrimSpace (ws +:+ s +:+ ws') = s.
Proof.
  intros Hws Hws' Hstart Hend. rewrite TrimSpace_pad_left by assumption.
  destruct s as [|c s]; [discriminate|].
  unfold plainStart, plainByte in Hstart. simpl in Hstart.
  apply andb_true_iff in Hstart as [Hascii Hspace].
  apply negb_true_iff in Hascii, Hspace.
  rewrite append_cons.
  change (TrimSpace (String c (s +:+ ws')))
    with (if nonASCII c then unicodeTrimSpace (String c (s +:+ ws'))
          else if asciiSpace c then TrimSpace (s +:+ ws')
          else trimRight (String c (s +:+ ws'))).
  rewrite Hascii, Hspace. unfold trimRight. rewrite <- append_cons.
  rewrite dropTrailingSpace_pad_right by assumption.
  unfold plainEnd in Hend.
  destruct (lastByte (String c s)) as [l|]; [|reflexivity].
  unfold plainByte in Hend. apply andb_true_iff in Hend as [Hl _].
  apply negb_true_iff in Hl. now rewrite Hl.
Qed.

(** X7: input made of ASCII white space only (the empty input included)
    has no token and reads as nil; and ASCII white space before and after a
    text that begins and ends with a non-blank ASCII byte changes neither
    its tokens nor what it reads as. *)
Theorem X7_blank_input_and_padding :
  (forall ws,
     allBytes asciiSpace ws = true ->
     tokenize ws = [] /\ readSExpression ws = Parsed VNil [])
  /\ (forall ws s ws',
        allBytes asciiSpace ws = true -> allBytes asciiSpace ws' = true ->
        plainStart s = true -> plainEnd s = true ->
        tokenize (ws +:+ s +:+ ws') = tokenize s
        /\ readSExpression (ws +:+ s +:+ ws') = readSExpression s).
Proof.
  split.
  - intros ws Hws.
    assert (Htok : tokenize ws = []).
    { unfold tokenize. now rewrite TrimSpace_blank. }
    split; [exact Htok|]. unfold readSExpression. now rewrite Htok.
  - intros ws s ws' Hws Hws' Hstart Hend.
    assert (Htok : tokenize (ws +:+ s +:+ ws') = tokenize s).
    { unfold tokenize. rewrite TrimSpace_pad by assumption.
      now rewrite TrimSpace_plain. }
    split; [exact Htok|]. unfold readSExpression. now rewrite Htok.
Qed.





Lemma Atoi_range (s : string) (n : Z) : Atoi s = Some n -> inRange n = true.
Proof.
  unfold Atoi. destruct s as [|c r]; [discriminate|].
  destruct (if Ascii.eqb c "-" || Ascii.eqb c "+" then r else String c r);
    [discriminate|].
  destruct (digits 0 (String a s)) as [k|]; [|discriminate].
  destruct (inRange (if Ascii.eqb c "-" then - k else k)) eqn:Hr;
    [|discriminate].
  now intros [= <-].
Qed.

Lemma openEnded_quote (ts : list string) :
  openEnded ts = true -> openEnded ("'" :: ts) = true.
Proof.
  unfold openEnded. destruct ts as [|t ts]; [reflexivity|].
  change (last ("'" :: t :: ts)) with (last (t :: ts)). auto.
Qed.

(** A value cut short holds a nil, so it is not denotable. *)
Lemma cutShort_not_denotable (v : value) :
  cutShort v = true -> denotable v = false.
Proof.
  induction v as [|s|n|l IH] using value_ind_nested; try discriminate.
  - reflexivity.
  - destruct l as [|[|q| |] [|e [|]]]; try discriminate.
    intros Hc. simpl in Hc. apply andb_true_iff in Hc as [_ Hc].
    apply Forall_cons in IH as [_ IH]. apply Forall_cons in IH as [IH _].
    simpl. rewrite (IH Hc). now rewrite andb_false_r.
Qed.

(** With a token to look at, the parsers return a list, a symbol or an
    integer, never nil. *)
Lemma parseList_not_nil (fuel : nat) (tokens : list string)
  (lst : list value) (rest : list string) :
  parseList fuel tokens lst <> Parsed VNil rest.
Proof.
  revert tokens lst. induction fuel as [|n IH]; intros tokens lst;
    [discriminate|].
  destruct tokens as [|t ts]; [discriminate|]. simpl.
  destruct (String.eqb t ")"); [discriminate|].
  destruct (parseSExpression n (t :: ts)) as [e r| |]; try discriminate.
  apply IH.
Qed.

Lemma parseSExpression_not_nil (fuel : nat) (t : string)
  (ts rest : list string) :
  parseSExpression fuel (t :: ts) = Parsed VNil rest -> False.
Proof.
  destruct fuel as [|n]; [discriminate|]. simpl.
  destruct (String.eqb t "'").
  { destruct (parseSExpression n ts); discriminate. }
  destruct (String.eqb t "("); [apply parseList_not_nil|].
  destruct (String.eqb t ")"); [discriminate|].
  destruct (Atoi t); discriminate.
Qed.

(** The invariant of the two parsers.  [parseSExpression] returns a
    denotable value, or else it has used up the tokens, which ended with a
    quote or were none; [parseList] never takes such a value as an element,
    since it needs a closing parenthesis after it. *)
Lemma parse_wellRead (fuel : nat) :
  (forall tokens v rest,
     Forall tokenShape tokens ->
     parseSExpression fuel tokens = Parsed v rest ->
     Forall tokenShape rest
     /\ (denotable v = true
         \/ (cutShort v = true /\ rest = [] /\ openEnded tokens = true)))
  /\ (forall tokens lst v rest,
        Forall tokenShape tokens -> forallb denotable lst = true ->
        parseList fuel tokens lst = Parsed v rest ->
        Forall tokenShape rest /\ denotable v = true).
Proof.
  induction fuel as [|n [IHs IHl]]; [split; intros; discriminate|].
  split.
  - intros tokens v rest Htok. destruct tokens as [|t ts].
    { intros [= <- <-]. split; [constructor | right; auto]. }
    apply Forall_cons in Htok as [Ht Hts]. simpl.
    destruct (String.eqb t "'") eqn:Eq.
    { apply String.eqb_eq in Eq as ->.
      destruct (parseSExpression n ts) as [e r| |] eqn:Hp; try discriminate.
      intros [= <- <-]. destruct (IHs ts e r Hts Hp) as [Hr [He | (He & -> & Hend)]].
      - split; [exact Hr | left]. simpl. now rewrite He.
      - split; [exact Hr | right]. split; [exact He | split; [reflexivity|]].
        now apply openEnded_quote. }
    destruct (String.eqb t "(") eqn:Eo.
    { intros Hp. destruct (IHl ts [] v rest Hts eq_refl Hp) as [Hr Hv]. auto. }
    destruct (String.eqb t ")") eqn:Ec; [discriminate|].
    assert (Hrun : atomRun t = true).
    { destruct Ht as [-> | [-> | [-> | Ht]]]; try discriminate. exact Ht. }
    destruct (Atoi t) as [num|] eqn:Ha; intros [= <- <-];
      (split; [exact Hts | left]).
    + simpl. now apply (Atoi_range t).
    + simpl. unfold atomText. now rewrite Hrun, Ha.
  - intros tokens lst v rest Htok Hlst. destruct tokens as [|t ts]; [discriminate|].
    simpl. destruct (String.eqb t ")").
    { intros [= <- <-]. apply Forall_cons in Htok as [_ Hts].
      split; [exact Hts | exact Hlst]. }
    destruct (parseSExpression n (t :: ts)) as [e r| |] eqn:Hp; try discriminate.
    destruct (IHs (t :: ts) e r Htok Hp) as [Hr [He | (_ & -> & _)]].
    + apply IHl; [exact Hr|].
      rewrite forallb_app, Hlst. simpl. now rewrite He.
    + destruct n; discriminate.
Qed.

(** X10: whatever the input, when the reader returns a value no token is
    left over, and the value is denotable: built from integers that fit
    [int], symbols that are atom tokens (non-empty, free of spaces,
    parentheses and quotes) which [Atoi] rejects, the [quote] the reader
    inserts being one, and lists of such, with no nil anywhere; or else the
    value is cut short: nil, by itself or under [quote] lists, which
    happens only when the input has no token or its last token is a quote.
    The value is nil itself exactly when the input has no token.  So nil is
    never an element of a list that was written in parentheses, and a value
    cut short is not denotable. *)
Theorem X10_reader_output_is_well_formed (input : string) (v : value)
  (rest : list string) :
  readSExpression input = Parsed v rest ->
  rest = []
  /\ wellRead v = true
  /\ (denotable v = true
      \/ (cutShort v = true /\ denotable v = false
          /\ openEnded (tokenize input) = true))
  /\ (v = VNil <-> tokenize input = []).
Proof.
  unfold readSExpression. destruct (tokenize input) as [|t ts] eqn:Htok.
  { intros [= <- <-].
    split; [reflexivity | split; [reflexivity | split; [right; auto | tauto]]]. }
  assert (Hshape : Forall tokenShape (t :: ts)).
  { rewrite <- Htok. unfold tokenize.
    apply tokenizeLoop_shape; [constructor | reflexivity]. }
  destruct (parseSExpression (parseFuel (t :: ts)) (t :: ts))
    as [e [|r rs]| |] eqn:Hp; try discriminate.
  intros [= <- <-]. split; [reflexivity|].
  assert (Hnil : e = VNil <-> t :: ts = []).
  { split; [|discriminate]. intros ->.
    now destruct (parseSExpression_not_nil _ t ts [] Hp). }
  destruct (proj1 (parse_wellRead _) _ _ _ Hshape Hp) as [_ [He | (He & _ & Hend)]].
  - unfold wellRead. rewrite He. auto.
  - unfold wellRead. rewrite He, orb_true_r.
    split; [reflexivity | split; [right | exact Hnil]].
    split; [reflexivity | split; [now apply cutShort_not_denotable | exact Hend]].
Qed.

End ReaderEdges.

(** ** The evaluator: atoms, scoping forms, calls *)

Section EvaluatorEdges.
Context `{GoLib}.

Lemma myEval_int (n : nat) (z : Z) (alist : env) (w : World) :
  myEval (S n) (VInt z) alist w = (Val (VInt z), w).
Proof. reflexivity. Qed.

(** X11: atoms.  A symbol spelled T or NIL in any casing evaluates to the
    symbol T, respectively to nil, whatever the environments bind it to; an
    integer evaluates to itself; and a symbol bound neither in the local
    nor in the global map evaluates to itself, it is not an error. *)
Theorem X11_atoms_evaluate (n : nat) (alist : env) (w : World) :
  (forall s, ToUpper s = "T" ->
     myEval (S n) (VSym s) alist w = (Val (VSym "T"), w))
  /\ (forall s, ToUpper s = "NIL" ->
        myEval (S n) (VSym s) alist w = (Val VNil, w))
  /\ (forall z, myEval (S n) (VInt z) alist w = (Val (VInt z), w))
  /\ (forall s, reserved s = false ->
        contents alist w !! s = None -> globalAlist w !! s = None ->
        myEval (S n) (VSym s) alist w = (Val (VSym s), w)).
Proof.
  split; [|split; [|split]].
  - intros s Hs. cbn -[String.eqb ToUpper]. now rewrite Hs.
  - intros s Hs. cbn -[String.eqb ToUpper]. now rewrite Hs.
  - reflexivity.
  - intros s Hres Hlocal Hglobal. rewrite myEval_symbol by assumption.
    now rewrite Hlocal, Hglobal.
Qed.

(** X12: [let*] binds in sequence and [let] in parallel.  With the
    bindings [((x k) (y x))] and the body [y], [let*] returns [k], while
    [let] returns what [x] evaluates to in the caller's environment; the
    world is left as it was. *)
Theorem X12_let_is_parallel_letstar_sequential (n : nat) (x y : string)
  (k : Z) (alist : env) (w : World) :
  reserved x = false -> reserved y = false ->
  let bindings :=
    VList [VList [VSym x; VInt k]; VList [VSym y; VSym x]] in
  myApply (S n) "let*" [bindings; VSym y] alist w = (Val (VInt k), w)
  /\ myApply (S n) "let" [bindings; VSym y] alist w
     = myEval (S n) (VSym x) alist w.
Proof.
  intros Hx Hy bindings. split.
  - unfold myApply, myApplyF.
    change (formOf (ToUpper "let*")) with (Some FLetStar).
    cbn -[myEval]. unfold bind, getContents.
    rewrite myEval_int.
    rewrite (myEval_symbol n x) by assumption. cbn -[myEval].
    rewrite lookup_insert_eq.
    rewrite (myEval_symbol n y) by assumption. cbn -[myEval].
    now rewrite lookup_insert_eq.
  - unfold myApply, myApplyF.
    change (formOf (ToUpper "let")) with (Some FLet).
    cbn -[myEval]. unfold bind, getContents.
    rewrite myEval_int.
    rewrite (myEval_symbol n x) by assumption. cbn -[myEval].
    rewrite (myEval_symbol n y) by assumption. cbn -[myEval].
    now rewrite lookup_insert_eq.
Qed.

(** X13: [setq] and [defun] do not look at the caller's environment: the
    value expression of [setq] is evaluated with the global map as its
    environment, so bindings made by an enclosing [let] or by a function
    call are invisible to it. *)
Theorem X13_setq_and_defun_ignore_the_local_environment (n : nat)
  (fnSym : string) (args : list value) (alist alist' : env) (w : World) :
  formOf (ToUpper fnSym) = Some FSetq \/ formOf (ToUpper fnSym) = Some FDefun ->
  myApply n fnSym args alist w = myApply n fnSym args alist' w.
Proof.
  intros [Hf | Hf]; unfold myApply, myApplyF; rewrite Hf; reflexivity.
Qed.

(** X14: calling a user-defined function with a number of arguments other
    than its number of formals fails with ArityError, before any body form
    is evaluated: the world is unchanged. *)
Theorem X14_user_function_arity (n : nat) (fnSym : string)
  (formals body args : list value) (alist : env) (fe : bool) (w : World) :
  primOf (ToUpper fnSym) = None ->
  globalAlist w !! fnSym = Some (VList (VList formals :: body)) ->
  body <> [] ->
  length formals <> length args ->
  myApplyAtom n fnSym args alist fe w
  = (Panic ArityError "Lambda argument count mismatch", w).
Proof.
  intros Hprim Hdef Hbody Hlen.
  unfold myApplyAtom, myApplyAtomF. rewrite Hprim, Hdef.
  destruct body as [|b body]; [congruence|].
  unfold myApplyLambdaF, bind, getContents, lift, bindFormals.
  apply Nat.eqb_neq in Hlen. now rewrite Hlen.
Qed.

(** X15: [apply] needs a symbol: when its first operand evaluates to
    anything else, a [lambda] list included, it fails with NotCallable and
    the second operand is not evaluated. *)
Theorem X15_apply_needs_a_symbol (n : nat) (fnSym : string) (f a : value)
  (alist : env) (w w1 : World) (v : value) :
  formOf (ToUpper fnSym) = Some FApply ->
  myEval n f alist w = (Val v, w1) ->
  isString v = false ->
  myApply n fnSym [f; a] alist w
  = (Panic NotCallable "apply expects a function symbol as first arg", w1).
Proof.
  intros Hform Hf Hv. unfold myApply, myApplyF. rewrite Hform.
  unfold bind. rewrite Hf. destruct v; try reflexivity. discriminate.
Qed.

(** X16: the forms [and], [or] and [not], and the built-in predicates
    ([eq], [equal], [atom], [null], [listp], [symbolp], [stringp],
    [numberp], [zerop], [elem], [<], [>], [=]), answer only the symbol T or
    nil; in particular [and] and [or] do not return the value of their last
    operand. *)
Theorem X16_truth_values_are_T_or_NIL (n : nat) (fnSym : string)
  (args : list value) (alist : env) (w w' : World) (v : value) :
  (exists f, formOf (ToUpper fnSym) = Some f
             /\ (f = FAnd \/ f = FOr \/ f = FNot))
  \/ (formOf (ToUpper fnSym) = None
      /\ exists p, primOf (ToUpper fnSym) = Some p /\ isPredicate p = true) ->
  myApply n fnSym args alist w = (Val v, w') ->
  v = VSym "T" \/ v = VNil.
Proof.
  assert (Hbool : forall b, boolToT b = VSym "T" \/ boolToT b = VNil)
    by (intros []; auto).
  intros [(f & Hf & Hcase) | (Hf & p & Hp & Hpred)];
    unfold myApply, myApplyF; rewrite Hf.
  - destruct Hcase as [-> | [-> | ->]].
    + revert w. induction args as [|a rest IH]; intros w; simpl.
      * intros [= <- <-]. auto.
      * unfold bind. destruct (myEval n a alist w) as [[val|k m|] w1];
          try discriminate.
        destruct (isNil val); [intros [= <- <-]; auto | apply IH].
    + revert w. induction args as [|a rest IH]; intros w; simpl.
      * intros [= <- <-]. auto.
      * unfold bind. destruct (myEval n a alist w) as [[val|k m|] w1];
          try discriminate.
        destruct (negb (isNil val)); [intros [= <- <-]; auto | apply IH].
    + destruct args as [|a [|b rest]]; try discriminate.
      unfold bind. destruct (myEval n a alist w) as [[val|k m|] w1];
        try discriminate.
      intros [= <- <-]. apply Hbool.
  - unfold bind.
    destruct (evalArgsF (myEval n) args alist w) as [[vs|k m|] w1];
      try discriminate.
    fold (myApplyAtom n fnSym vs alist true w1).
    rewrite (myApplyAtom_pure _ _ p) by (assumption || (intros ->; discriminate)).
    intros [= Hres <-]. revert Hres.
    destruct p; try discriminate; cbn -[equalp isNil ToUpper String.eqb];
      unfold twoInts, oneInt, typeTest;
      destruct vs as [|[] [|[] [|? ?]]];
      cbn -[equalp isNil ToUpper String.eqb];
      repeat match goal with
             | |- context [if ?c then _ else _] => destruct c
             end;
      intros [= <-]; auto.
Qed.

(** X17: [appendHelp] is concatenation: its result is the elements of
    the first slice followed by those of the second, so it has the empty
    slice as unit on both sides, is associative and adds the lengths. *)
Theorem X17_appendHelp_is_concatenation (x y z : list value) :
  appendHelp x y = (x ++ y)%list
  /\ appendHelp x [] = x
  /\ appendHelp [] y = y
  /\ appendHelp (appendHelp x y) z = appendHelp x (appendHelp y z)
  /\ length (appendHelp x y) = (length x + length y)%nat.
Proof.
  assert (Happ : forall a b, appendHelp a b = (a ++ b)%list).
  { induction a as [|a0 a IH]; intros b; [reflexivity|]. simpl. now rewrite IH. }
  rewrite !Happ. repeat split.
  - apply app_nil_r.
  - symmetry. apply app_assoc.
  - apply length_app.
Qed.

End EvaluatorEdges.

(** ** The world only grows *)

Section WorldGrowth.
Context `{GoLib}.

Lemma grows_refl (w : World) : grows w w.
Proof. split; reflexivity. Qed.

Lemma grows_trans (w1 w2 w3 : World) : grows w1 w2 -> grows w2 w3 -> grows w1 w3.
Proof. intros [Hd Hs] [Hd' Hs']. split; etrans; eassumption. Qed.

Lemma growing_still {A} (m : M A) : (forall w, (m w).2 = w) -> growing m.
Proof.
  intros Hm w r w' Hrun. specialize (Hm w). rewrite Hrun in Hm. simpl in Hm.
  subst w'. apply grows_refl.
Qed.

Lemma growing_ret {A} (a : A) : growing (ret a).
Proof. now apply growing_still. Qed.

Lemma growing_panic {A} (k : EvalError) (msg : string) : growing (@panic A k msg).
Proof. now apply growing_still. Qed.

Lemma growing_lift {A} (o : outcome A) : growing (lift o).
Proof. now apply growing_still. Qed.

Lemma growing_getContents (alist : env) : growing (getContents alist).
Proof. now apply growing_still. Qed.

Lemma growing_setGlobal (k : string) (v : value) : growing (setGlobal k v).
Proof.
  intros w r w' [= <- <-]. split; simpl; [|reflexivity].
  rewrite dom_insert_L. set_solver.
Qed.

Lemma growing_println (line : string) : growing (println line).
Proof.
  intros w r w' [= <- <-]. split; simpl; [reflexivity|].
  now apply prefix_app_r.
Qed.

Lemma growing_bind {A B} (m : M A) (f : A -> M B) :
  growing m -> (forall a, growing (f a)) -> growing (bind m f).
Proof.
  intros Hm Hf w r w' Hrun. unfold bind in Hrun.
  destruct (m w) as [[a|k msg|] w1] eqn:Em.
  - apply (grows_trans w w1 w'); [exact (Hm w _ _ Em) | exact (Hf a w1 _ _ Hrun)].
  - injection Hrun as <- <-. exact (Hm w _ _ Em).
  - injection Hrun as <- <-. exact (Hm w _ _ Em).
Qed.

Lemma growing_myEvalAtom (atom : value) (alist : env) :
  growing (myEvalAtom atom alist).
Proof.
  apply growing_still. intros w. unfold myEvalAtom.
  destruct atom as [|s|z|l]; try reflexivity.
  destruct (String.eqb (ToUpper s) "T"); [reflexivity|].
  destruct (String.eqb (ToUpper s) "NIL"); [reflexivity|].
  destruct (contents alist w !! s); [reflexivity|].
  destruct (globalAlist w !! s); reflexivity.
Qed.

Lemma growing_myEvalDefun (args : list value) : growing (myEvalDefun args).
Proof.
  unfold myEvalDefun.
  destruct args as [|a0 [|a1 [|b body]]]; try apply growing_panic.
  destruct a0; try apply growing_panic.
  destruct a1; try apply growing_panic.
  apply growing_bind; [apply growing_setGlobal | intros _; apply growing_ret].
Qed.

Section OneLayer.
Variable ev : value -> env -> M value.
Hypothesis Hev : forall e alist, growing (ev e alist).

Local Ltac grow :=
  first [ apply growing_ret | apply growing_panic | apply growing_lift
        | apply growing_getContents | apply growing_setGlobal
        | apply growing_println | apply Hev
        | apply growing_bind; [|intros ?] ].

Lemma growing_myEvalListF (exprs : list value) (alist : env) :
  growing (myEvalListF ev exprs alist).
Proof.
  induction exprs as [|e rest IH]; [apply growing_ret|].
  destruct rest as [|e' rest]; [apply Hev|].
  change (growing (bind (ev e alist)
                     (fun _ => myEvalListF ev (e' :: rest) alist))).
  apply growing_bind; [apply Hev | intros _; exact IH].
Qed.

Lemma growing_myApplyLambdaF (fnBody args : list value) (alist : env) :
  growing (myApplyLambdaF ev fnBody args alist).
Proof.
  destruct fnBody as [|f [|b body]]; try apply growing_panic.
  destruct f; try apply growing_panic. unfold myApplyLambdaF.
  repeat grow. apply growing_myEvalListF.
Qed.

Lemma growing_myEvalCondF (clauses : list value) (alist : env) :
  growing (myEvalCondF ev clauses alist).
Proof.
  induction clauses as [|c rest IH]; [apply growing_ret|].
  destruct c as [| | |[|c0 body]]; try apply growing_panic. simpl.
  apply growing_bind; [apply Hev|]. intros condition.
  destruct (negb (isNil condition)); [apply growing_myEvalListF | exact IH].
Qed.

Lemma growing_evalIfF (args : list value) (alist : env) :
  growing (evalIfF ev args alist).
Proof.
  destruct args as [|c [|th [|el [|x rest]]]]; try apply growing_panic; simpl;
    (apply growing_bind; [apply Hev|]); intros condition;
    destruct (negb (isNil condition)); repeat grow.
Qed.

Lemma growing_evalArgsF (args : list value) (alist : env) :
  growing (evalArgsF ev args alist).
Proof.
  induction args as [|a rest IH]; [apply growing_ret|]. simpl.
  apply growing_bind; [apply Hev|]. intros v.
  apply growing_bind; [exact IH|]. intros vs. apply growing_ret.
Qed.

Lemma growing_andLoopF (args : list value) (alist : env) :
  growing (andLoopF ev args alist).
Proof.
  induction args as [|a rest IH]; [apply growing_ret|]. simpl.
  apply growing_bind; [apply Hev|]. intros val.
  destruct (isNil val); [apply growing_ret | exact IH].
Qed.

Lemma growing_orLoopF (args : list value) (alist : env) :
  growing (orLoopF ev args alist).
Proof.
  induction args as [|a rest IH]; [apply growing_ret|]. simpl.
  apply growing_bind; [apply Hev|]. intros val.
  destruct (negb (isNil val)); [apply growing_ret | exact IH].
Qed.

Lemma growing_letStarLoopF (bindings : list value) (localAlist : Alist) :
  growing (letStarLoopF ev bindings localAlist).
Proof.
  revert localAlist.
  induction bindings as [|b rest IH]; intros localAlist; [apply growing_ret|].
  destruct b as [| | |[|p0 [|p1 [|x more]]]]; try apply growing_panic.
  destruct p0; try apply growing_panic. simpl.
  apply growing_bind; [apply Hev|]. intros val. apply IH.
Qed.

Lemma growing_letLoopF (bindings : list value) (alist : env) :
  growing (letLoopF ev bindings alist).
Proof.
  induction bindings as [|b rest IH]; [apply growing_ret|].
  destruct b as [| | |[|p0 [|p1 [|x more]]]]; try apply growing_panic.
  destruct p0; try apply growing_panic. simpl.
  apply growing_bind; [apply Hev|]. intros val.
  apply growing_bind; [exact IH|]. intros more. apply growing_ret.
Qed.

Lemma growing_myApplyAtomF (fnSym : string) (args : list value) (alist : env)
  (fe : bool) :
  growing (myApplyAtomF ev fnSym args alist fe).
Proof.
  unfold myApplyAtomF. destruct (primOf (ToUpper fnSym)) as [p|].
  - destruct p; try apply growing_lift.
    + destruct args as [|a [|b rest]]; repeat grow.
    + apply growing_evalIfF.
  - intros w r w' Hrun.
    destruct (globalAlist w !! fnSym) as [[| | |lambdaBody]|];
      try (injection Hrun as <- <-; apply grows_refl).
    exact (growing_myApplyLambdaF lambdaBody args Global w r w' Hrun).
Qed.

Lemma growing_myApplyF (fnSym : string) (args : list value) (alist : env) :
  growing (myApplyF ev fnSym args alist).
Proof.
  unfold myApplyF. destruct (formOf (ToUpper fnSym)) as [f|].
  - destruct f.
    + destruct args as [|a [|b rest]]; repeat grow.
    + apply growing_myEvalCondF.
    + apply growing_myEvalDefun.
    + destruct args as [|a0 [|a1 [|x rest]]]; try apply growing_panic.
      destruct a0; try apply growing_panic. unfold myEvalSetqF. repeat grow.
    + destruct args as [|a [|x rest]]; repeat grow.
    + destruct args as [|a0 [|a1 [|x rest]]]; try apply growing_panic.
      apply growing_bind; [apply Hev|]. intros fnVal.
      destruct fnVal; try apply growing_panic.
      apply growing_bind; [apply Hev|]. intros argVal.
      apply growing_myApplyAtomF.
    + apply growing_andLoopF.
    + apply growing_orLoopF.
    + destruct args as [|a [|x rest]]; repeat grow.
    + destruct args as [|a0 [|b body]]; try apply growing_panic.
      destruct a0; try apply growing_panic.
      apply growing_bind; [apply growing_getContents|]. intros inherited.
      apply growing_bind; [apply growing_letStarLoopF|]. intros localAlist.
      apply growing_myEvalListF.
    + apply growing_evalIfF.
    + destruct args as [|a0 [|b body]]; try apply growing_panic.
      destruct a0; try apply growing_panic.
      apply growing_bind; [apply growing_getContents|]. intros inherited.
      apply growing_bind; [apply growing_letLoopF|]. intros pairs.
      apply growing_myEvalListF.
  - apply growing_bind; [apply growing_evalArgsF|]. intros evaledArgs.
    apply growing_myApplyAtomF.
Qed.

Lemma growing_myEvalF (expr : value) (alist : env) :
  growing (myEvalF ev expr alist).
Proof.
  destruct expr as [|s|z|[|h t]]; try apply growing_ret;
    try apply growing_myEvalAtom.
  destruct h; try apply growing_panic. apply growing_myApplyF.
Qed.

End OneLayer.

Lemma growing_myEval (n : nat) (expr : value) (alist : env) :
  growing (myEval n expr alist).
Proof.
  revert expr alist. induction n as [|n IH]; intros expr alist.
  - apply growing_lift.
  - apply growing_myEvalF. exact IH.
Qed.

(** X18: evaluation never removes a binding from the global map and
    never takes back output: whatever the expression and however the
    evaluation ends (a value, a panic, fuel exhausted), every name bound in
    the global map before is still bound after, and what has been printed
    before is a prefix of what has been printed after. *)
Theorem X18_the_world_only_grows (n : nat) (expr : value) (alist : env)
  (w w' : World) (r : outcome value) :
  myEval n expr alist w = (r, w') ->
  dom (globalAlist w) ⊆ dom (globalAlist w')
  /\ stdout w `prefix_of` stdout w'.
Proof. intros Hrun. exact (growing_myEval n expr alist w r w' Hrun). Qed.

End WorldGrowth.

(** ** Built-in functions and the world; the tokenizer keeps every byte *)

Section Conservation.
Context `{GoLib}.

(** X19: of the built-in functions only [print] has an effect (the [if]
    reachable through [apply] evaluates its operands and is left aside):
    every other one leaves the global map and the output as they were,
    whether it returns or fails; [print] with one argument returns that
    argument and adds its printed form as one line of output. *)
Theorem X19_only_print_has_an_effect (n : nat) (fnSym : string) (p : prim)
  (args : list value) (alist : env) (fe : bool) (w : World) :
  primOf (ToUpper fnSym) = Some p -> p <> PIf ->
  (p <> PPrint -> (myApplyAtom n fnSym args alist fe w).2 = w)
  /\ (p = PPrint -> forall a, args = [a] ->
        myApplyAtom n fnSym args alist fe w
        = (Val a, mkWorld (globalAlist w) (stdout w ++ [toLispString a])))
  /\ (p = PPrint -> length args <> 1%nat ->
        myApplyAtom n fnSym args alist fe w
        = (Panic ArityError "print expects 1 argument", w)).
Proof.
  intros Hp Hif. split; [|split].
  - intros Hprint. rewrite (myApplyAtom_pure _ _ p) by assumption. reflexivity.
  - intros -> a ->. unfold myApplyAtom, myApplyAtomF. rewrite Hp. reflexivity.
  - intros -> Hlen. unfold myApplyAtom, myApplyAtomF. rewrite Hp.
    destruct args as [|a [|b rest]]; simpl in Hlen; try reflexivity. lia.
Qed.

Lemma glue_snoc (toks : list string) (t : string) :
  glue (toks ++ [t]) = glue toks +:+ t.
Proof.
  induction toks as [|x toks IH]; simpl.
  - now rewrite append_empty_r.
  - rewrite IH. now rewrite append_assoc.
Qed.

Lemma glue_appendToken (toks : list string) (tok : string) :
  glue (appendToken toks tok) = glue toks +:+ tok.
Proof.
  destruct tok; [now rewrite append_empty_r | apply glue_snoc].
Qed.

Lemma glue_tokenizeLoop (input : string) (toks : list string) (tok : string) :
  glue (tokenizeLoop input toks tok) = glue toks +:+ tok +:+ dropSpaces input.
Proof.
  revert toks tok. induction input as [|c input IH]; intros toks tok.
  - simpl. rewrite glue_appendToken. now rewrite append_empty_r.
  - simpl.
    destruct (Ascii.eqb_spec c "(") as [->|_].
    { rewrite IH, glue_snoc, glue_appendToken. simpl dropSpaces.
      now rewrite append_nil, !append_assoc. }
    destruct (Ascii.eqb_spec c ")") as [->|_].
    { rewrite IH, glue_snoc, glue_appendToken. simpl dropSpaces.
      now rewrite append_nil, !append_assoc. }
    destruct (Ascii.eqb_spec c "'") as [->|_].
    { rewrite IH, glue_snoc, glue_appendToken. simpl dropSpaces.
      now rewrite append_nil, !append_assoc. }
    destruct (Ascii.eqb c " ").
    { destruct (0 <? String.length tok)%nat; rewrite IH.
      - rewrite glue_appendToken. now rewrite append_nil, append_assoc.
      - reflexivity. }
    rewrite IH. now rewrite append_snoc.
Qed.

(** X20: the tokenizer neither loses nor invents a byte: the tokens of an
    input, laid end to end, are the trimmed input with its space bytes
    removed. *)
Theorem X20_tokens_keep_every_byte (input : string) :
  glue (tokenize input) = dropSpaces (TrimSpace input).
Proof. unfold tokenize. now rewrite glue_tokenizeLoop. Qed.

End Conservation.

(** ** Instances of the further properties *)

(** Blank input, and [(a)] between a tab and a newline. *)
Lemma X7_blank_input_and_padding_witness :
  tokenize (H := asciiLib) "   " = []
  /\ readSExpression (H := asciiLib) "   " = Parsed VNil []
  /\ tokenize (H := asciiLib)
       (String (ascii_of_nat 9) "(a)" +:+ String (ascii_of_nat 10) EmptyString)
     = tokenize (H := asciiLib) "(a)".
Proof.
  destruct (X7_blank_input_and_padding (H := asciiLib)) as [Hblank Hpad].
  destruct (Hblank "   " eq_refl) as [Htok Hread].
  destruct (Hpad (String (ascii_of_nat 9) EmptyString) "(a)"
              (String (ascii_of_nat 10) EmptyString)
              eq_refl eq_refl eq_refl eq_refl) as [Hsame _].
  split; [exact Htok | split; [exact Hread | exact Hsame]].
Defined.



(** What [(a 12 'b)] reads as is denotable; two quotes with nothing after
    them read as nil under two [quote] lists. *)
Lemma X10_reader_output_is_well_formed_witness :
  let v := VList [VSym "a"; VInt 12; VList [VSym "quote"; VSym "b"]] in
  let c := VList [VSym "quote"; VList [VSym "quote"; VNil]] in
  readSExpression (H := asciiLib) "(a 12 'b)" = Parsed v []
  /\ wellRead v = true
  /\ readSExpression (H := asciiLib) "''" = Parsed c []
  /\ wellRead c = true.
Proof.
  intros v c.
  split; [reflexivity | split; [|split; [reflexivity|]]].
  - exact (proj1 (proj2 (X10_reader_output_is_well_formed (H := asciiLib)
                           "(a 12 'b)" v [] eq_refl))).
  - exact (proj1 (proj2 (X10_reader_output_is_well_formed (H := asciiLib)
                           "''" c [] eq_refl))).
Defined.

(** With [x] unbound outside, [let*] gives 1 and [let] the symbol [x]. *)
Lemma X12_let_is_parallel_letstar_sequential_witness :
  let bindings :=
    VList [VList [VSym "x"; VInt 1]; VList [VSym "y"; VSym "x"]] in
  myApply (H := asciiLib) 1 "let*" [bindings; VSym "y"] Global emptyWorld
  = (Val (VInt 1), emptyWorld)
  /\ myApply (H := asciiLib) 1 "let" [bindings; VSym "y"] Global emptyWorld
     = (Val (VSym "x"), emptyWorld).
Proof.
  exact (X12_let_is_parallel_letstar_sequential (H := asciiLib) 0 "x" "y" 1
           Global emptyWorld eq_refl eq_refl).
Defined.

(** [(setq y x)] where [let] has bound [x] to 1 stores the symbol [x]. *)
Lemma X13_setq_and_defun_ignore_the_local_environment_witness :
  myApply (H := asciiLib) 1 "setq" [VSym "y"; VSym "x"]
    (Local {[ "x" := VInt 1 ]}) emptyWorld
  = (Val (VSym "x"), store "y" (VSym "x") emptyWorld).
Proof.
  rewrite (X13_setq_and_defun_ignore_the_local_environment (H := asciiLib)
             1 "setq" [VSym "y"; VSym "x"] (Local {[ "x" := VInt 1 ]}) Global
             emptyWorld (or_introl eq_refl)).
  reflexivity.
Defined.

(** [(f 1)] where [f] takes no argument. *)
Lemma X14_user_function_arity_witness :
  myApplyAtom (H := asciiLib) 1 "f" [VInt 1] Global true scopingWorld
  = (Panic ArityError "Lambda argument count mismatch", scopingWorld).
Proof.
  apply (X14_user_function_arity (H := asciiLib) 1 "f" [] [VSym "x"]);
    [reflexivity | reflexivity | discriminate | discriminate].
Defined.

(** [(apply '(x) 1)]: a list is not callable. *)
Lemma X15_apply_needs_a_symbol_witness :
  myApply (H := asciiLib) 1 "apply"
    [VList [VSym "quote"; VList [VSym "x"]]; VInt 1] Global emptyWorld
  = (Panic NotCallable "apply expects a function symbol as first arg",
     emptyWorld).
Proof.
  exact (X15_apply_needs_a_symbol (H := asciiLib) 1 "apply"
           (VList [VSym "quote"; VList [VSym "x"]]) (VInt 1) Global
           emptyWorld emptyWorld (VList [VSym "x"]) eq_refl eq_refl eq_refl).
Defined.

(** [(or 5)] is T, not 5. *)
Lemma X16_truth_values_are_T_or_NIL_witness :
  myApply (H := asciiLib) 1 "or" [VInt 5] Global emptyWorld
  = (Val (VSym "T"), emptyWorld)
  /\ (VSym "T" = VSym "T" \/ VSym "T" = VNil).
Proof.
  split; [reflexivity|].
  apply (X16_truth_values_are_T_or_NIL (H := asciiLib) 1 "or" [VInt 5] Global
           emptyWorld emptyWorld (VSym "T")); [|reflexivity].
  left. exists FOr. split; [reflexivity | right; left; reflexivity].
Defined.

(** [(setq a 1)] in [scopingWorld] keeps [x] and [f]. *)
Lemma X18_the_world_only_grows_witness :
  dom (globalAlist scopingWorld)
    ⊆ dom (globalAlist (store "a" (VInt 1) scopingWorld))
  /\ stdout scopingWorld `prefix_of` stdout (store "a" (VInt 1) scopingWorld).
Proof.
  exact (X18_the_world_only_grows (H := asciiLib) 2
           (VList [VSym "setq"; VSym "a"; VInt 1]) Global scopingWorld
           (store "a" (VInt 1) scopingWorld) (Val (VInt 1)) eq_refl).
Defined.

(** [car] leaves the world alone; [print] of 7 adds the line [7]. *)
Lemma X19_only_print_has_an_effect_witness :
  (myApplyAtom (H := asciiLib) 0 "car" [VInt 1] Global true scopingWorld).2
  = scopingWorld
  /\ myApplyAtom (H := asciiLib) 0 "print" [VInt 7] Global true scopingWorld
     = (Val (VInt 7),
        mkWorld (globalAlist scopingWorld) (stdout scopingWorld ++ ["7"])).
Proof.
  destruct (X19_only_print_has_an_effect (H := asciiLib) 0 "car" PCar
              [VInt 1] Global true scopingWorld eq_refl ltac:(discriminate))
    as [Hcar _].
  destruct (X19_only_print_has_an_effect (H := asciiLib) 0 "print" PPrint
              [VInt 7] Global true scopingWorld eq_refl ltac:(discriminate))
    as (_ & Hprint & _).
  split; [apply Hcar; discriminate | exact (Hprint eq_refl (VInt 7) eq_refl)].
Defined.

(** ** A recursive user function: [my-length] *)

Section MyLength.
Context `{GoLib}.

Lemma my_length_call (F : nat) (x : value) (alist : env) (fe : bool)
  (w : World) :
  globalAlist w !! "my-length" = Some myLengthDef ->
  myApplyAtom F "my-length" [x] alist fe w
  = myEval F myLengthBody (Local ({[ "l" := x ]} ∪ globalAlist w)) w.
Proof.
  intros Hdef. unfold myApplyAtom, myApplyAtomF.
  change (primOf (ToUpper "my-length")) with (@None prim). cbv beta iota.
  rewrite Hdef. reflexivity.
Qed.

Lemma my_length_parameter (f : nat) (x : value) (g : Alist) (w : World) :
  myEval (S f) (VSym "l") (Local ({[ "l" := x ]} ∪ g)) w = (Val x, w).
Proof.
  rewrite myEval_symbol by reflexivity. simpl contents.
  rewrite lookup_union, lookup_singleton_eq. now destruct (g !! "l").
Qed.

Lemma my_length_null (f : nat) (x : value) (g : Alist) (w : World) :
  myEval (S (S f)) (VList [VSym "null"; VSym "l"])
    (Local ({[ "l" := x ]} ∪ g)) w
  = (Val (boolToT (isNil x)), w).
Proof.
  rewrite myEval_unfold. unfold myEvalF, myApplyF.
  change (formOf (ToUpper "null")) with (@None form). cbv beta iota.
  cbn [evalArgsF]. unfold bind. rewrite my_length_parameter.
  unfold ret. cbv beta iota.
  fold (myApplyAtom (S f) "null" [x] (Local ({[ "l" := x ]} ∪ g)) true w).
  now rewrite (myApplyAtom_pure _ "null" PNull) by (reflexivity || discriminate).
Qed.

Lemma my_length_cdr (f : nat) (x : value) (g : Alist) (w : World) :
  myEval (S (S f)) (VList [VSym "cdr"; VSym "l"])
    (Local ({[ "l" := x ]} ∪ g)) w
  = (primCdr [x], w).
Proof.
  rewrite myEval_unfold. unfold myEvalF, myApplyF.
  change (formOf (ToUpper "cdr")) with (@None form). cbv beta iota.
  cbn [evalArgsF]. unfold bind. rewrite my_length_parameter.
  unfold ret. cbv beta iota.
  fold (myApplyAtom (S f) "cdr" [x] (Local ({[ "l" := x ]} ∪ g)) true w).
  now rewrite (myApplyAtom_pure _ "cdr" PCdr) by (reflexivity || discriminate).
Qed.

Lemma my_length_base (f : nat) (x : value) (g : Alist) (w : World) :
  isNil x = true ->
  myEval (S (S (S f))) myLengthBody (Local ({[ "l" := x ]} ∪ g)) w
  = (Val (VInt 0), w).
Proof.
  intros Hx. rewrite myEval_unfold. unfold myLengthBody, myEvalF, myApplyF.
  change (formOf (ToUpper "cond")) with (Some FCond). cbv beta iota.
  cbn [myEvalCondF]. unfold bind at 1. rewrite my_length_null, Hx. reflexivity.
Qed.

Lemma my_length_step (f : nat) (x : value) (g : Alist) (w : World) :
  isNil x = false ->
  myEval (S (S (S (S (S f))))) myLengthBody (Local ({[ "l" := x ]} ∪ g)) w
  = match primCdr [x] with
    | Val rest =>
        match myApplyAtom (S (S f)) "my-length" [rest]
                (Local ({[ "l" := x ]} ∪ g)) true w with
        | (Val r, w') => (applyPure PInc [r], w')
        | other => other
        end
    | Panic k m => (Panic k m, w)
    | OutOfFuel => (OutOfFuel, w)
    end.
Proof.
  intros Hx. rewrite myEval_unfold. unfold myLengthBody, myEvalF, myApplyF.
  change (formOf (ToUpper "cond")) with (Some FCond). cbv beta iota.
  cbn [myEvalCondF]. unfold bind at 1. rewrite my_length_null, Hx.
  cbn [boolToT isNil isSymbol negb]. unfold bind at 1.
  assert (Ht : myEval (S (S (S (S f)))) (VSym "t")
                 (Local ({[ "l" := x ]} ∪ g)) w
               = (Val (VSym "T"), w)) by reflexivity.
  rewrite Ht.
  change (negb (isNil (VSym "T"))) with true. cbv iota. cbn [myEvalListF].
  rewrite myEval_unfold. unfold myEvalF, myApplyF.
  change (formOf (ToUpper "1+")) with (@None form). cbv beta iota.
  cbn [evalArgsF]. unfold bind at 1 2.
  rewrite myEval_unfold. unfold myEvalF at 1. unfold myApplyF at 1.
  change (formOf (ToUpper "my-length")) with (@None form). cbv beta iota.
  cbn [evalArgsF]. unfold bind at 1 2. rewrite my_length_cdr.
  destruct (primCdr [x]) as [rest|k m|]; try reflexivity.
  unfold ret, bind, myApplyAtom. cbv beta iota.
  destruct (myApplyAtomF (myEval (S (S f))) "my-length" [rest]
              (Local ({[ "l" := x ]} ∪ g)) true w) as [[r|k m|] w'];
    reflexivity.
Qed.

(** X21: the interpreter runs the test file's recursive [my-length]
    correctly: once [my-length] is defined, applying it to a list of [k]
    elements (nil standing for no element, as [cdr] leaves it) returns [k],
    from any caller environment and without changing the world, provided
    the fuel allows [3k + 3] nested evaluations; applied to the empty list
    that ['()] denotes, which is not nil, it returns 1. *)
Theorem X21_my_length_counts (vs : list value) (F : nat) (alist : env)
  (fe : bool) (w : World) :
  globalAlist w !! "my-length" = Some myLengthDef ->
  (3 * length vs + 3 <= F)%nat ->
  myApplyAtom F "my-length" [listOrNil vs] alist fe w
  = (Val (VInt (wrap64 (Z.of_nat (length vs)))), w)
  /\ myApplyAtom (3 + F) "my-length" [VList []] alist fe w
     = (Val (VInt 1), w).
Proof.
  intros Hdef HF. split.
  - revert F alist fe HF. induction vs as [|v vs IH]; intros F alist fe HF.
    + rewrite my_length_call by assumption.
      destruct F as [|[|[|f]]]; try (simpl in HF; lia).
      now rewrite my_length_base.
    + rewrite my_length_call by assumption.
      destruct F as [|[|[|[|[|f]]]]]; try (simpl in HF; lia).
      rewrite my_length_step by reflexivity.
      replace (primCdr [listOrNil (v :: vs)]) with (Val (listOrNil vs))
        by (destruct vs; reflexivity).
      rewrite IH by (simpl in HF; lia).
      simpl applyPure. unfold oneInt. do 3 f_equal.
      rewrite wrap64_add_l. f_equal. simpl length. lia.
  - rewrite my_length_call by assumption.
    destruct F as [|[|[|f]]]; try lia.
    change (3 + S (S (S f)))%nat with (S (S (S (S (S (S f)))))).
    rewrite my_length_step by reflexivity.
    change (primCdr [VList []]) with (Val VNil). cbv beta iota.
    rewrite my_length_call by assumption.
    now rewrite my_length_base.
Qed.

End MyLength.

(** The definition as the test file gives it, then [(my-length '(a b c))]. *)
Lemma X21_my_length_counts_witness :
  evalAndIgnoreError (H := asciiLib) 1
    "(defun my-length (l) (cond ((null l) 0) (t (1+ (my-length (cdr l))))))"
    emptyWorld
  = Some (store "my-length" myLengthDef emptyWorld)
  /\ myApplyAtom (H := asciiLib) 12 "my-length"
       [VList [VSym "a"; VSym "b"; VSym "c"]] Global true
       (store "my-length" myLengthDef emptyWorld)
     = (Val (VInt 3), store "my-length" myLengthDef emptyWorld).
Proof.
  split; [reflexivity|].
  exact (proj1 (X21_my_length_counts (H := asciiLib)
                  [VSym "a"; VSym "b"; VSym "c"] 12 Global true
                  (store "my-length" myLengthDef emptyWorld) eq_refl
                  ltac:(simpl; lia))).
Defined.
